(** * Match-3 core: GemGrid, GameState, Game helpers and ScoringSystem

    A shallow embedding of the board logic of [core/GemGrid.js], of the
    state machine of [core/GameState.js], of the scoring, drag and falling
    helpers of [scenes/Game.js], of [systems/ScoringSystem.js] and of the
    pattern detection of [utils/Helpers.js], and the properties of the
    simulation core that hold (or fail) on it.

    Modelling conventions.
    - A [Gem] is a JavaScript object: the grid array and every local
      variable hold a reference to it, and [gridX]/[gridY] are mutable
      fields.  The embedding keeps an object store [heap] from references
      to field values, so aliasing is the source's.
    - [gems] is the array of columns [this.gems[x][y]]; [None] is [null]
      (a hole or an index past the end reads as [undefined], which every
      use in the source treats like [null]).
    - A JavaScript [TypeError] (a property read on [null]/[undefined], a
      call of a method that the object does not have) is the result
      [TypeError]; recursion and loops that the source does not bound take
      a fuel argument and return [OutOfFuel] when it runs out.
    - [Math.random()] is an arbitrary source [rng]: the n-th call returns
      [rng n], and [Math.floor(Math.random() * k)] is [rng n mod k].
    - The grid calls two methods of its scene that are not presentation:
      [swapGems] ends with the swap sound of the scene's audio manager,
      and [processMatches] hands the matches to the scene's [updateScore].
      The scene is an argument [Scene] of these functions; [gameScene] is
      the scene the repository gives the grid, [Game].
    - An [async] function is followed through each [await] to its end
      where its caller awaits it.  [handleGemClick] does not await the
      swap it starts and is modelled up to its return.
    - Tweens, sprites, the other sounds and the selection/matched
      highlight flags are presentation and are left out.  JavaScript
      numbers that need not be integers (the combo multiplier, a drag
      amount, the positions the pattern detection reads) are read as
      reals. *)

From Stdlib Require Import Reals Lra.
From stdpp Require Import base option list gmap gmultiset.

Close Scope R_scope.
Open Scope nat_scope.

(** ** Results of effectful code *)

Inductive result (A : Type) : Type :=
  | Ok (a : A)
  | TypeError
  | OutOfFuel.
Arguments Ok {A} a.
Arguments TypeError {A}.
Arguments OutOfFuel {A}.

#[global] Instance result_ret : MRet result := λ A a, Ok a.
#[global] Instance result_bind : MBind result := λ A B f m,
  match m with
  | Ok a => f a
  | TypeError => TypeError
  | OutOfFuel => OutOfFuel
  end.

(** A call of a method that the object does not have
    ([obj.m] is [undefined]): it raises a [TypeError]. *)
Definition undefinedMethod {A : Type} : result A := TypeError.

(** [arr.forEach(f)] / a [for] loop whose body threads a state [S]. *)
Fixpoint forEachM {A S : Type} (f : S → A → result S) (l : list A) (s : S)
  : result S :=
  match l with
  | [] => Ok s
  | a :: l' => s' ← f s a; forEachM f l' s'
  end.

(** A loop whose body may [return true] out of the enclosing function. *)
Fixpoint anyM {A S : Type} (f : S → A → result (bool * S)) (l : list A) (s : S)
  : result (bool * S) :=
  match l with
  | [] => Ok (false, s)
  | a :: l' =>
      '(b, s') ← f s a;
      if b : bool then Ok (true, s') else anyM f l' s'
  end.

(** ** utils/Constants.js *)

Inductive GemType := BLUE | GREEN | RED | YELLOW | PURPLE | WHITE.

#[global] Instance GemType_eq_dec : EqDecision GemType.
Proof. solve_decision. Defined.

(** [Object.keys(GEM_TYPES)], in declaration order. *)
Definition allTypes : list GemType := [BLUE; GREEN; RED; YELLOW; PURPLE; WHITE].

(** ** core/Gem.js and the object store *)

Record Gem := mkGem { gemType : GemType; gridX : nat; gridY : nat }.

Abbreviation GemRef := nat (only parsing).
Abbreviation Heap := (nat → Gem) (only parsing).

Definition upd (h : Heap) (r : GemRef) (g : Gem) : Heap :=
  λ r', if Nat.eqb r' r then g else h r'.

(** [gem.gridX = v] and [gem.gridY = v]. *)
Definition setGridX (h : Heap) (r : GemRef) (v : nat) : Heap :=
  upd h r (mkGem (gemType (h r)) v (gridY (h r))).
Definition setGridY (h : Heap) (r : GemRef) (v : nat) : Heap :=
  upd h r (mkGem (gemType (h r)) (gridX (h r)) v).

(** ** core/GemGrid.js: the state *)

Abbreviation Cell := (option nat) (only parsing).
Abbreviation Grid := (list (list (option nat))) (only parsing).

Record GemGrid := mkGrid {
  width : nat;
  height : nat;
  gems : Grid;
  heap : Heap;
  nextRef : GemRef;          (* identity of the next [new Gem] *)
  rng : nat → nat;           (* the source behind [Math.random()] *)
  draws : nat;               (* number of [Math.random()] calls so far *)
  selectedGem : option GemRef;
  canInput : bool
}.

Definition setGems (st : GemGrid) (g : Grid) : GemGrid :=
  mkGrid (width st) (height st) g (heap st) (nextRef st) (rng st) (draws st)
         (selectedGem st) (canInput st).
Definition setHeap (st : GemGrid) (h : Heap) : GemGrid :=
  mkGrid (width st) (height st) (gems st) h (nextRef st) (rng st) (draws st)
         (selectedGem st) (canInput st).
Definition setSelectedGem (st : GemGrid) (s : option GemRef) : GemGrid :=
  mkGrid (width st) (height st) (gems st) (heap st) (nextRef st) (rng st)
         (draws st) s (canInput st).
Definition setCanInput (st : GemGrid) (b : bool) : GemGrid :=
  mkGrid (width st) (height st) (gems st) (heap st) (nextRef st) (rng st)
         (draws st) (selectedGem st) b.

(** [this.gems[x][y]]: a [TypeError] when column [x] does not exist. *)
Definition cellAt (g : Grid) (x y : nat) : result Cell :=
  match g !! x with
  | None => TypeError
  | Some col => Ok (default None (col !! y))
  end.

(** [col[y] = v] on a JavaScript array: in range it overwrites, past the
    end it extends the array (the skipped slots read as [undefined]). *)
Definition arraySet (col : list Cell) (y : nat) (v : Cell) : list Cell :=
  if decide (y < length col) then <[y := v]> col
  else col ++ replicate (y - length col) None ++ [v].

(** [this.gems[x][y] = v]. *)
Definition cellSet (g : Grid) (x y : nat) (v : Cell) : result Grid :=
  match g !! x with
  | None => TypeError
  | Some col => Ok (<[x := arraySet col y v]> g)
  end.

(** [isValidGridPosition({x, y})]; the arguments may be negative. *)
Definition isValidGridPosition (st : GemGrid) (x y : Z) : bool :=
  (0 <=? x)%Z && (x <? Z.of_nat (width st))%Z &&
  (0 <=? y)%Z && (y <? Z.of_nat (height st))%Z.

Definition getGemAt (st : GemGrid) (x y : Z) : result Cell :=
  if isValidGridPosition st x y
  then cellAt (gems st) (Z.to_nat x) (Z.to_nat y)
  else Ok None.

(** up, right, down, left *)
Definition directions : list (Z * Z) :=
  [(0, -1); (1, 0); (0, 1); (-1, 0)]%Z.

(** Body of the loop of [getAdjacentGems] for the direction [dir]. *)
Definition pushNeighbour (st : GemGrid) (x y : nat) (adjacent : list Cell)
    (dir : Z * Z) : result (list Cell) :=
  let newX := (Z.of_nat x + dir.1)%Z in
  let newY := (Z.of_nat y + dir.2)%Z in
  if isValidGridPosition st newX newY
  then c ← cellAt (gems st) (Z.to_nat newX) (Z.to_nat newY);
       Ok (adjacent ++ [c])
  else Ok adjacent.

Definition getAdjacentGems (st : GemGrid) (x y : nat) : result (list Cell) :=
  forEachM (pushNeighbour st x y) directions [].

(** [areGemsAdjacent(gem1, gem2)] *)
Definition absDiff (a b : nat) : nat := (a - b) + (b - a).
Definition areGemsAdjacent (st : GemGrid) (gem1 gem2 : GemRef) : bool :=
  let xDiff := absDiff (gridX (heap st gem1)) (gridX (heap st gem2)) in
  let yDiff := absDiff (gridY (heap st gem1)) (gridY (heap st gem2)) in
  (Nat.eqb xDiff 1 && Nat.eqb yDiff 0) || (Nat.eqb xDiff 0 && Nat.eqb yDiff 1).

(** ** Creating gems *)

(** [cell?.gemType]: [None] is [undefined]. *)
Definition typeOf (st : GemGrid) (c : Cell) : option GemType :=
  (λ r, gemType (heap st r)) <$> c.

(** One of the two look-back tests of [getAvailableGemTypes]: when the
    two cells have the same [?.gemType] the first one's [.gemType] is
    added to [invalidTypes] (a [TypeError] when that cell is [null]). *)
Definition lookBack (st : GemGrid) (a b : Cell) (invalidTypes : list GemType)
  : result (list GemType) :=
  if decide (typeOf st a = typeOf st b) then
    match typeOf st a with
    | Some t => Ok (invalidTypes ++ [t])
    | None => TypeError
    end
  else Ok invalidTypes.

Definition getAvailableGemTypes (st : GemGrid) (x y : nat)
  : result (list GemType) :=
  if (x <? 2) && (y <? 2) then Ok allTypes else
  invalidTypes ←
    (if 2 <=? x then
       a ← cellAt (gems st) (x - 1) y;
       b ← cellAt (gems st) (x - 2) y;
       lookBack st a b []
     else Ok []);
  invalidTypes ←
    (if 2 <=? y then
       a ← cellAt (gems st) x (y - 1);
       b ← cellAt (gems st) x (y - 2);
       lookBack st a b invalidTypes
     else Ok invalidTypes);
  Ok (filter (λ t, t ∉ invalidTypes) allTypes).

(** [createGemAt(x, y)]: picks [availableTypes[floor(random * length)]]
    and allocates a gem carrying its grid coordinates.  The grid array is
    not written here.  [availableTypes] keeps at least four of the six
    keys, so the index is always defined; the [None] branch is there for
    totality only. *)
Definition createGemAt (st : GemGrid) (x y : nat) : result (GemRef * GemGrid) :=
  availableTypes ← getAvailableGemTypes st x y;
  match availableTypes !! (rng st (draws st) `mod` length availableTypes) with
  | Some t =>
      let r := nextRef st in
      Ok (r, mkGrid (width st) (height st) (gems st)
                    (upd (heap st) r (mkGem t x y)) (S r)
                    (rng st) (S (draws st)) (selectedGem st) (canInput st))
  | None => TypeError
  end.

(** ** Match detection *)

Inductive MatchType :=
  horizontal | vertical | L_shape | T_shape | cross | special.

#[global] Instance MatchType_eq_dec : EqDecision MatchType.
Proof. solve_decision. Defined.

Record Match := mkMatch { mgems : list Cell; mtype : MatchType }.

(** State of one scan line: the matches so far, [matchingGems] and
    [currentType] ([None] is [null]/[undefined], never equal to a type). *)
Abbreviation ScanState :=
  (list Match * list (option nat) * option GemType)%type (only parsing).

(** [if (matchingGems.length >= 3) matches.push({gems: [...], type})] *)
Definition flushRun (ty : MatchType) (matches : list Match)
    (matchingGems : list Cell) : list Match :=
  if 3 <=? length matchingGems
  then matches ++ [mkMatch matchingGems ty]
  else matches.

(** Body of the inner [for] of [findMatches] for the cell [gem]. *)
Definition scanStep (st : GemGrid) (ty : MatchType) (s : ScanState)
    (gem : Cell) : ScanState :=
  let '(matches, matchingGems, currentType) := s in
  match gem with
  | Some r =>
      if decide (currentType = Some (gemType (heap st r)))
      then (matches, matchingGems ++ [gem], currentType)
      else (flushRun ty matches matchingGems, [gem], typeOf st gem)
  | None => (flushRun ty matches matchingGems, [gem], typeOf st gem)
  end.

(** One iteration of the inner [for]: read [this.gems[x][y]], then the
    body. *)
Definition scanCell (st : GemGrid) (ty : MatchType) (s : ScanState)
    (xy : nat * nat) : result ScanState :=
  gem ← cellAt (gems st) xy.1 xy.2;
  Ok (scanStep st ty s gem).

(** One row or column: the cells at [coords] in order, then the check of
    the last sequence. *)
Definition scanLine (st : GemGrid) (ty : MatchType) (coords : list (nat * nat))
    (matches : list Match) : result (list Match) :=
  '(matches, matchingGems, _) ←
    forEachM (scanCell st ty) coords (matches, [], None);
  Ok (flushRun ty matches matchingGems).

(** The two double loops of [findMatches], before consolidation. *)
Definition rawMatches (st : GemGrid) : result (list Match) :=
  matches ←
    forEachM (λ m y, scanLine st horizontal
                       ((λ x, (x, y)) <$> seq 0 (width st)) m)
             (seq 0 (height st)) [];
  forEachM (λ m x, scanLine st vertical
                     ((λ y, (x, y)) <$> seq 0 (height st)) m)
           (seq 0 (width st)) matches.

(** The key [`${gem.gridX},${gem.gridY}`], kept as the pair. *)
Definition keyOf (st : GemGrid) (r : GemRef) : nat * nat :=
  (gridX (heap st r), gridY (heap st r)).

(** [gem.gridX] on a possibly-null array element. *)
Definition deref (c : Cell) : result GemRef :=
  match c with Some r => Ok r | None => TypeError end.

Record MatchInfo := mkInfo { infoGem : GemRef; matchTypes : list MatchType }.

Abbreviation MatchMap := (gmap (nat * nat) MatchInfo) (only parsing).

(** Body of the first pass of [consolidateMatches] for one gem of a
    match of type [ty]. *)
Definition registerGem (st : GemGrid) (ty : MatchType) (matchMap : MatchMap)
    (gem : Cell) : result MatchMap :=
  r ← deref gem;
  let key := keyOf st r in
  let matchMap1 : MatchMap :=
    match matchMap !! key with
    | Some _ => matchMap
    | None => <[key := mkInfo r []]> matchMap
    end in
  match matchMap1 !! key with
  | Some info =>
      Ok (<[key := mkInfo (infoGem info) (matchTypes info ++ [ty])]> matchMap1)
  | None => TypeError
  end.

(** First pass of [consolidateMatches]. *)
Definition buildMatchMap (st : GemGrid) (matches : list Match)
  : result MatchMap :=
  forEachM (λ matchMap m, forEachM (registerGem st (mtype m)) (mgems m) matchMap)
           matches (∅ : MatchMap).

(** The callback of [forEach] in [findConnectedGems]: [visit] is the
    recursive call. *)
Definition followNeighbour (st : GemGrid) (matchMap : MatchMap)
    (visit : GemRef → list GemRef → result (list GemRef))
    (connected : list GemRef) (adjGem : Cell) : result (list GemRef) :=
  match adjGem with
  | Some a =>
      if decide (is_Some (matchMap !! keyOf st a))
      then visit a connected
      else Ok connected
  | None => Ok connected
  end.

(** [findConnectedGems(gem, matchMap, connectedGems)].  [connectedGems] is
    a [Set] of objects, kept in insertion order. *)
Fixpoint findConnectedGems (fuel : nat) (st : GemGrid) (gem : GemRef)
    (matchMap : MatchMap) (connectedGems : list GemRef)
  : result (list GemRef) :=
  match fuel with
  | 0 => OutOfFuel
  | S fuel' =>
      if decide (gem ∈ connectedGems) then Ok connectedGems else
      adjacent ← getAdjacentGems st (gridX (heap st gem)) (gridY (heap st gem));
      forEachM (followNeighbour st matchMap
                  (λ a connected, findConnectedGems fuel' st a matchMap connected))
               adjacent (connectedGems ++ [gem])
  end.

Definition minList (l : list nat) : nat := foldr Nat.min (hd 0 l) l.
Definition maxList (l : list nat) : nat := foldr Nat.max 0 l.

(** [identifyPattern(gems)].  On an empty set [Math.min()] is [Infinity]
    and the width [-Infinity], which falls through to ['special']; the
    caller only passes non-empty sets. *)
Definition identifyPattern (st : GemGrid) (gs : list GemRef) : MatchType :=
  match gs with
  | [] => special
  | _ =>
      let xs := (λ g, gridX (heap st g)) <$> gs in
      let ys := (λ g, gridY (heap st g)) <$> gs in
      let w := maxList xs - minList xs + 1 in
      let h := maxList ys - minList ys + 1 in
      if (w =? 3) && (h =? 3) then L_shape
      else if ((w =? 3) && (h =? 2)) || ((w =? 2) && (h =? 3)) then T_shape
      else if (w =? 3) && (h =? 3) then cross
      else special
  end.

(** [match.gems.some(gem => processedGems.has(key(gem)))] *)
Fixpoint someProcessed (st : GemGrid) (processedGems : gset (nat * nat))
    (gs : list Cell) : result bool :=
  match gs with
  | [] => Ok false
  | gem :: gs' =>
      r ← deref gem;
      if decide (keyOf st r ∈ processedGems) then Ok true
      else someProcessed st processedGems gs'
  end.

(** The recursion of [findConnectedGems] adds a gem of the grid at each
    level, so this many levels are enough. *)
Definition searchFuel (st : GemGrid) : nat := S (length (mjoin (gems st))).

(** "Check for intersecting matches", for one gem of the match. *)
Definition collectIntersecting (st : GemGrid) (matchMap : MatchMap)
    (intersectingGems : list GemRef) (gem : Cell) : result (list GemRef) :=
  r ← deref gem;
  match matchMap !! keyOf st r with
  | Some matchInfo =>
      if 1 <? length (matchTypes matchInfo)
      then findConnectedGems (searchFuel st) st r matchMap intersectingGems
      else Ok intersectingGems
  | None => TypeError
  end.

(** Body of the second pass of [consolidateMatches] for the match [m]. *)
Definition consolidateStep (st : GemGrid) (matchMap : MatchMap)
    (acc : list Match * gset (nat * nat)) (m : Match)
  : result (list Match * gset (nat * nat)) :=
  let '(consolidatedMatches, processedGems) := acc in
  skip ← someProcessed st processedGems (mgems m);
  if skip : bool then Ok (consolidatedMatches, processedGems) else
  intersectingGems ← forEachM (collectIntersecting st matchMap) (mgems m) [];
  if 0 <? length intersectingGems then
    Ok (consolidatedMatches
          ++ [mkMatch (Some <$> intersectingGems)
                      (identifyPattern st intersectingGems)],
        processedGems ∪ list_to_set (keyOf st <$> intersectingGems))
  else
    rs ← forEachM (λ rs gem, r ← deref gem; Ok (rs ++ [r])) (mgems m) [];
    Ok (consolidatedMatches ++ [m],
        processedGems ∪ list_to_set (keyOf st <$> rs)).

Definition consolidateMatches (st : GemGrid) (matches : list Match)
  : result (list Match) :=
  matchMap ← buildMatchMap st matches;
  '(consolidatedMatches, _) ←
    forEachM (consolidateStep st matchMap) matches
             ([], (∅ : gset (nat * nat)));
  Ok consolidatedMatches.

Definition findMatches (st : GemGrid) : result (list Match) :=
  matches ← rawMatches st;
  consolidateMatches st matches.

(** ** Swapping *)

(** [deselectGem()] *)
Definition deselectGem (st : GemGrid) : GemGrid :=
  match selectedGem st with
  | Some _ => setSelectedGem st None
  | None => st
  end.

(** The four coordinate assignments shared by [swapGems],
    [wouldCreateMatch] and [shuffleGems]:
    [tempX = a.gridX; tempY = a.gridY; a.gridX = b.gridX;
     a.gridY = b.gridY; b.gridX = tempX; b.gridY = tempY]. *)
Definition swapCoords (h : Heap) (a b : GemRef) : Heap :=
  let tempX := gridX (h a) in
  let tempY := gridY (h a) in
  let h := setGridX h a (gridX (h b)) in
  let h := setGridY h a (gridY (h b)) in
  let h := setGridX h b tempX in
  setGridY h b tempY.

(** The two writes [this.gems[a.gridX][a.gridY] = a;
    this.gems[b.gridX][b.gridY] = b]. *)
Definition placeBoth (h : Heap) (g : Grid) (a b : GemRef) : result Grid :=
  g ← cellSet g (gridX (h a)) (gridY (h a)) (Some a);
  cellSet g (gridX (h b)) (gridY (h b)) (Some b).

(** What the grid asks of [this.scene], tweens and sprites apart: the
    audio manager, which may be absent and of which [swapGems] calls
    [playGemSwap], and the method [updateScore], which may be absent too.
    [playGemSwap] is [None] when the audio manager has no such method,
    otherwise the outcome of the call; [updateScore] is taken as a
    function of the matches it is given. *)
Record AudioManager := mkAudioManager { playGemSwap : option (result unit) }.
Record Scene := mkScene {
  audioManager : option AudioManager;
  updateScore : option (list Match → result unit)
}.

(** [if (this.scene.audioManager) { this.scene.audioManager.playGemSwap(); }] *)
Definition playSwapSound (scene : Scene) : result unit :=
  match audioManager scene with
  | Some manager =>
      match playGemSwap manager with
      | Some outcome => outcome
      | None => undefinedMethod
      end
  | None => Ok ()
  end.

(** [if (this.scene.updateScore) { this.scene.updateScore(matches); }] *)
Definition scoreMatches (scene : Scene) (matches : list Match) : result unit :=
  match updateScore scene with
  | Some method => method matches
  | None => Ok ()
  end.

(** The statements of [swapGems(gem1, gem2)] before its [await]: the
    coordinates are exchanged and both gems written to the grid array. *)
Definition exchangeGems (st : GemGrid) (gem1 gem2 : GemRef) : result GemGrid :=
  let h := swapCoords (heap st) gem1 gem2 in
  g ← placeBoth h (gems st) gem1 gem2;
  Ok (setGems (setHeap st h) g).

(** [swapGems(gem1, gem2)]: the exchange, the animation, then the swap
    sound. *)
Definition swapGems (scene : Scene) (st : GemGrid) (gem1 gem2 : GemRef)
  : result GemGrid :=
  st1 ← exchangeGems st gem1 gem2;
  _ ← playSwapSound scene;
  Ok st1.

(** [wouldCreateMatch(gem1, gem2)]: the arguments are array elements and
    may be [null].  Only the gems' coordinates are exchanged, the grid
    array is not written; the "swap back" reads [gem1.gridX] after it has
    been restored. *)
Definition wouldCreateMatch (st : GemGrid) (gem1 gem2 : Cell)
  : result (bool * GemGrid) :=
  r1 ← deref gem1;
  r2 ← deref gem2;
  let tempX := gridX (heap st r1) in
  let tempY := gridY (heap st r1) in
  let h := swapCoords (heap st) r1 r2 in
  matches ← findMatches (setHeap st h);
  let h := setGridX h r1 tempX in
  let h := setGridY h r1 tempY in
  let h := setGridX h r2 (gridX (h r1)) in
  let h := setGridY h r2 (gridY (h r1)) in
  Ok (0 <? length matches, setHeap st h).

(** ** Removal, gravity and refill *)

Definition removeMatches (st : GemGrid) (matches : list Match)
  : result GemGrid :=
  forEachM (λ st m,
      forEachM (λ st gem,
          r ← deref gem;
          g ← cellSet (gems st) (gridX (heap st r)) (gridY (heap st r)) None;
          Ok (setGems st g))
        (mgems m) st)
    matches st.

(** Body of the inner loop of [handleFalling] at row [y] of column [x]. *)
Definition fallStep (x : nat) (s : nat * GemGrid) (y : nat)
  : result (nat * GemGrid) :=
  let '(fallDistance, st) := s in
  c ← cellAt (gems st) x y;
  match c with
  | None => Ok (S fallDistance, st)
  | Some gem =>
      if 0 <? fallDistance then
        g ← cellSet (gems st) x y None;
        g ← cellSet g x (y + fallDistance) (Some gem);
        Ok (fallDistance,
            setGems (setHeap st (setGridY (heap st) gem
                                   (gridY (heap st gem) + fallDistance))) g)
      else Ok (fallDistance, st)
  end.

(** Column [x]: [fallDistance] starts at 0, rows from the bottom up. *)
Definition fallColumn (st : GemGrid) (x : nat) : result GemGrid :=
  '(_, st') ← forEachM (fallStep x) (reverse (seq 0 (height st))) (0, st);
  Ok st'.

(** The falling loops of [handleFalling], before the call to
    [refillBoard]. *)
Definition gravityPass (st : GemGrid) : result GemGrid :=
  forEachM fallColumn (seq 0 (width st)) st.

(** Body of the inner loop of [refillBoard]; the counter [emptySpaces]
    only feeds the entry animation and is not kept. *)
Definition refillCell (x : nat) (st : GemGrid) (y : nat) : result GemGrid :=
  c ← cellAt (gems st) x y;
  match c with
  | None =>
      '(gem, st1) ← createGemAt st x y;
      g ← cellSet (gems st1) x y (Some gem);
      Ok (setGems st1 g)
  | Some _ => Ok st
  end.

Definition refillBoard (st : GemGrid) : result GemGrid :=
  forEachM (λ st x, forEachM (refillCell x) (seq 0 (height st)) st)
           (seq 0 (width st)) st.

Definition handleFalling (st : GemGrid) : result GemGrid :=
  st1 ← gravityPass st;
  refillBoard st1.

(** ** Cascade resolution *)

(** A trace: the match sets removed, one entry per cascade step. *)
Abbreviation Trace := (list (list Match)) (only parsing).

(** [matches.forEach(m => m.gems.forEach(gem => gem.setMatched(true)))]:
    only the dereference is kept. *)
Definition markMatched (matches : list Match) : result unit :=
  forEachM (λ _ m, forEachM (λ _ gem, _ ← deref gem; Ok ()) (mgems m) ())
           matches ().

(** [processMatches(matches)] *)
Fixpoint processMatches (scene : Scene) (fuel : nat) (st : GemGrid)
    (matches : list Match) : result (Trace * GemGrid) :=
  match fuel with
  | 0 => OutOfFuel
  | S fuel' =>
      _ ← markMatched matches;
      _ ← scoreMatches scene matches;
      st1 ← removeMatches st matches;
      st2 ← handleFalling st1;
      newMatches ← findMatches st2;
      if 0 <? length newMatches then
        '(trace, st3) ← processMatches scene fuel' st2 newMatches;
        Ok (matches :: trace, st3)
      else Ok ([matches], st2)
  end.

(** [trySwapGems(gem1, gem2)], each [await] followed to its end. *)
Definition trySwapGems (scene : Scene) (fuel : nat) (st : GemGrid)
    (gem1 gem2 : GemRef) : result (Trace * GemGrid) :=
  let st := setCanInput st false in
  st1 ← swapGems scene st gem1 gem2;
  matches ← findMatches st1;
  '(trace, st2) ←
    (if 0 <? length matches then
       processMatches scene fuel (deselectGem st1) matches
     else
       st2 ← swapGems scene st1 gem2 gem1;
       Ok ([], deselectGem st2));
  Ok (trace, setCanInput st2 true).

(** ** Deadlock check and reshuffle *)

(** The probe of one neighbour:
    [wouldCreateMatch(this.gems[x][y], adjGem)]. *)
Definition probe (x y : nat) (st : GemGrid) (adjGem : Cell)
  : result (bool * GemGrid) :=
  c ← cellAt (gems st) x y;
  wouldCreateMatch st c adjGem.

(** The body for the position (x, y). *)
Definition probeCell (x : nat) (st : GemGrid) (y : nat)
  : result (bool * GemGrid) :=
  adjacent ← getAdjacentGems st x y;
  anyM (probe x y) adjacent st.

Definition hasValidMoves (st : GemGrid) : result (bool * GemGrid) :=
  anyM (λ st x, anyM (probeCell x) (seq 0 (height st)) st)
       (seq 0 (width st)) st.

(** One iteration of the loop of [shuffleGems] at index [i]. *)
Definition shuffleStep (allGems : list Cell) (st : GemGrid) (i : nat)
  : result GemGrid :=
  let j := rng st (draws st) `mod` (i + 1) in
  gi ← deref (default None (allGems !! i));
  gj ← deref (default None (allGems !! j));
  let h := swapCoords (heap st) gi gj in
  g ← placeBoth h (gems st) gi gj;
  Ok (mkGrid (width st) (height st) g h (nextRef st) (rng st) (S (draws st))
             (selectedGem st) (canInput st)).

(** [shuffleGems()]: [allGems = this.gems.flat()] is taken once; the loop
    runs [i] from [length - 1] down to [1]. *)
Definition shuffleGems (st : GemGrid) : result GemGrid :=
  let allGems := mjoin (gems st) in
  forEachM (shuffleStep allGems) (reverse (seq 1 (length allGems - 1))) st.

(** The [do ... while] of [reshuffleBoard]; [fuel] bounds the number of
    iterations the model follows, the source has no bound. *)
Fixpoint reshuffleLoop (fuel : nat) (st : GemGrid) : result GemGrid :=
  match fuel with
  | 0 => OutOfFuel
  | S fuel' =>
      st1 ← shuffleGems st;
      '(valid, st2) ← hasValidMoves st1;
      if negb valid then reshuffleLoop fuel' st2 else
      matches ← findMatches st2;
      if 0 <? length matches then reshuffleLoop fuel' st2 else Ok st2
  end.

Definition reshuffleBoard (fuel : nat) (st : GemGrid) : result GemGrid :=
  st1 ← reshuffleLoop fuel (setCanInput st false);
  Ok (setCanInput st1 true).

(** ** scenes/Game.js: scoring helpers *)

Module Game.

(** [calculateBasePoints(match)]: 100 points, doubled for each gem
    beyond the third. *)
Definition calculateBasePoints (m : Match) : Z :=
  let points := 100%Z in
  let extraGems := (Z.of_nat (length (mgems m)) - 3)%Z in
  if (0 <? extraGems)%Z then (points * 2 ^ extraGems)%Z else points.

(** [Math.log2], over the reals. *)
Definition log2 (x : R) : R := (ln x / ln 2)%R.

(** [calculateComboMultiplier()], reading [this.combo]. *)
Definition calculateComboMultiplier (combo : nat) : R :=
  if Nat.eqb combo 0 then 1%R
  else (1 + log2 (INR combo + 1) * (1 / 2))%R.

(** [checkForSpecialPatterns(match)].  Neither [Game] nor [Phaser.Scene]
    defines [convertMatchToGrid], [isLShape], [isTShape] or
    [isCrossShape]. *)
Definition checkForSpecialPatterns (m : Match) : result R :=
  matchGrid ← @undefinedMethod unit;
  let bonus := 1%R in
  isL ← @undefinedMethod bool;
  let bonus := if isL : bool then (bonus * (3 / 2))%R else bonus in
  isT ← @undefinedMethod bool;
  let bonus := if isT : bool then (bonus * (3 / 2))%R else bonus in
  isCross ← @undefinedMethod bool;
  let bonus := if isCross : bool then (bonus * 2)%R else bonus in
  Ok bonus.

(** [updateScore(matches)], reading [this.combo] and [this.score]; the
    result is the new score.  The floating texts and the score display
    are presentation.  The last statement calls [checkScoreMilestones],
    which neither [Game] nor [Phaser.Scene] defines. *)
Definition updateScore (combo : nat) (score : Z) (matches : list Match)
  : result Z :=
  pointsEarned ←
    forEachM (λ pointsEarned m,
                let basePoints := calculateBasePoints m in
                let comboMultiplier := calculateComboMultiplier combo in
                patternBonus ← checkForSpecialPatterns m;
                let matchPoints :=
                  Zfloor (IZR basePoints * comboMultiplier * patternBonus) in
                Ok (pointsEarned + matchPoints)%Z)
             matches 0%Z;
  let score := (score + pointsEarned)%Z in
  _ ← @undefinedMethod unit;
  Ok score.

End Game.

(** The scene the repository gives the grid: [Game] creates the grid with
    [new GemGrid(this, this.config.grid)].  Its [audioManager] is an
    [AudioManager], a class that has [playGemSelect], [playMatchSound],
    [playComboSound], [playGemLand], [playSound] and [destroy] but no
    [playGemSwap]; its [updateScore] is the method of [Game]. *)
Definition gameAudioManager : AudioManager := mkAudioManager None.
Definition gameScene (combo : nat) (score : Z) : Scene :=
  mkScene (Some gameAudioManager)
          (Some (λ matches, _ ← Game.updateScore combo score matches; Ok ())).

(** ** utils/Helpers.js: pattern detection *)

Module GameHelpers.





End GameHelpers.

(** ** systems/ScoringSystem.js with the [SCORING] constants

    The file names [SCORING] and [GameHelpers] without importing them;
    they are read as the exports of [utils/Constants.js] and
    [utils/Helpers.js]. *)

Module ScoringSystem.

(** [SCORING.MATCH_SCORES] *)
Definition MATCH_SCORES : gmap nat Z :=
  <[3 := 100%Z]> (<[4 := 300%Z]> (<[5 := 1000%Z]> (<[6 := 3000%Z]> ∅))).


(** [SCORING.COMBO_MULTIPLIER] *)
Definition COMBO_MULTIPLIER : R := (3 / 2)%R.

(** [SCORING.MATCH_SCORES[n] || SCORING.MATCH_SCORES[6]]; every entry
    is non-zero, so [||] falls back exactly on a missing key. *)
Definition matchScore (n : nat) : Z :=
  match MATCH_SCORES !! n with
  | Some s => s
  | None => default 0%Z (MATCH_SCORES !! 6)
  end.


(** [getComboMultiplier()], reading [this.comboCounter]. *)
Definition getComboMultiplier (comboCounter : nat) : R :=
  if Nat.eqb comboCounter 0 then 1%R
  else (1 + COMBO_MULTIPLIER * INR comboCounter)%R.

(** [this.score] and [this.comboCounter]; the constructor sets both to
    0. *)
Record State := mkState { score : R; comboCounter : nat }.


End ScoringSystem.

(** ** Boards used in examples *)

(** A full board given by its rows (top row first).  The gem at column
    [x], row [y] is the object [x * height + y], created with
    [gridX = x] and [gridY = y] as [createGemAt] does. *)
Definition boardOfRows (rows : list (list GemType)) (rand : nat → nat)
  : GemGrid :=
  let h := length rows in
  let w := length (default [] (rows !! 0)) in
  mkGrid w h
    ((λ x, (λ y, Some (x * h + y)) <$> seq 0 h) <$> seq 0 w)
    (λ r, mkGem (default BLUE (default [] (rows !! (r `mod` h)) !! (r / h)))
                (r / h) (r `mod` h))
    (w * h) rand 0 None true.

(** A plus of five red gems centred on a 3 x 3 board. *)
Definition plusBoard : GemGrid :=
  boardOfRows [[GREEN; RED;  BLUE];
               [RED;   RED;  RED];
               [BLUE;  RED;  GREEN]] (λ _, 0).

(** A board without a run of three on which one swap, of the red gem at
    (0, 1) with the blue gem at (1, 1), completes a red L (row 1 and
    column 1) and, next to it, a blue column of three. *)
Definition doubleBoard : GemGrid :=
  boardOfRows [[BLUE;  GREEN; YELLOW; GREEN];
               [RED;   BLUE;  RED;    RED];
               [BLUE;  RED;   GREEN;  YELLOW];
               [GREEN; RED;   YELLOW; GREEN]] (λ _, 0).

(** A 3 x 3 board without any run of three. *)
Definition quietBoard : GemGrid :=
  boardOfRows [[RED;   GREEN; BLUE];
               [GREEN; BLUE;  RED];
               [BLUE;  RED;   GREEN]] (λ _, 0).

(** One row of three gems of one type. *)
Definition monoBoard (rand : nat → nat) : GemGrid :=
  boardOfRows [[RED; RED; RED]] rand.

(** ** core/GemGrid.js: building the grid *)

(** [this.gems[x] = []] on the outer array: an existing column is
    replaced, the index one past the end appends a column.  [createGrid]
    writes the indices in order from 0, so it never skips a slot; a
    skipped slot, a hole of the JavaScript array, is rendered as an empty
    column. *)
Definition columnReset (g : Grid) (x : nat) : Grid :=
  if decide (x < length g) then <[x := []]> g
  else g ++ replicate (x - length g) [] ++ [[]].

(** [this.gems[x][y] = this.createGemAt(x, y)] *)
Definition createCell (x : nat) (st : GemGrid) (y : nat) : result GemGrid :=
  '(gem, st1) ← createGemAt st x y;
  g ← cellSet (gems st1) x y (Some gem);
  Ok (setGems st1 g).

(** The body of the outer loop of [createGrid] for the column [x]. *)
Definition createColumn (st : GemGrid) (x : nat) : result GemGrid :=
  forEachM (createCell x) (seq 0 (height st))
           (setGems st (columnReset (gems st) x)).

Definition createGrid (st : GemGrid) : result GemGrid :=
  forEachM createColumn (seq 0 (width st)) st.

(** [fillGrid()] *)
Definition fillGrid (st : GemGrid) : result GemGrid := createGrid st.

(** The constructor: an empty array, no selection, input accepted, then
    [createGrid()].  No gem object exists yet; the store answers with a
    placeholder for references that were never allocated. *)
Definition newGemGrid (w h : nat) (rand : nat → nat) : result GemGrid :=
  createGrid (mkGrid w h [] (λ _, mkGem BLUE 0 0) 0 rand 0 None true).

(** ** core/GemGrid.js: clicks *)

(** [selectGem(gem)] *)
Definition selectGem (st : GemGrid) (gem : GemRef) : GemGrid :=
  setSelectedGem st (Some gem).

(** [trySwapGems(gem1, gem2)] up to the point where it first suspends,
    the [await] inside [swapGems]: input is disabled, the coordinates are
    exchanged and both gems written to the grid array.  An [async]
    function does not throw to its caller: when a write to the grid array
    raises, the exception goes into the promise and the state stays as it
    was at the raise. *)
Definition startSwap (st : GemGrid) (gem1 gem2 : GemRef) : GemGrid :=
  let st := setCanInput st false in
  let h := swapCoords (heap st) gem1 gem2 in
  let st := setHeap st h in
  match cellSet (gems st) (gridX (h gem1)) (gridY (h gem1)) (Some gem1) with
  | Ok g1 =>
      match cellSet g1 (gridX (h gem2)) (gridY (h gem2)) (Some gem2) with
      | Ok g2 => setGems st g2
      | _ => setGems st g1
      end
  | _ => st
  end.

(** [handleGemClick(gem)], up to its return: [trySwapGems] is called
    without [await], so the click returns when the swap first suspends. *)
Definition handleGemClick (st : GemGrid) (gem : GemRef) : GemGrid :=
  if negb (canInput st) then st else
  match selectedGem st with
  | None => selectGem st gem
  | Some selected =>
      if Nat.eqb selected gem then deselectGem st
      else if areGemsAdjacent st selected gem
           then startSwap st selected gem
           else selectGem st gem
  end.

(** What is left of [trySwapGems(gem1, gem2)] when the animation of the
    first [swapGems] is over, on the board [st1] that the exchange left:
    the swap sound, then the statements of [trySwapGems] after its first
    [await]. *)
Definition resumeSwap (scene : Scene) (fuel : nat) (gem1 gem2 : GemRef)
    (st1 : GemGrid) : result (Trace * GemGrid) :=
  _ ← playSwapSound scene;
  matches ← findMatches st1;
  '(trace, st2) ←
    (if 0 <? length matches then
       processMatches scene fuel (deselectGem st1) matches
     else
       st2 ← swapGems scene st1 gem2 gem1;
       Ok ([], deselectGem st2));
  Ok (trace, setCanInput st2 true).

(** ** core/GameState.js *)

Module GameState.

(** The keys of [this.states]. *)
Inductive State := IDLE | MOVING | MATCHING | REFILLING.

#[global] Instance State_eq_dec : EqDecision State.
Proof. solve_decision. Defined.

Section Machine.

(** The scene the machine drives, the value carried as [matches] by a
    transition, and the numbers of [stateTime] with their addition. *)
Variables (Scene Matches Num : Type).
Variable add : Num → Num → Num.
Variable zero : Num.

(** What the machine asks of the scene: [scene.input.enabled = b], the
    two actions started on entering a state, the four queries of the
    update methods, [newMatches.length > 0], and the event emitted after a
    change of state. *)
Variable setInputEnabled : bool → Scene → Scene.
Variable startMatchAnimations : Matches → Scene → Scene.
Variable startRefill : Scene → Scene.
Variable hasAutomaticMatches : Scene → bool.
Variable findMatches : Scene → Matches.
Variable areMoveAnimationsComplete : Scene → bool.
Variable areMatchAnimationsComplete : Scene → bool.
Variable isRefillComplete : Scene → bool.
Variable nonEmpty : Matches → bool.
Variable emitStateChanged : State → State → option Matches → Scene → Scene.

(** [transitionData] is [null] or an object [{ matches }]. *)
Record T := mk {
  currentState : State;
  stateTime : Num;
  transitionData : option Matches;
  scene : Scene
}.

(** The constructor. *)
Definition init (sc : Scene) : T := mk IDLE zero None sc.

(** The [enter] method of a state.  [onEnterMatching] reads
    [this.transitionData.matches]: a [TypeError] when the data is
    [null]. *)
Definition enter (s : State) (gs : T) : result T :=
  match s with
  | IDLE =>
      Ok (mk (currentState gs) (stateTime gs) (transitionData gs)
             (setInputEnabled true (scene gs)))
  | MOVING =>
      Ok (mk (currentState gs) (stateTime gs) (transitionData gs)
             (setInputEnabled false (scene gs)))
  | MATCHING =>
      match transitionData gs with
      | Some matches =>
          Ok (mk (currentState gs) (stateTime gs) (transitionData gs)
                 (startMatchAnimations matches (scene gs)))
      | None => TypeError
      end
  | REFILLING =>
      Ok (mk (currentState gs) (stateTime gs) (transitionData gs)
             (startRefill (scene gs)))
  end.

(** [changeState(newState, transitionData = null)]; no state has an
    [exit] method. *)
Definition changeState (newState : State) (data : option Matches) (gs : T)
  : result T :=
  if decide (newState = currentState gs) then Ok gs else
  let oldState := currentState gs in
  gs1 ← enter newState (mk newState zero data (scene gs));
  Ok (mk (currentState gs1) (stateTime gs1) (transitionData gs1)
         (emitStateChanged oldState newState data (scene gs1))).

Definition updateIdle (gs : T) : result T :=
  if hasAutomaticMatches (scene gs)
  then changeState MATCHING (Some (findMatches (scene gs))) gs
  else Ok gs.

Definition updateMoving (gs : T) : result T :=
  if areMoveAnimationsComplete (scene gs)
  then changeState MATCHING (Some (findMatches (scene gs))) gs
  else Ok gs.

Definition updateMatching (gs : T) : result T :=
  if areMatchAnimationsComplete (scene gs)
  then changeState REFILLING None gs
  else Ok gs.

Definition updateRefilling (gs : T) : result T :=
  if isRefillComplete (scene gs) then
    let newMatches := findMatches (scene gs) in
    if nonEmpty newMatches
    then changeState MATCHING (Some newMatches) gs
    else changeState IDLE None gs
  else Ok gs.

(** [update(delta)] *)
Definition update (delta : Num) (gs : T) : result T :=
  let gs := mk (currentState gs) (add (stateTime gs) delta)
               (transitionData gs) (scene gs) in
  match currentState gs with
  | IDLE => updateIdle gs
  | MOVING => updateMoving gs
  | MATCHING => updateMatching gs
  | REFILLING => updateRefilling gs
  end.

Definition isInteractive (gs : T) : bool :=
  bool_decide (currentState gs = IDLE).
Definition isProcessing (gs : T) : bool :=
  negb (bool_decide (currentState gs = IDLE)).

(** The transitions [update] can make. *)
Definition step (s s' : State) : Prop :=
  (s = IDLE ∧ s' = MATCHING) ∨ (s = MOVING ∧ s' = MATCHING) ∨
  (s = MATCHING ∧ s' = REFILLING) ∨
  (s = REFILLING ∧ (s' = MATCHING ∨ s' = IDLE)).

End Machine.

End GameState.

(** ** scenes/Game.js: the move of a drag, and the falling data *)

Module GameScene.

(** [this.dragState.dragDirection] once it is set: ['row'] or
    ['column']. *)
Inductive DragDirection := row | column.

(** The fields of [this.config.grid] the helpers read. *)
Record GridConfig := mkGridConfig {
  gridWidth : nat;
  gridHeight : nat;
  gridCellSize : R
}.

(** [isValidMove(dragAmount)] *)
Definition isValidMove (config : GridConfig) (dragAmount : R) : bool :=
  if Rle_dec (gridCellSize config / 2) (Rabs dragAmount) then true else false.

(** [Math.round]: the nearest integer, a half rounded up. *)
Definition round (x : R) : Z := Zfloor (x + 1 / 2).

Record MoveAction := mkMove {
  moveType : DragDirection;
  moveIndex : Z;
  moveAmount : Z
}.

(** [createMoveAction(dragAmount)] *)
Definition createMoveAction (config : GridConfig)
    (dragDirection : DragDirection) (startGridPosition : Z * Z)
    (dragAmount : R) : MoveAction :=
  let cells := round (dragAmount / gridCellSize config) in
  mkMove dragDirection
         (match dragDirection with
          | row => startGridPosition.2
          | column => startGridPosition.1
          end)
         cells.

(** An element of [fallingData]. *)
Record FallingEntry := mkFall {
  fallGem : GemRef;
  fromY : nat;
  toY : Z;
  fallColumn : nat
}.

(** Body of the inner loop of [calculateFallingDistances]; [!currentGem]
    holds for [null] and [undefined]. *)
Definition fallingCell (st : GemGrid) (x : nat)
    (acc : nat * list FallingEntry) (y : nat)
  : result (nat * list FallingEntry) :=
  let '(emptySpaces, fallingData) := acc in
  currentGem ← getGemAt st (Z.of_nat x) (Z.of_nat y);
  match currentGem with
  | None => Ok (S emptySpaces, fallingData)
  | Some gem =>
      if 0 <? emptySpaces
      then Ok (emptySpaces,
               fallingData
                 ++ [mkFall gem y (Z.of_nat y - Z.of_nat emptySpaces) x])
      else Ok (emptySpaces, fallingData)
  end.

(** [calculateFallingDistances()] for a grid configured as [width] by
    [height], over the gem grid [st]. *)
Definition calculateFallingDistances (width height : nat) (st : GemGrid)
  : result (list FallingEntry) :=
  forEachM (λ fallingData x,
              '(_, fallingData) ←
                forEachM (fallingCell st x) (seq 0 height) (0, fallingData);
              Ok fallingData)
           (seq 0 width) [].

End GameScene.

(** ** Notions used in the statements *)

(** The coordinates lie in [0, width) x [0, height). *)
Definition inBounds (st : GemGrid) (x y : Z) : Prop :=
  (0 ≤ x < Z.of_nat (width st))%Z ∧ (0 ≤ y < Z.of_nat (height st))%Z.

(** A cell inside the allocated part of the array. *)
Definition inGrid (g : Grid) (x y : nat) : Prop :=
  ∃ col, g !! x = Some col ∧ y < length col.

(** The gem [r] sits in the cell its coordinates name. *)
Definition onBoard (st : GemGrid) (r : GemRef) : Prop :=
  cellAt (gems st) (gridX (heap st r)) (gridY (heap st r)) = Ok (Some r).

Definition cellBag (c : Cell) : gmultiset nat :=
  match c with Some r => {[+ r +]} | None => ∅ end.

Definition colBag (col : list Cell) : gmultiset nat :=
  foldr (λ c acc, cellBag c ⊎ acc) ∅ col.

(** The multiset of gem identities held by the grid array. *)
Definition tokenBag (g : Grid) : gmultiset nat :=
  foldr (λ col acc, colBag col ⊎ acc) ∅ g.

(** The board has [width] columns of [height] cells. *)
Definition wfBoard (st : GemGrid) : Prop :=
  (length <$> gems st) = replicate (width st) (height st).

(** What the falling loops leave alone and what they conserve. *)
Definition sameTokens (st st' : GemGrid) : Prop :=
  wfBoard st' ∧ width st' = width st ∧ height st' = height st ∧
  tokenBag (gems st') = tokenBag (gems st) ∧
  nextRef st' = nextRef st ∧ draws st' = draws st ∧
  ∀ r, gemType (heap st' r) = gemType (heap st r).

(** The cell (x, y) holds a gem. *)
Definition filled (st : GemGrid) (x y : nat) : Prop :=
  ∃ r, cellAt (gems st) x y = Ok (Some r).

(** No cell of the board is empty. *)
Definition fullBoard (st : GemGrid) : Prop :=
  ∀ x y, x < width st → y < height st → filled st x y.

(** Same dimensions, and every filled cell still filled. *)
Definition keepsFilled (st st' : GemGrid) : Prop :=
  width st' = width st ∧ height st' = height st ∧
  ∀ x y, filled st x y → filled st' x y.

(** The gems referenced from the grid array. *)
Definition gridRefs (st : GemGrid) : list GemRef :=
  omap (λ c : Cell, c) (mjoin (gems st)).

(** A run as [findMatches] pushes it: at least three cells, each one a
    gem of the grid, all of one type. *)
Definition uniformMatch (st : GemGrid) (m : Match) : Prop :=
  3 ≤ length (mgems m) ∧
  ∃ t, ∀ c, c ∈ mgems m →
         ∃ r, c = Some r ∧ gemType (heap st r) = t ∧ r ∈ gridRefs st.

(** Every cell of the match holds a gem of the grid. *)
Definition gridMatch (st : GemGrid) (m : Match) : Prop :=
  ∀ c, c ∈ mgems m → ∃ r, c = Some r ∧ r ∈ gridRefs st.

(** Every gem of the grid carries the coordinates of its cell and has
    been allocated. *)
Definition consistent (st : GemGrid) : Prop :=
  ∀ x y r, cellAt (gems st) x y = Ok (Some r) →
           keyOf st r = (x, y) ∧ r < nextRef st.

(** The state the grid is in between two player actions. *)
Definition boardOk (st : GemGrid) : Prop := wfBoard st ∧ consistent st.

Definition scanInv (st : GemGrid) (n : nat) (s : ScanState) : Prop :=
  Forall (uniformMatch st) s.1.1 ∧ n ≤ length s.1.1 ∧
  (∀ c, c ∈ s.1.2 → typeOf st c = s.2 ∧ ∀ r, c = Some r → r ∈ gridRefs st) ∧
  (s.2 = None → length s.1.2 ≤ 1).

Definition rawInv (st : GemGrid) (n : nat) (ms : list Match) : Prop :=
  Forall (uniformMatch st) ms ∧ n ≤ length ms.

Definition visited (st : GemGrid) (n : nat) (c : list GemRef) : Prop :=
  NoDup c ∧ (∀ r, r ∈ c → r ∈ gridRefs st) ∧ n ≤ length c.

(** The keys the first pass has registered. *)
Definition registered (st : GemGrid) (matchMap : gmap (nat * nat) MatchInfo)
    (gs : list Cell)
  : Prop :=
  ∀ r, Some r ∈ gs → is_Some (matchMap !! keyOf st r).

Definition mapGrows (m1 m2 : gmap (nat * nat) MatchInfo) : Prop :=
  ∀ k, is_Some (m1 !! k) → is_Some (m2 !! k).

(** Every cell of the board holds a gem of type [t] that carries the
    coordinates of its cell. *)
Definition monochrome (st : GemGrid) (t : GemType) : Prop :=
  wfBoard st ∧
  ∀ x y, x < width st → y < height st →
         ∃ r, cellAt (gems st) x y = Ok (Some r) ∧ heap st r = mkGem t x y.

(** A gem of type [t] whose coordinates are inside a [w] x [h] board. *)
Definition gemOk (w h : nat) (t : GemType) (g : Gem) : Prop :=
  gemType g = t ∧ gridX g < w ∧ gridY g < h.

(** What the reshuffle loop keeps true on such a board: [G] are the gems
    the board started with. *)
Definition monoInv (w h : nat) (t : GemType) (G : nat → Prop) (st : GemGrid)
  : Prop :=
  width st = w ∧ height st = h ∧ wfBoard st ∧
  (∀ x y, x < w → y < h → ∃ r, cellAt (gems st) x y = Ok (Some r) ∧ G r) ∧
  (∀ r, G r → gemOk w h t (heap st r)).

(** The gems a board starts with. *)
Definition onGrid (st : GemGrid) (r : GemRef) : Prop :=
  ∃ x y, x < width st ∧ y < height st ∧ cellAt (gems st) x y = Ok (Some r).

(** ** Further example boards *)

(** A bottom row of three red gems under a row that, once fallen, lines
    up three green gems. *)
Definition cascadeBoard : GemGrid :=
  boardOfRows [[BLUE;   YELLOW; BLUE;  YELLOW];
               [YELLOW; GREEN;  GREEN; BLUE];
               [RED;    RED;    RED;   GREEN]] (λ _, 0).

(** What [findMatches] reports on [cascadeBoard]: the red row. *)
Definition cascadeMatches : list Match :=
  [mkMatch [Some 2; Some 5; Some 8] horizontal].

(** [plusBoard] once its plus of red gems has been removed. *)
Definition plusRemoved : GemGrid :=
  mkGrid 3 3 [[Some 0; None; Some 2]; [None; None; None]; [Some 6; None; Some 8]]
         (heap plusBoard) 9 (λ _, 0) 0 None true.

(** ** Notions for the remaining properties *)

(** The type of the gem in cell (x, y); [None] for an empty cell and for
    a cell outside the array. *)
Definition typeAt (st : GemGrid) (x y : nat) : option GemType :=
  match cellAt (gems st) x y with
  | Ok c => typeOf st c
  | _ => None
  end.

(** Three gems of one type side by side in row [y], starting at column
    [x]; and one below the other in column [x], starting at row [y]. *)
Definition tripleH (st : GemGrid) (x y : nat) : Prop :=
  ∃ t, typeAt st x y = Some t ∧ typeAt st (x + 1) y = Some t ∧
       typeAt st (x + 2) y = Some t.
Definition tripleV (st : GemGrid) (x y : nat) : Prop :=
  ∃ t, typeAt st x y = Some t ∧ typeAt st x (y + 1) = Some t ∧
       typeAt st x (y + 2) = Some t.

(** Three equal types in a row of a list of types. *)
Definition hasTriple (ts : list (option GemType)) : Prop :=
  ∃ i t, ts !! i = Some (Some t) ∧ ts !! (i + 1) = Some (Some t) ∧
         ts !! (i + 2) = Some (Some t).

(** The sequence a scan is collecting: at most two cells, all of the
    current type. *)
Definition shortRun (st : GemGrid) (run : list (option nat))
    (cur : option GemType) : Prop :=
  length run ≤ 2 ∧ (∀ c, c ∈ run → typeOf st c = cur).

(** The cells that come before (x, y) in the order in which [createGrid]
    and [refillBoard] visit the board: the columns left of [x], and the
    rows of column [x] above [y]. *)
Definition before (h x y x' y' : nat) : Prop :=
  (x' < x ∧ y' < h) ∨ (x' = x ∧ y' < y).

(** The cell holds an allocated gem that carries the cell's
    coordinates. *)
Definition goodCell (st : GemGrid) (x y : nat) : Prop :=
  ∃ r, cellAt (gems st) x y = Ok (Some r) ∧ keyOf st r = (x, y) ∧
       r < nextRef st.

(** What holds of the cells before (x, y) while the grid is built. *)
Definition builtCells (h x y : nat) (st : GemGrid) : Prop :=
  (∀ x' y', before h x y x' y' → goodCell st x' y') ∧
  (∀ x' y', before h x y (x' + 2) y' → ¬ tripleH st x' y') ∧
  (∀ x' y', before h x y x' (y' + 2) → ¬ tripleV st x' y').

(** The columns left of [x] are complete. *)
Definition builtColumns (h x : nat) (st : GemGrid) : Prop :=
  ∀ x', x' < x → ∃ col, gems st !! x' = Some col ∧ length col = h.

(** [createGrid] before column [x], and inside column [x] before row
    [y]. *)
Definition gridBuilt (w h x : nat) (st : GemGrid) : Prop :=
  width st = w ∧ height st = h ∧ x ≤ length (gems st) ≤ w ∧
  builtColumns h x st ∧ builtCells h x 0 st.
Definition columnBuilt (w h x y : nat) (st : GemGrid) : Prop :=
  width st = w ∧ height st = h ∧ x < length (gems st) ≤ w ∧ y ≤ h ∧
  builtColumns h x st ∧
  (∃ col, gems st !! x = Some col ∧ length col = y) ∧
  builtCells h x y st.

(** A column after its gems have fallen: the empty cells first (the top
    of the board), then the gems in the order they had. *)
Definition settle (col : list (option nat)) : list (option nat) :=
  replicate (length col - length (omap (λ c : option nat, c) col)) None
  ++ (Some <$> omap (λ c : option nat, c) col).

(** [quietBoard] with the gem of its first cell selected. *)
Definition quietSelected : GemGrid := selectGem quietBoard 0.

(** [quietBoard] after the deadlock check has run on it. *)
Definition quietProbed : GemGrid :=
  match hasValidMoves quietBoard with
  | Ok (_, st) => st
  | _ => quietBoard
  end.

(** [gs] is what the cells (x, y), (x + 1, y), ... hold, and what the
    cells (x, y), (x, y + 1), ... hold. *)
Definition rowSegment (st : GemGrid) (x y : nat) (gs : list (option nat))
  : Prop :=
  Forall2 (λ xy c, cellAt (gems st) xy.1 xy.2 = Ok c)
          ((λ i, (i, y)) <$> seq x (length gs)) gs.
Definition columnSegment (st : GemGrid) (x y : nat) (gs : list (option nat))
  : Prop :=
  Forall2 (λ xy c, cellAt (gems st) xy.1 xy.2 = Ok c)
          ((λ i, (x, i)) <$> seq y (length gs)) gs.

(** A run as the scans push it: consecutive cells of one row or of one
    column. *)
Definition segment (st : GemGrid) (m : Match) : Prop :=
  ∃ x y, rowSegment st x y (mgems m) ∨ columnSegment st x y (mgems m).

(** Every gem of [R] outside [C] has its registered neighbours in [R]. *)
Definition closedFrom (st : GemGrid) (matchMap : gmap (nat * nat) MatchInfo)
    (C R : list nat) : Prop :=
  ∀ r, r ∈ R → r ∉ C →
    ∀ adjacent a,
      getAdjacentGems st (gridX (heap st r)) (gridY (heap st r)) = Ok adjacent →
      Some a ∈ adjacent → is_Some (matchMap !! keyOf st a) → a ∈ R.

(** The gems of a list of cells, and the cells of a list of matches in
    the order of the list. *)
Definition cellRefs (cells : list (option nat)) : list nat :=
  omap (λ c : option nat, c) cells.
Definition rawCells (ms : list Match) : list (option nat) :=
  mjoin (mgems <$> ms).

(** How many match types the first pass of [consolidateMatches] has
    pushed under a key, and how many cells of a list hold a gem with that
    key. *)
Definition typeCount (matchMap : gmap (nat * nat) MatchInfo) (k : nat * nat)
  : nat :=
  match matchMap !! k with
  | Some info => length (matchTypes info)
  | None => 0
  end.
Definition occ (st : GemGrid) (k : nat * nat) (cells : list (option nat))
  : nat :=
  length (filter (λ r, keyOf st r = k) (cellRefs cells)).

(** The types [findMatches] can give a match. *)
Definition reportedType (m : Match) : Prop :=
  mtype m = horizontal ∨ mtype m = vertical ∨
  mtype m = L_shape ∨ mtype m = special.

(** A run of the first scan and a run of the second. *)
Definition rowRun (st : GemGrid) (m : Match) : Prop :=
  mtype m = horizontal ∧ ∃ x y, rowSegment st x y (mgems m).
Definition columnRun (st : GemGrid) (m : Match) : Prop :=
  mtype m = vertical ∧ ∃ x y, columnSegment st x y (mgems m).

#[global] Instance result_eq_dec {A} `{EqDecision A} : EqDecision (result A).
Proof. solve_decision. Defined.

(** The number of empty cells of column [x] in the rows before [y], as
    [getGemAt] reads them. *)
Definition emptyBelow (st : GemGrid) (x y : nat) : nat :=
  length (filter (λ y', getGemAt st (Z.of_nat x) (Z.of_nat y') = Ok None)
                 (seq 0 y)).

(** The gem in cell (x, y) has an empty cell before it in its column,
    and the entry [calculateFallingDistances] pushes for it. *)
Definition falls (st : GemGrid) (x y : nat) (gem : GemRef) : Prop :=
  getGemAt st (Z.of_nat x) (Z.of_nat y) = Ok (Some gem) ∧
  0 < emptyBelow st x y.
Definition entryOf (st : GemGrid) (x y : nat) (gem : GemRef)
  : GameScene.FallingEntry :=
  GameScene.mkFall gem y (Z.of_nat y - Z.of_nat (emptyBelow st x y)) x.

(** * Properties *)

(** ** Loops and results *)

Lemma bind_Ok {A B} (m : result A) (f : A → result B) b :
  (m ≫= f) = Ok b → ∃ a, m = Ok a ∧ f a = Ok b.
Proof. destruct m; simpl; [eauto|done|done]. Qed.

Lemma length_zero_nil {A} (l : list A) : (0 <? length l) = false → l = [].
Proof. destruct l; [done|]. simpl. done. Qed.

Lemma forEachM_inv {A S} (f : S → A → result S)
    (R : S → S → Prop) (P : A → S → Prop) :
  (∀ s, R s s) →
  (∀ s1 s2 s3, R s1 s2 → R s2 s3 → R s1 s3) →
  (∀ a s s', P a s → R s s' → P a s') →
  (∀ s a s', f s a = Ok s' → R s s' ∧ P a s') →
  ∀ l s s', forEachM f l s = Ok s' → R s s' ∧ ∀ a, a ∈ l → P a s'.
Proof.
  intros Hrefl Htrans Hstable Hstep.
  induction l as [|a l IH]; intros s s' H; simpl in H.
  - injection H as <-. split; [done|]. intros a Ha. by apply elem_of_nil in Ha.
  - apply bind_Ok in H as (s1 & H1 & H2).
    destruct (Hstep _ _ _ H1) as [HR HP].
    destruct (IH _ _ H2) as [HR' HP'].
    split; [by eapply Htrans|].
    intros b Hb. apply elem_of_cons in Hb as [->|Hb]; [|by apply HP'].
    by eapply Hstable.
Qed.

Lemma forEachM_total {A S} (f : S → A → result S) (I : S → Prop) l :
  (∀ s a, a ∈ l → I s → ∃ s', f s a = Ok s' ∧ I s') →
  ∀ s, I s → ∃ s', forEachM f l s = Ok s' ∧ I s'.
Proof.
  induction l as [|a l IH]; intros Hstep s Hs; [by exists s|].
  simpl. destruct (Hstep s a) as (s1 & E & Hs1); [by left|done|].
  rewrite E. simpl. apply IH; [|done].
  intros s2 b Hb. apply Hstep. by right.
Qed.

(** A loop whose body leaves the state alone on every element. *)
Lemma forEachM_id {A S} (f : S → A → result S) l s :
  (∀ a, a ∈ l → f s a = Ok s) → forEachM f l s = Ok s.
Proof.
  induction l as [|a l IH]; intros H; [done|].
  simpl. rewrite H by (by left). simpl. apply IH.
  intros b Hb. apply H. by right.
Qed.

Lemma forEachM_ext {A S} (f g : S → A → result S) l s :
  (∀ s a, f s a = g s a) → forEachM f l s = forEachM g l s.
Proof.
  intros Hfg. revert s. induction l as [|a l IH]; intros s; [done|].
  simpl. rewrite Hfg. destruct (g s a); simpl; [apply IH|done|done].
Qed.

Lemma anyM_total {A S} (f : S → A → result (bool * S)) (I : S → Prop) l :
  (∀ s a, a ∈ l → I s → ∃ b s', f s a = Ok (b, s') ∧ I s') →
  ∀ s, I s → ∃ b s', anyM f l s = Ok (b, s') ∧ I s'.
Proof.
  induction l as [|a l IH]; intros Hstep s Hs; [by exists false, s|].
  simpl. destruct (Hstep s a) as (b & s1 & E & Hs1); [by left|done|].
  rewrite E. simpl. destruct b; [by exists true, s1|].
  apply IH; [|done]. intros s2 a' Ha'. apply Hstep. by right.
Qed.

Lemma anyM_inv {A S} (f : S → A → result (bool * S)) (R : S → S → Prop) :
  (∀ s, R s s) →
  (∀ s1 s2 s3, R s1 s2 → R s2 s3 → R s1 s3) →
  (∀ s a b s', f s a = Ok (b, s') → R s s') →
  ∀ l s b s', anyM f l s = Ok (b, s') → R s s'.
Proof.
  intros Hrefl Htrans Hstep. induction l as [|a l IH]; intros s b s' H.
  { by injection H as _ <-. }
  simpl in H. apply bind_Ok in H as ([b1 s1] & H1 & H).
  apply Hstep in H1. destruct b1.
  - by injection H as _ <-.
  - eapply Htrans; [done|]. by eapply IH.
Qed.

Lemma anyM_true {A S} (f : S → A → result (bool * S)) (Q : S → Prop) :
  (∀ s a s', f s a = Ok (true, s') → Q s') →
  ∀ l s s', anyM f l s = Ok (true, s') → Q s'.
Proof.
  intros Hstep. induction l as [|a l IH]; intros s s' H; [done|].
  simpl in H. apply bind_Ok in H as ([b s1] & H1 & H). destruct b.
  - injection H as <-. by eapply Hstep.
  - by eapply IH.
Qed.

(** ** Cell access *)

Lemma isValidGridPosition_spec st x y :
  isValidGridPosition st x y = true ↔
  (0 ≤ x < Z.of_nat (width st))%Z ∧ (0 ≤ y < Z.of_nat (height st))%Z.
Proof.
  unfold isValidGridPosition.
  rewrite !andb_true_iff, !Z.leb_le, !Z.ltb_lt. lia.
Qed.

(** C9, as the code has it: for coordinates outside
    [0, width) x [0, height), [getGemAt] returns [null], the value it also
    returns for an empty cell; no error is raised. *)
Theorem getGemAt_out_of_bounds_null st x y :
  ¬ inBounds st x y → getGemAt st x y = Ok None.
Proof.
  intros Hout. unfold getGemAt.
  destruct (isValidGridPosition st x y) eqn:E; [|done].
  apply isValidGridPosition_spec in E. done.
Qed.

Lemma getGemAt_out_of_bounds_null_witness :
  ¬ inBounds quietBoard (-1) 0 ∧ getGemAt quietBoard (-1) 0 = Ok None.
Proof.
  assert (H : ¬ inBounds quietBoard (-1) 0) by (unfold inBounds; lia).
  split; [exact H | exact (getGemAt_out_of_bounds_null quietBoard (-1) 0 H)].
Defined.

(** C9 as stated fails: (7, 0) is outside the 3 x 3 [quietBoard], and
    [getGemAt] returns [null] there instead of failing. *)
Lemma getGemAt_outside_returns_null :
  ¬ inBounds quietBoard 7 0 ∧ getGemAt quietBoard 7 0 = Ok None.
Proof. split; [unfold inBounds; simpl; lia|reflexivity]. Qed.

(** ** The grid array *)

Lemma arraySet_lookup col y v y' :
  default None (arraySet col y v !! y')
  = if decide (y' = y) then v else default None (col !! y').
Proof.
  unfold arraySet. destruct (decide (y < length col)) as [Hlt|Hge].
  - rewrite list_lookup_insert.
    repeat case_decide; subst; try done; exfalso; intuition lia.
  - destruct (decide (y' = y)) as [->|Hne].
    + rewrite lookup_app_r by lia.
      rewrite lookup_app_r by (rewrite length_replicate; lia).
      rewrite length_replicate.
      by replace (y - length col - (y - length col)) with 0 by lia.
    + destruct (decide (y' < length col)).
      * by rewrite lookup_app_l by lia.
      * rewrite lookup_app_r by lia.
        rewrite (lookup_ge_None_2 col) by lia. simpl.
        destruct (decide (y' < y)).
        -- rewrite lookup_app_l by (rewrite length_replicate; lia).
           by rewrite lookup_replicate_2 by lia.
        -- rewrite lookup_ge_None_2; [done|].
           rewrite length_app, length_replicate. simpl. lia.
Qed.

Lemma cellSet_cellAt g x y v g' x' y' :
  cellSet g x y v = Ok g' →
  cellAt g' x' y'
  = if decide (x' = x ∧ y' = y) then Ok v else cellAt g x' y'.
Proof.
  unfold cellSet, cellAt. intros H.
  destruct (g !! x) as [col|] eqn:Hcol; [|done].
  injection H as <-.
  destruct (decide (x' = x)) as [->|Hne].
  - rewrite list_lookup_insert_eq by (by eapply lookup_lt_Some).
    rewrite arraySet_lookup, Hcol.
    repeat case_decide; try done; exfalso; intuition congruence.
  - rewrite list_lookup_insert_ne by done.
    case_decide; [exfalso; intuition congruence|done].
Qed.

Lemma cellSet_cellAt_defined g x y v g' :
  cellSet g x y v = Ok g' → ∃ c, cellAt g x y = Ok c.
Proof.
  unfold cellSet, cellAt. destruct (g !! x); [eauto|done].
Qed.

Lemma cellAt_Some_inGrid g x y r : cellAt g x y = Ok (Some r) → inGrid g x y.
Proof.
  unfold cellAt, inGrid. destruct (g !! x) as [col|]; [|done].
  intros [= H]. exists col. split; [done|].
  destruct (col !! y) eqn:E; [by eapply lookup_lt_Some|done].
Qed.

Lemma cellSet_inGrid g x y v :
  inGrid g x y →
  ∃ g', cellSet g x y v = Ok g' ∧ (length <$> g') = (length <$> g).
Proof.
  intros (col & Hcol & Hy). unfold cellSet. rewrite Hcol.
  eexists; split; [done|].
  rewrite list_fmap_insert. apply list_insert_id.
  rewrite list_lookup_fmap, Hcol. simpl. f_equal.
  unfold arraySet. rewrite decide_True by done. by rewrite length_insert.
Qed.

Lemma inGrid_shape g g' x y :
  (length <$> g') = (length <$> g) → inGrid g x y → inGrid g' x y.
Proof.
  intros Hs (col & Hcol & Hy).
  assert (Hx : (length <$> g') !! x = Some (length col))
    by (by rewrite Hs, list_lookup_fmap, Hcol).
  rewrite list_lookup_fmap in Hx.
  destruct (g' !! x) as [col'|] eqn:E; [|done].
  injection Hx as Hx. exists col'. split; [done|lia].
Qed.

Lemma inGrid_cellAt g x y :
  inGrid g x y →
  ∃ col c, g !! x = Some col ∧ col !! y = Some c ∧ cellAt g x y = Ok c.
Proof.
  intros (col & Hcol & Hy).
  destruct (lookup_lt_is_Some_2 col y Hy) as [c Hc].
  exists col, c. unfold cellAt. by rewrite Hcol, Hc.
Qed.

(** Two grids of the same shape with the same cells are equal. *)
Lemma grid_ext (g1 g2 : Grid) :
  (length <$> g1) = (length <$> g2) →
  (∀ x y, cellAt g1 x y = cellAt g2 x y) →
  g1 = g2.
Proof.
  intros Hs Hc. apply list_eq. intros x.
  assert (Hx : (length <$> g1) !! x = (length <$> g2) !! x) by by rewrite Hs.
  rewrite !list_lookup_fmap in Hx. specialize (Hc x).
  unfold cellAt in Hc.
  destruct (g1 !! x) as [c1|], (g2 !! x) as [c2|]; try done.
  f_equal. injection Hx as Hx. apply list_eq. intros y.
  specialize (Hc y). injection Hc as Hc.
  destruct (c1 !! y) as [a|] eqn:E1, (c2 !! y) as [b|] eqn:E2; simpl in *.
  - by subst.
  - apply lookup_lt_Some in E1. apply lookup_ge_None_1 in E2. lia.
  - apply lookup_lt_Some in E2. apply lookup_ge_None_1 in E1. lia.
  - done.
Qed.

Lemma wfBoard_inGrid st x y :
  wfBoard st → x < width st → y < height st → inGrid (gems st) x y.
Proof.
  unfold wfBoard, inGrid. intros Hwf Hx Hy.
  assert (H : (length <$> gems st) !! x = Some (height st))
    by (rewrite Hwf; by apply lookup_replicate_2).
  rewrite list_lookup_fmap in H.
  destruct (gems st !! x) as [col|]; [|done].
  injection H as H. exists col. split; [done|lia].
Qed.

Lemma cellAt_total st x y :
  wfBoard st → x < width st → ∃ c, cellAt (gems st) x y = Ok c.
Proof.
  intros Hwf Hx. unfold cellAt.
  assert (H : (length <$> gems st) !! x = Some (height st))
    by (rewrite Hwf; by apply lookup_replicate_2).
  rewrite list_lookup_fmap in H.
  destruct (gems st !! x); [eauto|done].
Qed.

Lemma mjoin_cell (g : Grid) c :
  c ∈ mjoin g → ∃ x col y, g !! x = Some col ∧ col !! y = Some c.
Proof.
  intros Hc. apply list_elem_of_join in Hc as (col & Hc & Hcol).
  apply list_elem_of_lookup_1 in Hc as [y Hy].
  apply list_elem_of_lookup_1 in Hcol as [x Hx]. by exists x, col, y.
Qed.

Lemma cellAt_gridRefs st x y r :
  cellAt (gems st) x y = Ok (Some r) → r ∈ gridRefs st.
Proof.
  unfold cellAt, gridRefs. destruct (gems st !! x) as [col|] eqn:Hcol; [|done].
  intros [= H]. destruct (col !! y) as [c|] eqn:Hc; [|done]. simpl in H. subst.
  apply list_elem_of_omap. exists (Some r). split; [|done].
  apply list_elem_of_join. exists col.
  split; by eapply list_elem_of_lookup_2.
Qed.

Lemma length_gridRefs st : length (gridRefs st) ≤ length (mjoin (gems st)).
Proof.
  unfold gridRefs. generalize (mjoin (gems st)). intros l.
  induction l as [|[r|] l IH]; csimpl; lia.
Qed.

(** ** Scoring *)

Lemma matchScore_table :
  ScoringSystem.matchScore 3 = 100%Z ∧
  ScoringSystem.matchScore 4 = 300%Z ∧
  ScoringSystem.matchScore 5 = 1000%Z ∧
  ∀ n, 6 ≤ n → ScoringSystem.matchScore n = 3000%Z.
Proof.
  repeat split; try reflexivity.
  intros n Hn. unfold ScoringSystem.matchScore, ScoringSystem.MATCH_SCORES.
  destruct (decide (n = 6)) as [->|Hne]; [reflexivity|].
  rewrite !lookup_insert_ne by lia. rewrite lookup_empty. reflexivity.
Qed.

Lemma calculateBasePoints_doubling m :
  3 ≤ length (mgems m) →
  Game.calculateBasePoints m = (100 * 2 ^ (Z.of_nat (length (mgems m)) - 3))%Z.
Proof.
  intros Hlen. unfold Game.calculateBasePoints.
  destruct (Z.ltb_spec 0 (Z.of_nat (length (mgems m)) - 3)) as [H|H]; [done|].
  replace (Z.of_nat (length (mgems m)) - 3)%Z with 0%Z by lia. reflexivity.
Qed.

(** C4 on [Game.calculateBasePoints], the function [processMatches]
    reaches through [scene.updateScore]: a match of four gems is worth
    200 points and one of six gems 800, where the [SCORING.MATCH_SCORES]
    table read by [ScoringSystem] has 300 and 3000. *)
Theorem calculateBasePoints_departs_from_table a b c d e f ty :
  Game.calculateBasePoints (mkMatch [a; b; c; d] ty) = 200%Z ∧
  ScoringSystem.matchScore (length (mgems (mkMatch [a; b; c; d] ty))) = 300%Z ∧
  Game.calculateBasePoints (mkMatch [a; b; c; d; e; f] ty) = 800%Z ∧
  ScoringSystem.matchScore (length (mgems (mkMatch [a; b; c; d; e; f] ty)))
    = 3000%Z.
Proof. repeat split; reflexivity. Qed.

Lemma ln_2_neq_0 : ln 2 ≠ 0%R.
Proof.
  assert (0 < ln 2)%R; [|lra].
  rewrite <- ln_1. apply ln_increasing; lra.
Qed.

Lemma log2_2 : Game.log2 2 = 1%R.
Proof. unfold Game.log2. field. apply ln_2_neq_0. Qed.


(** [Game.calculateComboMultiplier], the multiplier [Game.updateScore]
    applies, is 1 at combo 0 and 1 + log2(d + 1) * 0.5 at every combo
    d > 0 (doubles read as reals). *)
Lemma calculateComboMultiplier_formula :
  Game.calculateComboMultiplier 0 = 1%R ∧
  ∀ d, 0 < d →
    Game.calculateComboMultiplier d
    = (1 + Game.log2 (INR d + 1) * (1 / 2))%R.
Proof.
  split; [reflexivity|].
  intros d Hd. unfold Game.calculateComboMultiplier.
  destruct d as [|d]; [lia|]. simpl Nat.eqb. cbv iota. lra.
Qed.

Lemma calculateComboMultiplier_1 : Game.calculateComboMultiplier 1 = (3 / 2)%R.
Proof.
  rewrite (proj2 calculateComboMultiplier_formula 1) by lia.
  simpl INR. replace (1 + 1)%R with 2%R by lra. rewrite log2_2. lra.
Qed.

(** [ScoringSystem.getComboMultiplier] is linear in the combo counter. *)
Lemma getComboMultiplier_linear d :
  ScoringSystem.getComboMultiplier (S d) = (1 + 3 / 2 * INR (S d))%R.
Proof. reflexivity. Qed.






(** ** The scene of the repository *)



Lemma playSwapSound_gameScene combo score :
  playSwapSound (gameScene combo score) = TypeError.
Proof. reflexivity. Qed.

(** ** Run detection *)

Lemma flushRun_inv st n ty ms run cur :
  scanInv st n (ms, run, cur) →
  Forall (uniformMatch st) (flushRun ty ms run) ∧
  n ≤ length (flushRun ty ms run).
Proof.
  intros (Hms & Hn & Hrun & Hcur). simpl in *. unfold flushRun.
  destruct (Nat.leb_spec 3 (length run)) as [Hlen|Hlen]; [|done].
  split; [|rewrite length_app; lia].
  apply Forall_app. split; [done|]. apply Forall_singleton.
  split; [done|]. simpl.
  destruct cur as [t|]; [|specialize (Hcur eq_refl); lia].
  exists t. intros c Hc. destruct (Hrun c Hc) as [Ht Hr].
  destruct c as [r|]; [|done]. exists r. simpl in Ht.
  split; [done|]. split; [congruence|by apply Hr].
Qed.

Lemma scanStep_inv st n ty s gem :
  scanInv st n s → (∀ r, gem = Some r → r ∈ gridRefs st) →
  scanInv st n (scanStep st ty s gem).
Proof.
  destruct s as [[ms run] cur]. intros Hinv Hgem.
  pose proof (flushRun_inv st n ty ms run cur Hinv) as [Hfl Hfn].
  destruct Hinv as (Hms & Hn & Hrun & Hcur). simpl in *.
  assert (Hreset : scanInv st n (flushRun ty ms run, [gem], typeOf st gem)).
  { split; [done|]. split; [done|]. split; simpl; [|lia].
    intros c Hc. apply list_elem_of_singleton in Hc as ->. done. }
  unfold scanStep. destruct gem as [r|]; [|done].
  case_decide as Heq; [|done].
  split; [done|]. split; [done|]. split; simpl.
  - intros c Hc. apply elem_of_app in Hc as [Hc|Hc]; [by apply Hrun|].
    apply list_elem_of_singleton in Hc as ->. simpl. split; [done|].
    intros r' [= <-]. by apply Hgem.
  - by rewrite Heq.
Qed.

Lemma scanLine_total st ty coords ms :
  wfBoard st → (∀ xy, xy ∈ coords → xy.1 < width st) →
  Forall (uniformMatch st) ms →
  ∃ ms', scanLine st ty coords ms = Ok ms' ∧
         Forall (uniformMatch st) ms' ∧ length ms ≤ length ms'.
Proof.
  intros Hwf Hcoords Hms. unfold scanLine.
  destruct (forEachM_total (scanCell st ty) (scanInv st (length ms)) coords)
    with (s := (ms, @nil (option nat), @None GemType))
    as ([[ms1 run] cur] & E & Hinv).
  - intros s xy Hxy Hs. unfold scanCell.
    destruct (cellAt_total st xy.1 xy.2 Hwf (Hcoords _ Hxy)) as [c Hc].
    rewrite Hc. simpl. eexists; split; [done|].
    apply scanStep_inv; [done|]. intros r ->. by eapply cellAt_gridRefs.
  - split; [done|]. split; [done|]. split; simpl; [|lia].
    intros c Hc. by apply elem_of_nil in Hc.
  - rewrite E. simpl. eexists; split; [done|].
    by apply (flushRun_inv st _ ty ms1 run cur).
Qed.

Lemma scanRows_total st n ys : ∀ ms,
  wfBoard st → rawInv st n ms →
  ∃ ms', forEachM (λ m y, scanLine st horizontal
                            ((λ x, (x, y)) <$> seq 0 (width st)) m) ys ms
         = Ok ms' ∧ rawInv st n ms'.
Proof.
  intros ms Hwf Hms. apply (forEachM_total _ (rawInv st n)); [|done].
  intros ms0 y _ [Hu Hn].
  destruct (scanLine_total st horizontal
              ((λ x, (x, y)) <$> seq 0 (width st)) ms0) as (ms' & E & H & Hl);
    [done| |done|].
  - intros xy Hxy. apply list_elem_of_fmap in Hxy as (x & -> & Hx).
    apply elem_of_seq in Hx. simpl. lia.
  - exists ms'. split; [done|]. split; [done|lia].
Qed.

Lemma scanColumns_total st n xs : ∀ ms,
  wfBoard st → (∀ x, x ∈ xs → x < width st) → rawInv st n ms →
  ∃ ms', forEachM (λ m x, scanLine st vertical
                            ((λ y, (x, y)) <$> seq 0 (height st)) m) xs ms
         = Ok ms' ∧ rawInv st n ms'.
Proof.
  intros ms Hwf Hxs Hms. apply (forEachM_total _ (rawInv st n)); [|done].
  intros ms0 x Hx [Hu Hn].
  destruct (scanLine_total st vertical
              ((λ y, (x, y)) <$> seq 0 (height st)) ms0) as (ms' & E & H & Hl);
    [done| |done|].
  - intros xy Hxy. apply list_elem_of_fmap in Hxy as (y & -> & Hy).
    simpl. by apply Hxs.
  - exists ms'. split; [done|]. split; [done|lia].
Qed.

(** Every run [findMatches] collects before consolidation has at least
    three gems, none of them [null], all of one type; and the two scans
    never fail on a board of [width] columns of [height] cells. *)
Lemma rawMatches_total st :
  wfBoard st →
  ∃ ms, rawMatches st = Ok ms ∧ Forall (uniformMatch st) ms.
Proof.
  intros Hwf. unfold rawMatches.
  destruct (scanRows_total st 0 (seq 0 (height st)) [] Hwf)
    as (ms1 & E1 & H1); [split; [done|simpl; lia]|].
  rewrite E1. simpl.
  destruct (scanColumns_total st 0 (seq 0 (width st)) ms1 Hwf)
    as (ms2 & E2 & H2 & _); [|done|by exists ms2].
  intros x Hx. apply elem_of_seq in Hx. lia.
Qed.

(** A line of cells that all hold gems of type [t] extends the current
    run of type [t] by its length. *)
Lemma scan_uniform_run st ty t coords : ∀ ms run,
  (∀ xy, xy ∈ coords →
     ∃ r, cellAt (gems st) xy.1 xy.2 = Ok (Some r) ∧ gemType (heap st r) = t) →
  ∃ run', forEachM (scanCell st ty) coords (ms, run, Some t)
          = Ok (ms, run', Some t) ∧
          length run' = length run + length coords.
Proof.
  induction coords as [|xy coords IH]; intros ms run Hcells.
  { exists run. split; [done|]. simpl. lia. }
  destruct (Hcells xy) as (r & Hr & Ht); [by left|].
  cbn [forEachM].
  assert (Hsc : scanCell st ty (ms, run, Some t) xy
                = Ok (ms, run ++ [Some r], Some t)).
  { unfold scanCell. rewrite Hr. simpl.
    by rewrite decide_True by (by rewrite Ht). }
  rewrite Hsc. simpl.
  destruct (IH ms (run ++ [Some r])) as (run' & E & Hlen).
  { intros xy' Hxy'. apply Hcells. by right. }
  exists run'. split; [done|]. rewrite Hlen, length_app. simpl. lia.
Qed.

Lemma scanLine_uniform st ty t coords ms :
  3 ≤ length coords →
  (∀ xy, xy ∈ coords →
     ∃ r, cellAt (gems st) xy.1 xy.2 = Ok (Some r) ∧ gemType (heap st r) = t) →
  ∃ ms', scanLine st ty coords ms = Ok ms' ∧ length ms' = S (length ms).
Proof.
  intros Hlen Hcells. unfold scanLine.
  destruct coords as [|xy coords]; [simpl in Hlen; lia|].
  destruct (Hcells xy) as (r & Hr & Ht); [by left|].
  cbn [forEachM].
  assert (Hsc : scanCell st ty (ms, [], None) xy = Ok (ms, [Some r], Some t)).
  { unfold scanCell. rewrite Hr. simpl. by rewrite Ht. }
  rewrite Hsc. simpl.
  destruct (scan_uniform_run st ty t coords ms [Some r]) as (run' & E & Hl).
  { intros xy' Hxy'. apply Hcells. by right. }
  rewrite E. simpl. unfold flushRun.
  simpl in Hlen, Hl.
  destruct (Nat.leb_spec 3 (length run')); [|lia].
  eexists; split; [done|]. rewrite length_app. simpl. lia.
Qed.

(** ** Consolidation returns *)

Lemma getAdjacentGems_total st x y :
  wfBoard st →
  ∃ adjacent, getAdjacentGems st x y = Ok adjacent ∧
              ∀ r, Some r ∈ adjacent → r ∈ gridRefs st.
Proof.
  intros Hwf. unfold getAdjacentGems.
  apply (forEachM_total _ (λ adjacent : list (option nat),
                             ∀ r, Some r ∈ adjacent → r ∈ gridRefs st)).
  - intros adj dir _ Hadj. unfold pushNeighbour.
    destruct (isValidGridPosition st _ _) eqn:Hvalid; [|by exists adj].
    apply isValidGridPosition_spec in Hvalid as [Hx Hy].
    destruct (cellAt_total st (Z.to_nat (Z.of_nat x + dir.1))
                (Z.to_nat (Z.of_nat y + dir.2)) Hwf) as [c Hc]; [lia|].
    rewrite Hc. simpl. eexists; split; [done|].
    intros r Hr. apply elem_of_app in Hr as [Hr|Hr]; [by apply Hadj|].
    apply list_elem_of_singleton in Hr as <-. by eapply cellAt_gridRefs.
  - intros r Hr. by apply elem_of_nil in Hr.
Qed.

Lemma visited_bound st n c : visited st n c → n ≤ length (mjoin (gems st)).
Proof.
  intros (Hnd & Hsub & Hn).
  pose proof (submseteq_length _ _ (NoDup_submseteq _ _ Hnd Hsub)).
  pose proof (length_gridRefs st). lia.
Qed.

(** The recursion depth of [findConnectedGems] is bounded by the number
    of gems of the grid: with more fuel than gems still unvisited, the
    search returns. *)
Lemma findConnectedGems_total st matchMap :
  wfBoard st →
  ∀ fuel gem connected,
    visited st 0 connected → gem ∈ gridRefs st →
    length (mjoin (gems st)) < fuel + length connected →
    ∃ c', findConnectedGems fuel st gem matchMap connected = Ok c' ∧
          visited st (length connected) c'.
Proof.
  intros Hwf. induction fuel as [|fuel IH]; intros gem connected Hv Hgem Hfuel.
  { pose proof (visited_bound st (length connected) connected) as Hb.
    destruct Hv as (? & ? & _). unfold visited in Hb.
    assert (length connected ≤ length (mjoin (gems st))) by auto. lia. }
  simpl. case_decide as Hin.
  { exists connected. split; [done|]. destruct Hv as (? & ? & _). by split. }
  destruct (getAdjacentGems_total st (gridX (heap st gem)) (gridY (heap st gem)) Hwf)
    as (adj & Eadj & Hadj).
  rewrite Eadj. simpl.
  destruct Hv as (Hnd & Hsub & _).
  destruct (forEachM_total
              (followNeighbour st matchMap
                 (λ a c, findConnectedGems fuel st a matchMap c))
              (visited st (S (length connected))) adj)
    with (s := connected ++ [gem]) as (c' & E & Hc').
  - intros c adjGem Hadjgem Hc. unfold followNeighbour.
    destruct adjGem as [a|]; [|by exists c].
    case_decide; [|by exists c].
    destruct Hc as (Hnd' & Hsub' & Hlen').
    destruct (IH a c) as (c'' & E'' & Hnd'' & Hsub'' & Hlen'').
    + split; [done|]. split; [done|lia].
    + by apply Hadj.
    + lia.
    + exists c''. split; [done|]. split; [done|]. split; [done|lia].
  - split; [|split].
    + apply list.NoDup_app. split; [done|]. split; [|apply NoDup_singleton].
      intros r Hr Hr'. apply list_elem_of_singleton in Hr' as ->. done.
    + intros r Hr. apply elem_of_app in Hr as [Hr|Hr]; [by apply Hsub|].
      by apply list_elem_of_singleton in Hr as ->.
    + rewrite length_app. simpl. lia.
  - exists c'. split; [done|]. destruct Hc' as (? & ? & ?).
    split; [done|]. split; [done|lia].
Qed.

Lemma registerGem_spec (st : GemGrid) (ty : MatchType)
    (matchMap : gmap (nat * nat) MatchInfo) (r : nat) :
  ∃ mm', registerGem st ty matchMap (Some r) = Ok mm' ∧
         mapGrows matchMap mm' ∧ is_Some (mm' !! keyOf st r).
Proof.
  unfold registerGem. simpl.
  destruct (matchMap !! keyOf st r) as [info|] eqn:E.
  - rewrite E. eexists; split; [done|]. split.
    + intros k Hk. rewrite lookup_insert. by case_decide.
    + by rewrite lookup_insert_eq.
  - rewrite lookup_insert_eq. eexists; split; [done|]. split.
    + intros k Hk. rewrite !lookup_insert. by repeat case_decide.
    + by rewrite lookup_insert_eq.
Qed.

Lemma buildMatchMap_total st ms :
  Forall (uniformMatch st) ms →
  ∃ matchMap, buildMatchMap st ms = Ok matchMap ∧
              ∀ m, m ∈ ms → registered st matchMap (mgems m).
Proof.
  unfold buildMatchMap.
  assert (Hgen : ∀ ms (mm : gmap (nat * nat) MatchInfo) dn,
            Forall (uniformMatch st) ms →
            (∀ m, m ∈ dn → registered st mm (mgems m)) →
            ∃ mm', forEachM (λ matchMap m,
                       forEachM (registerGem st (mtype m)) (mgems m) matchMap)
                     ms mm = Ok mm' ∧
                   ∀ m, m ∈ dn ++ ms → registered st mm' (mgems m)).
  { clear ms. induction ms as [|m ms IH]; intros mm dn Hms Hdn.
    { exists mm. split; [done|]. by rewrite app_nil_r. }
    apply Forall_cons_1 in Hms as [Hm Hms]. simpl.
    assert (Hinner : ∀ gs (mm0 : gmap (nat * nat) MatchInfo) seen,
              (∀ c, c ∈ gs → ∃ r, c = Some r) →
              registered st mm0 seen →
              ∃ mm1, forEachM (registerGem st (mtype m)) gs mm0 = Ok mm1 ∧
                     mapGrows mm0 mm1 ∧ registered st mm1 (seen ++ gs)).
    { induction gs as [|c gs IHg]; intros mm0 seen Hgs Hseen.
      { exists mm0. split; [done|]. split; [by intros ?|].
        by rewrite app_nil_r. }
      destruct (Hgs c) as [r ->]; [by left|]. simpl.
      destruct (registerGem_spec st (mtype m) mm0 r) as (mm1 & E1 & G1 & K1).
      rewrite E1. simpl.
      destruct (IHg mm1 (seen ++ [Some r])) as (mm2 & E2 & G2 & K2).
      - intros c' Hc'. apply Hgs. by right.
      - intros r' Hr'. apply elem_of_app in Hr' as [Hr'|Hr'].
        + by apply G1, Hseen.
        + apply list_elem_of_singleton in Hr'. by injection Hr' as ->.
      - exists mm2. split; [done|]. split.
        + intros k Hk. by apply G2, G1.
        + by rewrite <- app_assoc in K2. }
    destruct (Hinner (mgems m) mm []) as (mm1 & E1 & G1 & K1).
    - intros c Hc. destruct Hm as (_ & t & Ht).
      destruct (Ht c Hc) as (r & -> & _). by exists r.
    - intros r Hr. by apply elem_of_nil in Hr.
    - rewrite E1. simpl.
      destruct (IH mm1 (dn ++ [m]) Hms) as (mm2 & E2 & K2).
      + intros m' Hm'. apply elem_of_app in Hm' as [Hm'|Hm'].
        * intros r Hr. by apply G1, (Hdn m').
        * by apply list_elem_of_singleton in Hm' as ->.
      + exists mm2. split; [done|]. by rewrite <- app_assoc in K2. }
  intros Hms. destruct (Hgen ms ∅ [] Hms) as (mm & E & K).
  - intros m Hm. by apply elem_of_nil in Hm.
  - by exists mm.
Qed.

Lemma someProcessed_total (st : GemGrid) (processedGems : gset (nat * nat))
    (gs : list Cell) :
  (∀ c, c ∈ gs → ∃ r, c = Some r) →
  ∃ b, someProcessed st processedGems gs = Ok b ∧
       (processedGems = ∅ → b = false).
Proof.
  induction gs as [|c gs IH]; intros Hgs; [by exists false|].
  destruct (Hgs c) as [r ->]; [by left|]. simpl.
  case_decide as Hin.
  - exists true. split; [done|]. intros ->. set_solver.
  - apply IH. intros c Hc. apply Hgs. by right.
Qed.

Lemma someProcessed_empty st gs b :
  someProcessed st ∅ gs = Ok b → b = false.
Proof.
  revert b. induction gs as [|c gs IH]; intros b H; simpl in H.
  { by injection H as <-. }
  apply bind_Ok in H as (r & _ & H).
  rewrite decide_False in H by set_solver. by apply IH.
Qed.

Lemma collectIntersecting_total (st : GemGrid)
    (matchMap : gmap (nat * nat) MatchInfo) (gs : list Cell) :
  wfBoard st →
  (∀ c, c ∈ gs → ∃ r, c = Some r ∧ r ∈ gridRefs st) →
  registered st matchMap gs →
  ∃ intersectingGems,
    forEachM (collectIntersecting st matchMap) gs [] = Ok intersectingGems ∧
    ∀ r, r ∈ intersectingGems → r ∈ gridRefs st.
Proof.
  intros Hwf Hgs Hreg.
  destruct (forEachM_total (collectIntersecting st matchMap)
              (visited st 0) gs) with (s := @nil nat)
    as (c' & E & _ & Hsub & _).
  - intros c gem Hgem Hc. unfold collectIntersecting.
    destruct (Hgs gem Hgem) as (r & -> & Hr). simpl.
    destruct (Hreg r Hgem) as [info Hinfo]. rewrite Hinfo.
    destruct (1 <? length (matchTypes info)); [|by exists c].
    destruct (findConnectedGems_total st matchMap Hwf (searchFuel st) r c)
      as (c' & E & Hnd & Hsub & _); [done|done|unfold searchFuel; lia|].
    exists c'. split; [done|]. split; [done|]. split; [done|lia].
  - split; [apply NoDup_nil_2|]. split; [|simpl; lia].
    intros r Hr. by apply elem_of_nil in Hr.
  - by exists c'.
Qed.

Lemma derefAll_total gs :
  (∀ c, c ∈ gs → ∃ r : nat, c = Some r) →
  ∀ rs0, ∃ rs, forEachM (λ rs gem, r ← deref gem; Ok (rs ++ [r])) gs rs0 = Ok rs.
Proof.
  induction gs as [|c gs IH]; intros Hgs rs0; [by exists rs0|].
  destruct (Hgs c) as [r ->]; [by left|]. simpl.
  apply IH. intros c Hc. apply Hgs. by right.
Qed.

Lemma consolidateStep_total (st : GemGrid)
    (matchMap : gmap (nat * nat) MatchInfo)
    (cs : list Match) (processedGems : gset (nat * nat)) (m : Match) :
  wfBoard st → uniformMatch st m → registered st matchMap (mgems m) →
  Forall (gridMatch st) cs →
  ∃ cs' p', consolidateStep st matchMap (cs, processedGems) m = Ok (cs', p') ∧
            length cs ≤ length cs' ∧
            (processedGems = ∅ → length cs < length cs') ∧
            Forall (gridMatch st) cs'.
Proof.
  intros Hwf (_ & t & Ht) Hreg Hcs. unfold consolidateStep.
  assert (Hsome : ∀ c, c ∈ mgems m → ∃ r, c = Some r ∧ r ∈ gridRefs st).
  { intros c Hc. destruct (Ht c Hc) as (r & -> & _ & Hr). by exists r. }
  destruct (someProcessed_total st processedGems (mgems m)) as (b & Eb & Hb).
  { intros c Hc. destruct (Hsome c Hc) as (r & -> & _). by exists r. }
  rewrite Eb. simpl. destruct b.
  { exists cs, processedGems. split; [done|]. split; [done|].
    split; [|done]. intros Hp. by specialize (Hb Hp). }
  destruct (collectIntersecting_total st matchMap (mgems m) Hwf Hsome Hreg)
    as (inter & Ei & Hinter).
  rewrite Ei. simpl. destruct (0 <? length inter).
  - eexists _, _. split; [done|]. rewrite length_app. simpl.
    split; [lia|]. split; [lia|].
    apply Forall_app. split; [done|]. apply Forall_singleton.
    intros c Hc. simpl in Hc. apply list_elem_of_fmap in Hc as (r & -> & Hr).
    exists r. split; [done|]. by apply Hinter.
  - destruct (derefAll_total (mgems m)) with (rs0 := @nil nat) as (rs & Ers).
    { intros c Hc. destruct (Hsome c Hc) as (r & -> & _). by exists r. }
    rewrite Ers. simpl.
    eexists _, _. split; [done|]. rewrite length_app. simpl.
    split; [lia|]. split; [lia|].
    apply Forall_app. split; [done|]. by apply Forall_singleton.
Qed.

Lemma consolidateStep_grows (st : GemGrid)
    (matchMap : gmap (nat * nat) MatchInfo)
    (cs cs' : list Match) (p p' : gset (nat * nat)) (m : Match) :
  consolidateStep st matchMap (cs, p) m = Ok (cs', p') →
  length cs ≤ length cs' ∧ (p = ∅ → length cs < length cs').
Proof.
  unfold consolidateStep. intros H.
  apply bind_Ok in H as (skip & Hskip & H). destruct skip.
  { injection H as <- <-. split; [done|]. intros ->.
    by apply someProcessed_empty in Hskip. }
  apply bind_Ok in H as (inter & _ & H).
  destruct (0 <? length inter).
  - injection H as <- _. rewrite length_app. simpl. lia.
  - apply bind_Ok in H as (rs & _ & H). injection H as <- _.
    rewrite length_app. simpl. lia.
Qed.

Lemma consolidateMatches_total st ms :
  wfBoard st → Forall (uniformMatch st) ms →
  ∃ cs, consolidateMatches st ms = Ok cs ∧ (ms ≠ [] → cs ≠ []) ∧
        Forall (gridMatch st) cs.
Proof.
  intros Hwf Hms. unfold consolidateMatches.
  destruct (buildMatchMap_total st ms Hms) as (mm & Emm & Hreg).
  rewrite Emm. simpl.
  assert (Hloop : ∀ l n acc,
            (∀ m, m ∈ l → m ∈ ms) →
            n ≤ length acc.1 ∧ Forall (gridMatch st) acc.1 →
            ∃ acc', forEachM (consolidateStep st mm) l acc = Ok acc' ∧
                    n ≤ length acc'.1 ∧ Forall (gridMatch st) acc'.1).
  { intros l n acc Hl Hn.
    apply (forEachM_total _ (λ a : list Match * gset (nat * nat),
                               n ≤ length a.1 ∧ Forall (gridMatch st) a.1));
      [|done].
    intros [cs p] m Hm [Hacc Hcs]. simpl in Hacc, Hcs.
    destruct (consolidateStep_total st mm cs p m Hwf)
      as (cs' & p' & E & Hlen & _ & Hcs').
    - apply (proj1 (list.Forall_forall _ _) Hms). by apply Hl.
    - by apply Hreg, Hl.
    - done.
    - exists (cs', p'). split; [done|]. simpl. split; [lia|done]. }
  destruct ms as [|m ms].
  { simpl. exists []. by split_and!. }
  cbn [forEachM].
  destruct (consolidateStep_total st mm [] ∅ m Hwf)
    as (cs1 & p1 & E1 & _ & Hpos & Hcs1).
  { by apply Forall_cons_1 in Hms as [? _]. }
  { apply Hreg. by left. }
  { done. }
  rewrite E1. simpl. specialize (Hpos eq_refl). simpl in Hpos.
  destruct (Hloop ms 1 (cs1, p1)) as ([cs p] & E & Hlen & Hcs).
  { intros m' Hm'. by right. }
  { simpl. split; [lia|done]. }
  rewrite E. simpl. exists cs. split; [done|]. split; [|done].
  intros _ ->. simpl in Hlen. lia.
Qed.

(** On a board of [width] columns of [height] cells [findMatches]
    returns, and its result is empty exactly when no run was found. *)
Lemma findMatches_total st :
  wfBoard st →
  ∃ raw ms, rawMatches st = Ok raw ∧ findMatches st = Ok ms ∧
            Forall (uniformMatch st) raw ∧ (raw ≠ [] → ms ≠ []) ∧
            Forall (gridMatch st) ms.
Proof.
  intros Hwf. unfold findMatches.
  destruct (rawMatches_total st Hwf) as (raw & Eraw & Hraw).
  destruct (consolidateMatches_total st raw Hwf Hraw) as (ms & Ems & Hne & Hms).
  exists raw, ms. rewrite Eraw. simpl. done.
Qed.

(** Whenever [findMatches] returns, its result is empty exactly when the
    two scans found no run. *)
Lemma findMatches_empty_iff st raw ms :
  rawMatches st = Ok raw → findMatches st = Ok ms → (ms = [] ↔ raw = []).
Proof.
  intros Hraw H. unfold findMatches in H. rewrite Hraw in H. simpl in H.
  unfold consolidateMatches in H.
  apply bind_Ok in H as (mm & _ & H).
  apply bind_Ok in H as ([cs p] & Hloop & [= <-]).
  destruct raw as [|m raw]; [by injection Hloop as <- _|].
  split; [|done]. intros ->. exfalso.
  simpl in Hloop. apply bind_Ok in Hloop as ([cs1 p1] & H1 & Hrest).
  apply consolidateStep_grows in H1 as [_ H1]. specialize (H1 eq_refl).
  eapply (forEachM_inv _ (λ a a' : list Match * gset (nat * nat),
                            length a.1 ≤ length a'.1) (λ _ _, True))
    in Hrest as [Hrest _]; simpl in *; [lia|lia|lia|done|].
  intros [c q] m' [c' q'] Hm'. apply consolidateStep_grows in Hm' as [? _].
  done.
Qed.

(** ** Pattern classification *)

Lemma identifyPattern_never_cross st gs : identifyPattern st gs ≠ cross.
Proof.
  unfold identifyPattern. destruct gs; [done|].
  repeat case_match; done.
Qed.

(** C6 on the code: the ['cross'] branch of [identifyPattern] repeats the
    test of the first branch and is never taken; the plus of five gems on
    [plusBoard] comes out of [findMatches] tagged ['L_shape']. *)
Theorem plus_footprint_is_L_shape :
  (∀ st gs, identifyPattern st gs ≠ cross) ∧
  findMatches plusBoard
  = Ok [mkMatch [Some 4; Some 3; Some 7; Some 5; Some 1] L_shape] ∧
  keyOf plusBoard <$> [4; 3; 7; 5; 1] = [(1, 1); (1, 0); (2, 1); (1, 2); (0, 1)].
Proof.
  split; [apply identifyPattern_never_cross|].
  split; vm_compute; reflexivity.
Qed.

(** ** Consolidation across gem types *)

(** C10 on the code: [findConnectedGems] follows every neighbour that is
    in the match map, whatever its type.  On [doubleBoard], which has no
    match, exchanging the gems 1 (red) and 5 (blue) as [swapGems] does
    completes a red L and a blue column; [findMatches] returns them as one
    match of eight gems. *)
Theorem consolidated_match_mixes_types :
  findMatches doubleBoard = Ok [] ∧
  areGemsAdjacent doubleBoard 1 5 = true ∧
  match exchangeGems doubleBoard 1 5 with
  | Ok st1 =>
      findMatches st1
      = Ok [mkMatch [Some 1; Some 9; Some 13; Some 6; Some 7; Some 2; Some 5;
                     Some 0] special] ∧
      typeOf st1 (Some 1) = Some RED ∧
      typeOf st1 (Some 5) = Some BLUE
  | _ => False
  end.
Proof. vm_compute. repeat split; reflexivity. Qed.

(** ** The object store *)

(** Case analysis on every reference comparison of an unfolded store
    update. *)
Ltac case_eqb :=
  repeat (match goal with
          | |- context [Nat.eqb ?p ?q] => destruct (Nat.eqb_spec p q); subst
          end; simpl).

Lemma Gem_eta g : mkGem (gemType g) (gridX g) (gridY g) = g.
Proof. by destruct g. Qed.

Lemma setGridX_gemType h a v r : gemType (setGridX h a v r) = gemType (h r).
Proof. unfold setGridX, upd. by case_eqb. Qed.

Lemma setGridY_gemType h a v r : gemType (setGridY h a v r) = gemType (h r).
Proof. unfold setGridY, upd. by case_eqb. Qed.

Lemma swapCoords_spec h a b r :
  a ≠ b →
  swapCoords h a b r
  = if decide (r = a) then mkGem (gemType (h a)) (gridX (h b)) (gridY (h b))
    else if decide (r = b) then mkGem (gemType (h b)) (gridX (h a)) (gridY (h a))
    else h r.
Proof.
  intros Hab. unfold swapCoords, setGridX, setGridY, upd.
  repeat case_decide; subst; case_eqb; congruence.
Qed.

Lemma swapCoords_gemType h a b r :
  gemType (swapCoords h a b r) = gemType (h r).
Proof.
  unfold swapCoords.
  by rewrite !setGridY_gemType, !setGridX_gemType,
             !setGridY_gemType, !setGridX_gemType.
Qed.

(** ** Swapping two gems *)

Lemma areGemsAdjacent_coords st a b :
  areGemsAdjacent st a b = true → keyOf st a ≠ keyOf st b.
Proof.
  unfold areGemsAdjacent, keyOf, absDiff. intros H [= Hx Hy].
  rewrite Hx, Hy, !Nat.sub_diag in H. done.
Qed.

Lemma placeBoth_spec h g a b :
  inGrid g (gridX (h a)) (gridY (h a)) →
  inGrid g (gridX (h b)) (gridY (h b)) →
  ∃ g', placeBoth h g a b = Ok g' ∧
        (length <$> g') = (length <$> g) ∧
        ∀ x y, cellAt g' x y
               = if decide (x = gridX (h b) ∧ y = gridY (h b)) then Ok (Some b)
                 else if decide (x = gridX (h a) ∧ y = gridY (h a))
                      then Ok (Some a)
                      else cellAt g x y.
Proof.
  intros Ha Hb. unfold placeBoth.
  destruct (cellSet_inGrid g _ _ (Some a) Ha) as (g1 & E1 & S1).
  rewrite E1. simpl.
  destruct (cellSet_inGrid g1 _ _ (Some b) (inGrid_shape _ _ _ _ S1 Hb))
    as (g2 & E2 & S2).
  exists g2. split; [done|]. split; [congruence|].
  intros x y. rewrite (cellSet_cellAt _ _ _ _ _ x y E2).
  case_decide; [done|]. apply (cellSet_cellAt _ _ _ _ _ x y E1).
Qed.

Lemma deselectGem_fields st :
  gems (deselectGem st) = gems st ∧ heap (deselectGem st) = heap st ∧
  width (deselectGem st) = width st ∧ height (deselectGem st) = height st ∧
  nextRef (deselectGem st) = nextRef st ∧ draws (deselectGem st) = draws st ∧
  rng (deselectGem st) = rng st ∧ canInput (deselectGem st) = canInput st.
Proof. unfold deselectGem. by destruct (selectedGem st). Qed.

(** The swap-back of [trySwapGems] is right in itself.  With a scene
    whose swap sound returns (one without audio manager, which the guard
    of [swapGems] allows, or one whose manager has the method), a swap of
    two adjacent gems that leaves [findMatches] empty is undone: the grid
    array and every gem's fields are as they were before the call. *)
Lemma trySwapGems_restores_if_sound_returns scene fuel st gem1 gem2 :
  playSwapSound scene = Ok () →
  onBoard st gem1 → onBoard st gem2 →
  areGemsAdjacent st gem1 gem2 = true →
  (st1 ← exchangeGems (setCanInput st false) gem1 gem2; findMatches st1)
  = Ok [] →
  ∃ st', trySwapGems scene fuel st gem1 gem2 = Ok ([], st') ∧
         gems st' = gems st ∧
         (∀ r, heap st' r = heap st r) ∧
         width st' = width st ∧ height st' = height st ∧
         nextRef st' = nextRef st ∧ draws st' = draws st.
Proof.
  intros Hsound H1 H2 Hadj Hno.
  pose proof (areGemsAdjacent_coords _ _ _ Hadj) as Hk.
  assert (Hne : gem1 ≠ gem2) by (intros ->; done).
  apply bind_Ok in Hno as (st1 & Hswap & Hfind).
  unfold trySwapGems, swapGems. rewrite Hswap, Hsound. simpl.
  rewrite Hfind. simpl.
  unfold exchangeGems in Hswap.
  apply bind_Ok in Hswap as (g1 & Hp1 & [= <-]).
  simpl in Hp1.
  set (h0 := heap st) in *. set (h1 := swapCoords h0 gem1 gem2) in *.
  unfold onBoard in H1, H2. fold h0 in H1, H2. unfold keyOf in Hk. fold h0 in Hk.
  assert (E11 : h1 gem1 = mkGem (gemType (h0 gem1)) (gridX (h0 gem2)) (gridY (h0 gem2))).
  { unfold h1. rewrite swapCoords_spec by done. by rewrite decide_True. }
  assert (E12 : h1 gem2 = mkGem (gemType (h0 gem2)) (gridX (h0 gem1)) (gridY (h0 gem1))).
  { unfold h1. rewrite swapCoords_spec by done.
    rewrite decide_False by done. by rewrite decide_True. }
  destruct (placeBoth_spec h1 (gems st) gem1 gem2) as (g1' & Hp1' & S1 & C1).
  { rewrite E11. simpl. by eapply cellAt_Some_inGrid. }
  { rewrite E12. simpl. by eapply cellAt_Some_inGrid. }
  rewrite Hp1' in Hp1. injection Hp1 as <-.
  unfold exchangeGems. simpl.
  set (h2 := swapCoords h1 gem2 gem1).
  assert (E21 : h2 gem1 = h0 gem1).
  { unfold h2. rewrite swapCoords_spec by done.
    rewrite decide_False by done. rewrite decide_True by done.
    rewrite E11, E12. simpl. apply Gem_eta. }
  assert (E22 : h2 gem2 = h0 gem2).
  { unfold h2. rewrite swapCoords_spec by done. rewrite decide_True by done.
    rewrite E11, E12. simpl. apply Gem_eta. }
  destruct (placeBoth_spec h2 g1' gem2 gem1) as (g2 & Hp2 & S2 & C2).
  { rewrite E22. eapply inGrid_shape; [done|]. by eapply cellAt_Some_inGrid. }
  { rewrite E21. eapply inGrid_shape; [done|]. by eapply cellAt_Some_inGrid. }
  rewrite Hp2. simpl.
  eexists. split; [reflexivity|].
  assert (Hg : g2 = gems st).
  { apply grid_ext; [congruence|]. intros x y.
    rewrite C2, C1, E21, E22, E11, E12. simpl.
    repeat case_decide; try done;
      repeat match goal with H : _ ∧ _ |- _ => destruct H end; subst;
      try done; congruence. }
  simpl.
  match goal with |- context [deselectGem ?s] =>
    destruct (deselectGem_fields s) as (-> & -> & -> & -> & -> & -> & _)
  end. simpl.
  split; [done|].
  split.
  { intros r. fold h0 h1 h2.
    unfold h2. rewrite swapCoords_spec by done.
    repeat case_decide; subst.
    - rewrite E11, E12. simpl. apply Gem_eta.
    - rewrite E11, E12. simpl. apply Gem_eta.
    - unfold h1. rewrite swapCoords_spec by done.
      by rewrite !decide_False by done. }
  done.
Qed.

(** [exchangeGems] returns or raises a [TypeError]; it has no loop that
    could run out of fuel. *)
Lemma exchangeGems_cases st gem1 gem2 :
  (∃ st1, exchangeGems st gem1 gem2 = Ok st1) ∨
  exchangeGems st gem1 gem2 = TypeError.
Proof.
  unfold exchangeGems, placeBoth, cellSet.
  destruct (gems st !! _) as [col|]; simpl; [|by right].
  destruct (_ !! _) as [col'|]; simpl; [left; by eexists|by right].
Qed.

Lemma swapGems_gameScene combo score st gem1 gem2 :
  swapGems (gameScene combo score) st gem1 gem2 = TypeError.
Proof.
  unfold swapGems.
  by destruct (exchangeGems_cases st gem1 gem2) as [[st1 ->] | ->].
Qed.

(** C2 on the code: [swapGems] ends with
    [this.scene.audioManager.playGemSwap()], and the [AudioManager] that
    [Game] installs has no such method.  With the scene of the repository
    every [swapGems] raises once the gems are exchanged, so every
    [trySwapGems] raises at its first [await] and never reaches its swap
    back.  On [quietBoard] the gems 0 and 1 are adjacent and their
    exchange leaves [findMatches] empty; the call ends with the two gems
    exchanged in the grid array and input disabled. *)
Theorem trySwapGems_raises_after_exchange combo score :
  (∀ st gem1 gem2, swapGems (gameScene combo score) st gem1 gem2 = TypeError) ∧
  (∀ fuel st gem1 gem2,
     trySwapGems (gameScene combo score) fuel st gem1 gem2 = TypeError) ∧
  areGemsAdjacent quietBoard 0 1 = true ∧
  cellAt (gems quietBoard) 0 0 = Ok (Some 0) ∧
  cellAt (gems quietBoard) 0 1 = Ok (Some 1) ∧
  match exchangeGems (setCanInput quietBoard false) 0 1 with
  | Ok st1 =>
      findMatches st1 = Ok [] ∧
      cellAt (gems st1) 0 0 = Ok (Some 1) ∧
      cellAt (gems st1) 0 1 = Ok (Some 0) ∧
      canInput st1 = false
  | _ => False
  end.
Proof.
  split; [intros; apply swapGems_gameScene|]. split.
  { intros fuel st gem1 gem2. unfold trySwapGems.
    by rewrite swapGems_gameScene. }
  vm_compute. repeat split; reflexivity.
Qed.

(** ** Tokens on the board *)

Lemma colBag_insert (col : list Cell) y c v :
  col !! y = Some c →
  colBag (<[y := v]> col) ⊎ cellBag c = colBag col ⊎ cellBag v.
Proof.
  revert y. induction col as [|a col IH]; intros [|y] H; simplify_eq/=.
  - multiset_solver.
  - specialize (IH _ H). multiset_solver.
Qed.

Lemma colBag_app (l1 l2 : list Cell) : colBag (l1 ++ l2) = colBag l1 ⊎ colBag l2.
Proof. induction l1 as [|c l1 IH]; simpl; [|rewrite IH]; multiset_solver. Qed.

Lemma colBag_replicate_None n : colBag (replicate n None) = ∅.
Proof. induction n as [|n IH]; simpl; [done|]. rewrite IH. multiset_solver. Qed.

Lemma tokenBag_insert (g : Grid) x col col' :
  g !! x = Some col →
  tokenBag (<[x := col']> g) ⊎ colBag col = tokenBag g ⊎ colBag col'.
Proof.
  revert x. induction g as [|a g IH]; intros [|x] H; simplify_eq/=.
  - multiset_solver.
  - specialize (IH _ H). multiset_solver.
Qed.

Lemma arraySet_bag (col : list Cell) y v :
  colBag (arraySet col y v) ⊎ cellBag (default None (col !! y))
  = colBag col ⊎ cellBag v.
Proof.
  unfold arraySet. case_decide as Hy.
  - destruct (lookup_lt_is_Some_2 col y Hy) as [c Hc]. rewrite Hc. simpl.
    by apply colBag_insert.
  - rewrite lookup_ge_None_2 by lia. simpl.
    rewrite !colBag_app, colBag_replicate_None. simpl. multiset_solver.
Qed.

Lemma cellSet_bag (g : Grid) x y v c g' :
  cellAt g x y = Ok c → cellSet g x y v = Ok g' →
  tokenBag g' ⊎ cellBag c = tokenBag g ⊎ cellBag v.
Proof.
  unfold cellAt, cellSet. destruct (g !! x) as [col|] eqn:Hcol; [|done].
  intros [= <-] [= <-].
  pose proof (tokenBag_insert g x col (arraySet col y v) Hcol).
  pose proof (arraySet_bag col y v). multiset_solver.
Qed.

(** A write inside the array: same shape, and the bag of tokens changes
    by the old and new contents of the cell. *)
Lemma cellSet_in g x y v c :
  inGrid g x y → cellAt g x y = Ok c →
  ∃ g', cellSet g x y v = Ok g' ∧
        (length <$> g') = (length <$> g) ∧
        tokenBag g' ⊎ cellBag c = tokenBag g ⊎ cellBag v.
Proof.
  intros Hin Hc.
  destruct (inGrid_cellAt _ _ _ Hin) as (col & c' & Hcol & Hy & Hc').
  assert (c' = c) as -> by congruence.
  destruct (cellSet_inGrid g x y v Hin) as (g' & Hset & Hshape).
  exists g'. split; [done|]. split; [done|].
  unfold cellSet in Hset. rewrite Hcol in Hset. injection Hset as <-.
  unfold arraySet. rewrite decide_True by (by eapply lookup_lt_Some).
  pose proof (tokenBag_insert g x col (<[y:=v]> col) Hcol) as Hg.
  pose proof (colBag_insert col y c v Hy) as Hcb.
  multiset_solver.
Qed.

(** ** The gravity pass *)

Lemma sameTokens_refl st : wfBoard st → sameTokens st st.
Proof. by unfold sameTokens. Qed.

Lemma sameTokens_trans st1 st2 st3 :
  sameTokens st1 st2 → sameTokens st2 st3 → sameTokens st1 st3.
Proof.
  unfold sameTokens. intros (?&?&?&?&?&?&Ht1) (?&?&?&?&?&?&Ht2).
  repeat split; try congruence.
  all: intros; by rewrite Ht2, Ht1.
Qed.

Lemma fall_column x n : ∀ fallDistance st,
  wfBoard st → x < width st → n + fallDistance ≤ height st →
  (∀ k, n ≤ k < n + fallDistance → cellAt (gems st) x k = Ok None) →
  ∃ fd' st',
    forEachM (fallStep x) (reverse (seq 0 n)) (fallDistance, st)
    = Ok (fd', st') ∧ sameTokens st st'.
Proof.
  induction n as [|n IH]; intros fd st Hwf Hx Hfd Hgap.
  { exists fd, st. split; [done|]. by apply sameTokens_refl. }
  rewrite seq_S, reverse_snoc. simpl.
  assert (Hin : inGrid (gems st) x n) by (apply wfBoard_inGrid; [done..|lia]).
  destruct (inGrid_cellAt _ _ _ Hin) as (col & c & _ & _ & Hc).
  rewrite Hc. simpl. destruct c as [gem|].
  - destruct fd as [|fd]; simpl.
    + apply IH; [done..|lia|]. intros k Hk. lia.
    + destruct (cellSet_in (gems st) x n None (Some gem) Hin Hc)
        as (g1 & E1 & S1 & B1).
      rewrite E1. simpl.
      assert (Hin2 : inGrid g1 x (n + S fd)).
      { eapply inGrid_shape; [done|]. apply wfBoard_inGrid; [done..|lia]. }
      assert (Hc2 : cellAt g1 x (n + S fd) = Ok None).
      { rewrite (cellSet_cellAt _ _ _ _ _ x (n + S fd) E1).
        rewrite decide_False by lia. apply Hgap. lia. }
      destruct (cellSet_in g1 x (n + S fd) (Some gem) None Hin2 Hc2)
        as (g2 & E2 & S2 & B2).
      rewrite E2. simpl.
      set (st1 := setGems (setHeap st _) g2).
      assert (Hst1 : sameTokens st st1).
      { unfold sameTokens, wfBoard, st1. simpl.
        repeat split; try done.
        - rewrite S2, S1. apply Hwf.
        - simpl in *. multiset_solver.
        - intros r. apply setGridY_gemType. }
      destruct (IH (S fd) st1) as (fd' & st' & E & Hs).
      * apply Hst1.
      * by destruct Hst1 as (_ & -> & _).
      * destruct Hst1 as (_ & _ & -> & _). lia.
      * intros k Hk. unfold st1. simpl.
        rewrite (cellSet_cellAt _ _ _ _ _ x k E2).
        rewrite decide_False by lia.
        rewrite (cellSet_cellAt _ _ _ _ _ x k E1).
        case_decide; [done|]. apply Hgap. lia.
      * exists fd', st'. split; [done|]. by eapply sameTokens_trans.
  - apply IH; [done..|lia|]. intros k Hk.
    destruct (decide (k = n)) as [->|]; [done|]. apply Hgap. lia.
Qed.

Lemma gravity_columns st0 xs : ∀ st,
  sameTokens st0 st → (∀ x, x ∈ xs → x < width st0) →
  ∃ st', forEachM fallColumn xs st = Ok st' ∧ sameTokens st0 st'.
Proof.
  induction xs as [|x xs IH]; intros st Hs Hxs.
  { by exists st. }
  simpl.
  destruct (fall_column x (height st) 0 st) as (fd' & st1 & E & Hs1).
  - apply Hs.
  - destruct Hs as (_ & -> & _). apply Hxs. by left.
  - lia.
  - intros k Hk. lia.
  - assert (Hfc : fallColumn st x = Ok st1)
      by (unfold fallColumn; by rewrite E).
    rewrite Hfc. simpl. apply IH.
    + by eapply sameTokens_trans.
    + intros x' Hx'. apply Hxs. by right.
Qed.

(** C8: on a board of [width] columns of [height] cells the falling loops
    of [handleFalling] run to completion and leave the multiset of gem
    identities in the grid array as it was; no gem object is created and
    no gem changes type. *)
Theorem gravityPass_conserves_tokens st :
  wfBoard st →
  ∃ st', gravityPass st = Ok st' ∧
         tokenBag (gems st') = tokenBag (gems st) ∧
         nextRef st' = nextRef st ∧
         (∀ r, gemType (heap st' r) = gemType (heap st r)) ∧
         wfBoard st'.
Proof.
  intros Hwf. unfold gravityPass.
  destruct (gravity_columns st (seq 0 (width st)) st) as (st' & E & Hs).
  - by apply sameTokens_refl.
  - intros x Hx. apply elem_of_seq in Hx. lia.
  - exists st'. split; [done|].
    destruct Hs as (? & ? & ? & ? & ? & ? & ?). done.
Qed.

Example plusRemoved_is_removal :
  match removeMatches plusBoard
          [mkMatch [Some 4; Some 3; Some 7; Some 5; Some 1] L_shape] with
  | Ok st => gems st = gems plusRemoved
  | _ => False
  end.
Proof. vm_compute. reflexivity. Qed.

Lemma gravityPass_conserves_tokens_witness :
  wfBoard plusRemoved ∧
  ∃ st', gravityPass plusRemoved = Ok st' ∧
         tokenBag (gems st') = tokenBag (gems plusRemoved) ∧
         nextRef st' = nextRef plusRemoved ∧
         (∀ r, gemType (heap st' r) = gemType (heap plusRemoved r)) ∧
         wfBoard st'.
Proof.
  assert (H : wfBoard plusRemoved) by reflexivity.
  split; [exact H|]. exact (gravityPass_conserves_tokens plusRemoved H).
Defined.

Example gravityPass_plusRemoved :
  match gravityPass plusRemoved with
  | Ok st => gems st = [[None; Some 0; Some 2]; [None; None; None];
                        [None; Some 6; Some 8]]
             ∧ keyOf st 0 = (0, 1) ∧ keyOf st 6 = (2, 1)
  | _ => False
  end.
Proof. vm_compute. repeat split; reflexivity. Qed.

(** ** New gems always get a type *)

Lemma lookBack_length st a b inv inv' :
  lookBack st a b inv = Ok inv' → length inv' ≤ S (length inv).
Proof.
  unfold lookBack. case_decide; [|intros [= <-]; lia].
  destruct (typeOf st a); [|done]. intros [= <-]. rewrite length_app. simpl. lia.
Qed.

Lemma filter_allTypes (inv : list GemType) :
  length inv ≤ 2 → 4 ≤ length (filter (λ t, t ∉ inv) allTypes).
Proof.
  destruct inv as [|a [|b [|c inv]]]; simpl; intros Hl; [..|lia].
  - vm_compute. lia.
  - destruct a; vm_compute; lia.
  - destruct a, b; vm_compute; lia.
Qed.

(** [getAvailableGemTypes] filters out at most two of the six types. *)
Lemma getAvailableGemTypes_nonempty st x y ts :
  getAvailableGemTypes st x y = Ok ts → 4 ≤ length ts.
Proof.
  unfold getAvailableGemTypes.
  destruct ((x <? 2) && (y <? 2)); [intros [= <-]; simpl; lia|].
  intros H. apply bind_Ok in H as (inv1 & H1 & H).
  apply bind_Ok in H as (inv2 & H2 & [= <-]).
  apply filter_allTypes.
  assert (length inv1 ≤ 1).
  { destruct (2 <=? x); [|injection H1 as <-; simpl; lia].
    apply bind_Ok in H1 as (a & _ & H1). apply bind_Ok in H1 as (b & _ & H1).
    apply lookBack_length in H1. simpl in H1. lia. }
  destruct (2 <=? y); [|injection H2 as <-; lia].
  apply bind_Ok in H2 as (a & _ & H2). apply bind_Ok in H2 as (b & _ & H2).
  apply lookBack_length in H2. lia.
Qed.

(** So the index [createGemAt] computes is always inside
    [availableTypes]. *)
Lemma createGemAt_defined st x y ts :
  getAvailableGemTypes st x y = Ok ts →
  ∃ gem st', createGemAt st x y = Ok (gem, st').
Proof.
  intros H. unfold createGemAt. rewrite H. simpl.
  pose proof (getAvailableGemTypes_nonempty _ _ _ _ H) as Hlen.
  destruct (lookup_lt_is_Some_2 ts (rng st (draws st) `mod` length ts))
    as [t Ht].
  { apply Nat.mod_upper_bound. lia. }
  rewrite Ht. eauto.
Qed.

Lemma createGemAt_fields st x y gem st1 :
  createGemAt st x y = Ok (gem, st1) →
  gems st1 = gems st ∧ width st1 = width st ∧ height st1 = height st.
Proof.
  unfold createGemAt. intros H. apply bind_Ok in H as (ts & _ & H).
  destruct (ts !! _); [|done]. by injection H as <- <-.
Qed.

(** ** Removal only removes, refill only adds *)

(** [removeMatches] takes gems out of the grid array and creates none. *)
Lemma removeMatches_only_removes st matches st' :
  removeMatches st matches = Ok st' →
  tokenBag (gems st') ⊆ tokenBag (gems st) ∧ nextRef st' = nextRef st.
Proof.
  unfold removeMatches. intros H.
  set (R := λ s s' : GemGrid,
         tokenBag (gems s') ⊆ tokenBag (gems s) ∧ nextRef s' = nextRef s).
  assert (HRrefl : ∀ s, R s s) by (by intros s; split).
  assert (HRtrans : ∀ s1 s2 s3, R s1 s2 → R s2 s3 → R s1 s3).
  { intros s1 s2 s3 [? ?] [? ?]. split; [multiset_solver|congruence]. }
  eapply (forEachM_inv _ R (λ _ _, True)) in H; [by destruct H|done..|].
  intros s m s' Hm. split; [|done].
  eapply (forEachM_inv _ R (λ _ _, True)) in Hm; [by destruct Hm|done..|].
  intros s1 gem s2 Hg. split; [|done].
  apply bind_Ok in Hg as (r & _ & Hg).
  apply bind_Ok in Hg as (g & Hset & [= <-]).
  destruct (cellSet_cellAt_defined _ _ _ _ _ Hset) as [c Hc].
  pose proof (cellSet_bag _ _ _ _ _ _ Hc Hset). simpl in *.
  split; [multiset_solver|done].
Qed.

(** [refillBoard] puts new gems into the grid array and takes none out. *)
Lemma refillBoard_only_adds st st' :
  refillBoard st = Ok st' → tokenBag (gems st) ⊆ tokenBag (gems st').
Proof.
  unfold refillBoard. intros H.
  set (R := λ s s' : GemGrid, tokenBag (gems s) ⊆ tokenBag (gems s')).
  assert (HRrefl : ∀ s, R s s) by (intros s; unfold R; multiset_solver).
  assert (HRtrans : ∀ s1 s2 s3, R s1 s2 → R s2 s3 → R s1 s3).
  { intros s1 s2 s3 ? ?. unfold R in *. multiset_solver. }
  eapply (forEachM_inv _ R (λ _ _, True)) in H; [by destruct H|done..|].
  intros s x s' Hx. split; [|done].
  eapply (forEachM_inv _ R (λ _ _, True)) in Hx; [by destruct Hx|done..|].
  intros s1 y s2 Hy. split; [|done]. unfold refillCell in Hy.
  apply bind_Ok in Hy as (c & Hc & Hy). destruct c as [r|].
  { injection Hy as <-. apply HRrefl. }
  apply bind_Ok in Hy as ([gem s1'] & Hcreate & Hy).
  apply bind_Ok in Hy as (g & Hset & [= <-]).
  destruct (createGemAt_fields _ _ _ _ _ Hcreate) as (Eg & _).
  rewrite Eg in Hset.
  pose proof (cellSet_bag _ _ _ _ _ _ Hc Hset). unfold R. simpl in *.
  multiset_solver.
Qed.

(** ** Cascade resolution *)

Lemma keepsFilled_refl st : keepsFilled st st.
Proof. by unfold keepsFilled. Qed.

Lemma keepsFilled_trans s1 s2 s3 :
  keepsFilled s1 s2 → keepsFilled s2 s3 → keepsFilled s1 s3.
Proof.
  unfold keepsFilled. intros (?&?&H1) (?&?&H2).
  repeat split; [congruence..|]. auto.
Qed.

Lemma refillCell_fills x st y st' :
  refillCell x st y = Ok st' → keepsFilled st st' ∧ filled st' x y.
Proof.
  unfold refillCell.
  intros H. apply bind_Ok in H as (c & Hc & H). destruct c as [r|].
  - injection H as <-. split; [apply keepsFilled_refl|by exists r].
  - apply bind_Ok in H as ([gem st1] & Hcreate & H).
    apply bind_Ok in H as (g & Hset & [= <-]).
    destruct (createGemAt_fields _ _ _ _ _ Hcreate) as (Eg & Ew & Eh).
    rewrite Eg in Hset.
    split; [split; [done|split; [done|]]|].
    + intros x' y' [r Hr]. unfold filled. simpl.
      rewrite (cellSet_cellAt _ _ _ _ _ x' y' Hset).
      case_decide; eauto.
    + exists gem. simpl. rewrite (cellSet_cellAt _ _ _ _ _ x y Hset).
      by rewrite decide_True.
Qed.

Lemma refillBoard_full st st' :
  refillBoard st = Ok st' → keepsFilled st st' ∧ fullBoard st'.
Proof.
  unfold refillBoard. intros H.
  eapply (forEachM_inv _ keepsFilled
            (λ x s, ∀ y, y < height s → filled s x y)) in H.
  - destruct H as [HR HP]. split; [done|].
    intros x y Hx Hy. apply HP; [|done].
    apply elem_of_seq. destruct HR as (Ew & _). lia.
  - apply keepsFilled_refl.
  - apply keepsFilled_trans.
  - intros x s s' HP (_ & Hh & Hmono) y Hy. apply Hmono, HP. lia.
  - intros s x s' Hcol.
    eapply (forEachM_inv _ keepsFilled (λ y s, filled s x y)) in Hcol.
    + destruct Hcol as [HR HP]. split; [done|].
      intros y Hy. apply HP, elem_of_seq. destruct HR as (_ & Eh & _). lia.
    + apply keepsFilled_refl.
    + apply keepsFilled_trans.
    + intros y s1 s2 HP (_ & _ & Hmono). by apply Hmono.
    + intros s1 y s2. apply refillCell_fills.
Qed.

Lemma gravityPass_full st : fullBoard st → gravityPass st = Ok st.
Proof.
  intros Hfull. unfold gravityPass. apply forEachM_id.
  intros x Hx. apply elem_of_seq in Hx. unfold fallColumn.
  rewrite (forEachM_id _ _ (0, st)); [done|].
  intros y Hy. apply elem_of_reverse, elem_of_seq in Hy.
  destruct (Hfull x y) as [r Hr]; [lia..|]. simpl. by rewrite Hr.
Qed.

Lemma refillBoard_on_full st : fullBoard st → refillBoard st = Ok st.
Proof.
  intros Hfull. unfold refillBoard. apply forEachM_id.
  intros x Hx. apply elem_of_seq in Hx. apply forEachM_id.
  intros y Hy. apply elem_of_seq in Hy.
  destruct (Hfull x y) as [r Hr]; [lia..|]. unfold refillCell. by rewrite Hr.
Qed.

(** Whatever the scene, a cascade that returns leaves a full board
    without a match. *)
Lemma processMatches_stable scene fuel : ∀ st matches trace st',
  processMatches scene fuel st matches = Ok (trace, st') →
  findMatches st' = Ok [] ∧ fullBoard st'.
Proof.
  induction fuel as [|fuel IH]; intros st ms trace st' H; [done|].
  simpl in H.
  apply bind_Ok in H as (_ & _ & H).
  apply bind_Ok in H as (_ & _ & H).
  apply bind_Ok in H as (st1 & _ & H).
  apply bind_Ok in H as (st2 & Hfall & H).
  apply bind_Ok in H as (newMatches & Hfind & H).
  destruct (0 <? length newMatches) eqn:Hlen.
  - apply bind_Ok in H as ([trace' st3] & Hrec & [= _ <-]).
    by eapply IH.
  - injection H as _ <-. apply length_zero_nil in Hlen as ->.
    split; [done|].
    unfold handleFalling in Hfall. apply bind_Ok in Hfall as (s & _ & Hre).
    by apply refillBoard_full in Hre as [_ ?].
Qed.



Example cascadeBoard_report : findMatches cascadeBoard = Ok cascadeMatches.
Proof. vm_compute. reflexivity. Qed.

(** ** The board invariant *)

(** [boardOk] holds of the boards the examples start from,
    and every player action that returns re-establishes it: the swap, the
    removal, the falling loops, the refill and the whole resolution.  It is
    what gives the two gems of a swap the [onBoard] property. *)

Lemma forEachM_pres {A S} (f : S → A → result S) (I : S → Prop) l :
  (∀ s a s', a ∈ l → I s → f s a = Ok s' → I s') →
  ∀ s s', I s → forEachM f l s = Ok s' → I s'.
Proof.
  induction l as [|a l IH]; intros Hstep s s' Hs H; simpl in H.
  - by injection H as <-.
  - apply bind_Ok in H as (s1 & H1 & H2).
    assert (Hs1 : I s1) by (eapply Hstep; [by left|done..]).
    revert H2. apply IH; [|done].
    intros s2 b s3 Hb. apply Hstep. by right.
Qed.

Lemma gridRefs_cellAt st r :
  r ∈ gridRefs st → ∃ x y, cellAt (gems st) x y = Ok (Some r).
Proof.
  unfold gridRefs. intros H. apply list_elem_of_omap in H as (c & Hc & Hr).
  simpl in Hr. subst. apply mjoin_cell in Hc as (x & col & y & Hx & Hy).
  exists x, y. unfold cellAt. by rewrite Hx, Hy.
Qed.

Lemma consistent_onBoard st r :
  consistent st → r ∈ gridRefs st → onBoard st r.
Proof.
  intros Hc Hr. apply gridRefs_cellAt in Hr as (x & y & Hxy).
  destruct (Hc x y r Hxy) as [Hk _]. unfold onBoard.
  unfold keyOf in Hk. by injection Hk as -> ->.
Qed.

Lemma boardOk_same st st' :
  gems st' = gems st → heap st' = heap st →
  width st' = width st → height st' = height st → nextRef st' = nextRef st →
  boardOk st → boardOk st'.
Proof.
  unfold boardOk, wfBoard, consistent, keyOf.
  intros -> -> -> -> ->. done.
Qed.

Lemma gridMatch_same st st' ms :
  gems st' = gems st → Forall (gridMatch st) ms → Forall (gridMatch st') ms.
Proof.
  intros Eg. apply Forall_impl. intros m Hm c Hc.
  destruct (Hm c Hc) as (r & -> & Hr). exists r. split; [done|].
  unfold gridRefs in *. by rewrite Eg.
Qed.

(** The boards built from rows satisfy the invariant. *)
Lemma boardOfRows_boardOk rows rand : boardOk (boardOfRows rows rand).
Proof.
  unfold boardOfRows. set (h := length rows).
  set (w := length (default [] (rows !! 0))).
  split.
  - unfold wfBoard. simpl. rewrite <- list_fmap_compose.
    apply list_eq. intros x.
    rewrite list_lookup_fmap.
    destruct (decide (x < w)) as [Hx|Hx].
    + rewrite lookup_seq_lt by done. simpl.
      rewrite length_fmap, length_seq. by rewrite lookup_replicate_2.
    + rewrite lookup_seq_ge by lia. simpl. symmetry.
      apply lookup_replicate_None. lia.
  - intros x y r Hr. unfold cellAt in Hr. simpl in Hr.
    rewrite list_lookup_fmap in Hr.
    destruct (decide (x < w)) as [Hx|Hx];
      [|by rewrite lookup_seq_ge in Hr by lia].
    rewrite lookup_seq_lt in Hr by done. simpl in Hr.
    rewrite list_lookup_fmap in Hr.
    destruct (decide (y < h)) as [Hy|Hy];
      [|by rewrite lookup_seq_ge in Hr by lia].
    rewrite lookup_seq_lt in Hr by done. simpl in Hr.
    injection Hr as <-. unfold keyOf. simpl. split; [|nia].
    f_equal.
    + rewrite Nat.div_add_l by lia. rewrite Nat.div_small by done. lia.
    + rewrite Nat.add_comm, Nat.Div0.mod_add. by apply Nat.mod_small.
Qed.

(** The exchange of [swapGems] on two different gems of the grid. *)
Lemma exchangeGems_boardOk st a b :
  boardOk st → a ∈ gridRefs st → b ∈ gridRefs st → a ≠ b →
  ∃ st', exchangeGems st a b = Ok st' ∧ boardOk st' ∧
         (∀ r, r ∈ gridRefs st' ↔ r ∈ gridRefs st).
Proof.
  intros [Hwf Hc] Ha Hb Hne.
  apply gridRefs_cellAt in Ha as (xa & ya & Ca).
  apply gridRefs_cellAt in Hb as (xb & yb & Cb).
  destruct (Hc _ _ _ Ca) as [Ka La], (Hc _ _ _ Cb) as [Kb Lb].
  unfold keyOf in Ka, Kb. injection Ka as Xa Ya. injection Kb as Xb Yb.
  unfold exchangeGems. set (h1 := swapCoords (heap st) a b).
  assert (E1 : h1 a = mkGem (gemType (heap st a)) xb yb).
  { unfold h1. rewrite swapCoords_spec by done. rewrite decide_True by done.
    by rewrite Xb, Yb. }
  assert (E2 : h1 b = mkGem (gemType (heap st b)) xa ya).
  { unfold h1. rewrite swapCoords_spec by done.
    rewrite decide_False by done. rewrite decide_True by done.
    by rewrite Xa, Ya. }
  assert (Hother : ∀ r, r ≠ a → r ≠ b → h1 r = heap st r).
  { intros r ? ?. unfold h1. rewrite swapCoords_spec by done.
    by rewrite !decide_False by done. }
  assert (Hcells : (xa, ya) ≠ (xb, yb)).
  { intros [= -> ->]. rewrite Ca in Cb. by injection Cb. }
  destruct (placeBoth_spec h1 (gems st) a b) as (g' & Hp & Hs & C).
  { rewrite E1. simpl. by eapply cellAt_Some_inGrid. }
  { rewrite E2. simpl. by eapply cellAt_Some_inGrid. }
  rewrite E1, E2 in C. simpl in C.
  rewrite Hp. simpl. eexists. split; [done|].
  split; [split|].
  - unfold wfBoard. simpl. rewrite Hs. apply Hwf.
  - intros x y r Hr. simpl in Hr. rewrite C in Hr.
    unfold keyOf. simpl. fold h1.
    repeat case_decide.
    + injection Hr as <-. rewrite E2. simpl. split; [f_equal; lia|done].
    + injection Hr as <-. rewrite E1. simpl. split; [f_equal; lia|done].
    + destruct (Hc _ _ _ Hr) as [Kr Lr]. split; [|done].
      unfold keyOf in Kr. injection Kr as Xr Yr.
      rewrite Hother; [by rewrite Xr, Yr|intros ->..]; lia.
  - intros r. split.
    + intros Hr. apply gridRefs_cellAt in Hr as (x & y & Hr).
      simpl in Hr. rewrite C in Hr. repeat case_decide.
      * injection Hr as <-. by eapply cellAt_gridRefs.
      * injection Hr as <-. by eapply cellAt_gridRefs.
      * by eapply cellAt_gridRefs.
    + intros Hr. apply gridRefs_cellAt in Hr as (x & y & Hr).
      destruct (Hc _ _ _ Hr) as [Kr _].
      unfold keyOf in Kr. injection Kr as Xr Yr.
      destruct (decide (r = a)) as [->|Hra].
      { apply (cellAt_gridRefs (setGems (setHeap st h1) g') xb yb).
        simpl. rewrite C. rewrite decide_False by (intros [-> ->]; done).
        by rewrite decide_True. }
      destruct (decide (r = b)) as [->|Hrb].
      { apply (cellAt_gridRefs (setGems (setHeap st h1) g') xa ya).
        simpl. rewrite C. by rewrite decide_True. }
      apply (cellAt_gridRefs (setGems (setHeap st h1) g') x y).
      simpl. rewrite C.
      rewrite decide_False.
      2:{ intros [-> ->]. rewrite Hr in Ca. by injection Ca. }
      rewrite decide_False; [done|].
      intros [-> ->]. rewrite Hr in Cb. by injection Cb.
Qed.

(** [removeMatches] on matches made of gems of the grid. *)
Lemma removeMatches_boardOk st matches :
  boardOk st → Forall (gridMatch st) matches →
  ∃ st', removeMatches st matches = Ok st' ∧ boardOk st'.
Proof.
  intros [Hwf Hc] Hms. unfold removeMatches.
  set (J := λ s : GemGrid,
         consistent s ∧ heap s = heap st ∧
         (length <$> gems s) = (length <$> gems st) ∧
         width s = width st ∧ height s = height st).
  destruct (forEachM_total
              (λ st m, forEachM (λ st gem,
                   r ← deref gem;
                   g ← cellSet (gems st) (gridX (heap st r))
                               (gridY (heap st r)) None;
                   Ok (setGems st g)) (mgems m) st) J matches)
    with (s := st) as (st' & E & HJ).
  - intros s m Hm Hs.
    apply (forEachM_total _ J); [|done].
    intros s1 gem Hgem (Hc1 & Hh1 & Hs1 & Hw1 & Hht1).
    destruct (proj1 (list.Forall_forall _ _) Hms m Hm gem Hgem)
      as (r & -> & Hr).
    simpl. apply gridRefs_cellAt in Hr as (x & y & Hr).
    destruct (Hc _ _ _ Hr) as [Kr _]. unfold keyOf in Kr.
    injection Kr as Xr Yr. rewrite Hh1, Xr, Yr.
    destruct (cellSet_inGrid (gems s1) x y None) as (g' & Eg & Sg).
    { eapply inGrid_shape; [done|]. by eapply cellAt_Some_inGrid. }
    rewrite Eg. simpl. eexists. split; [done|].
    unfold J. simpl. split_and!; try done; [|congruence].
    intros x' y' r' Hr'. simpl in Hr'.
    rewrite (cellSet_cellAt _ _ _ _ _ x' y' Eg) in Hr'.
    case_decide; [done|]. by apply Hc1.
  - unfold J. by split_and!.
  - exists st'. split; [done|].
    destruct HJ as (Hc' & _ & Hs' & Hw' & Hh').
    split; [|done]. unfold wfBoard in *. by rewrite Hs', Hw', Hh'.
Qed.

Lemma fallStep_consistent x fd st y fd' st' :
  consistent st → fallStep x (fd, st) y = Ok (fd', st') → consistent st'.
Proof.
  intros Hc H. unfold fallStep in H.
  apply bind_Ok in H as (c & Hcell & H). destruct c as [gem|].
  2:{ by injection H as _ <-. }
  destruct (0 <? fd); [|by injection H as _ <-].
  apply bind_Ok in H as (g1 & E1 & H).
  apply bind_Ok in H as (g2 & E2 & [= _ <-]).
  destruct (Hc _ _ _ Hcell) as [Kg Lg]. unfold keyOf in Kg.
  injection Kg as Xg Yg.
  intros x' y' r Hr. simpl in Hr.
  rewrite (cellSet_cellAt _ _ _ _ _ x' y' E2) in Hr.
  rewrite (cellSet_cellAt _ _ _ _ _ x' y' E1) in Hr.
  unfold keyOf, setGridY, upd. simpl.
  repeat case_decide; try done.
  - injection Hr as <-. rewrite Nat.eqb_refl. simpl.
    split; [f_equal; lia|done].
  - destruct (Hc _ _ _ Hr) as [Kr Lr]. split; [|done].
    unfold keyOf in Kr. injection Kr as Xr Yr.
    destruct (Nat.eqb_spec r gem) as [->|]; [exfalso; lia|].
    by rewrite Xr, Yr.
Qed.

(** The falling loops. *)
Lemma gravityPass_boardOk st :
  boardOk st → ∃ st', gravityPass st = Ok st' ∧ boardOk st'.
Proof.
  intros [Hwf Hc].
  destruct (gravity_columns st (seq 0 (width st)) st) as (st' & E & Hs).
  { by apply sameTokens_refl. }
  { intros x Hx. apply elem_of_seq in Hx. lia. }
  exists st'. split; [done|]. split; [apply Hs|].
  revert E. apply forEachM_pres; [|done].
  intros s x s' _ Hcs Hcol. unfold fallColumn in Hcol.
  apply bind_Ok in Hcol as ([fd s1] & Hloop & [= <-]).
  revert Hloop.
  apply (forEachM_pres (fallStep x) (λ p : nat * GemGrid, consistent p.2));
    [|done].
  intros [fd1 s2] y [fd2 s3] _ H2 Hstep. simpl in *.
  by eapply fallStep_consistent.
Qed.

Lemma createGemAt_spec st x y gem st1 :
  createGemAt st x y = Ok (gem, st1) →
  ∃ t, gem = nextRef st ∧ gems st1 = gems st ∧
       heap st1 = upd (heap st) (nextRef st) (mkGem t x y) ∧
       nextRef st1 = S (nextRef st) ∧
       width st1 = width st ∧ height st1 = height st.
Proof.
  unfold createGemAt. intros H. apply bind_Ok in H as (ts & _ & H).
  destruct (ts !! _) as [t|]; [|done]. injection H as <- <-.
  by exists t.
Qed.

Lemma refillCell_boardOk x st y st' :
  x < width st → y < height st →
  boardOk st → refillCell x st y = Ok st' →
  boardOk st' ∧ width st' = width st ∧ height st' = height st.
Proof.
  intros Hx Hy [Hwf Hc] H. unfold refillCell in H.
  apply bind_Ok in H as (c & Hcell & H). destruct c as [r|].
  { by injection H as <-. }
  apply bind_Ok in H as ([gem st1] & Hcreate & H).
  apply bind_Ok in H as (g & Hset & [= <-]).
  destruct (createGemAt_spec _ _ _ _ _ Hcreate)
    as (t & -> & Eg & Eh & En & Ew & Eht).
  rewrite Eg in Hset.
  destruct (cellSet_inGrid (gems st) x y (Some (nextRef st)))
    as (g' & Eg' & Sg'); [by apply wfBoard_inGrid|].
  rewrite Eg' in Hset. injection Hset as <-.
  simpl. split; [|done]. split.
  - unfold wfBoard. simpl. rewrite Sg', Ew, Eht. apply Hwf.
  - intros x' y' r Hr. simpl in Hr.
    rewrite (cellSet_cellAt _ _ _ _ _ x' y' Eg') in Hr.
    unfold keyOf. simpl. rewrite Eh, En. unfold upd.
    case_decide as Hxy.
    + injection Hr as <-. rewrite Nat.eqb_refl. simpl.
      destruct Hxy as [-> ->]. split; [done|lia].
    + destruct (Hc _ _ _ Hr) as [Kr Lr].
      destruct (Nat.eqb_spec r (nextRef st)) as [->|]; [lia|].
      split; [done|lia].
Qed.

(** The refill. *)
Lemma refillBoard_boardOk st st' :
  boardOk st → refillBoard st = Ok st' → boardOk st'.
Proof.
  intros Hok H. unfold refillBoard in H.
  set (K := λ s : GemGrid,
         boardOk s ∧ width s = width st ∧ height s = height st).
  assert (HK : K st') ; [|by destruct HK].
  revert H. apply (forEachM_pres _ K); [|done].
  intros s x s' Hx (Hs & Hw & Hh) Hcol. apply elem_of_seq in Hx.
  assert (HK' : boardOk s' ∧ width s' = width s ∧ height s' = height s).
  { revert Hcol.
    apply (forEachM_pres _ (λ s1 : GemGrid,
             boardOk s1 ∧ width s1 = width s ∧ height s1 = height s)); [|done].
    intros s1 y s2 Hy (Hs1 & Hw1 & Hh1) Hcell. apply elem_of_seq in Hy.
    destruct (refillCell_boardOk x s1 y s2) as (? & ? & ?); [lia..|done|done|].
    split_and!; [done|congruence..]. }
  destruct HK' as (? & ? & ?). unfold K. split_and!; [done|congruence..].
Qed.

(** What [findMatches] reports is made of gems of the grid. *)
Lemma findMatches_gridMatch st ms :
  wfBoard st → findMatches st = Ok ms → Forall (gridMatch st) ms.
Proof.
  intros Hwf H.
  destruct (findMatches_total st Hwf) as (raw & ms' & _ & E & _ & _ & Hms).
  rewrite E in H. by injection H as <-.
Qed.

(** The resolution of a set of matches, whenever it returns. *)
Lemma processMatches_boardOk scene fuel : ∀ st matches trace st',
  boardOk st → Forall (gridMatch st) matches →
  processMatches scene fuel st matches = Ok (trace, st') → boardOk st'.
Proof.
  induction fuel as [|fuel IH]; intros st ms trace st' Hok Hms H; [done|].
  simpl in H.
  apply bind_Ok in H as (_ & _ & H).
  apply bind_Ok in H as (_ & _ & H).
  apply bind_Ok in H as (st1 & Hrem & H).
  apply bind_Ok in H as (st2 & Hfall & H).
  apply bind_Ok in H as (newMatches & Hfind & H).
  destruct (removeMatches_boardOk st ms Hok Hms) as (st1' & E1 & Hok1).
  rewrite E1 in Hrem. injection Hrem as ->.
  unfold handleFalling in Hfall. apply bind_Ok in Hfall as (sg & Hg & Hre).
  destruct (gravityPass_boardOk st1 Hok1) as (sg' & Eg & Hokg).
  rewrite Eg in Hg. injection Hg as ->.
  pose proof (refillBoard_boardOk _ _ Hokg Hre) as Hok2.
  destruct (0 <? length newMatches).
  - apply bind_Ok in H as ([trace' st3] & Hrec & [= _ <-]).
    eapply IH; [done| |done].
    apply findMatches_gridMatch; [apply Hok2|done].
  - by injection H as _ <-.
Qed.

(** A swap attempt on two different gems of the grid, whenever it
    returns: whether the swap is kept and resolved or undone, the board is
    again well formed and every gem again carries the coordinates of its
    cell. *)
Lemma trySwapGems_boardOk scene fuel st gem1 gem2 trace st' :
  boardOk st → gem1 ∈ gridRefs st → gem2 ∈ gridRefs st → gem1 ≠ gem2 →
  trySwapGems scene fuel st gem1 gem2 = Ok (trace, st') → boardOk st'.
Proof.
  intros Hok H1 H2 Hne H. unfold trySwapGems, swapGems in H.
  apply bind_Ok in H as (st1 & Hswap & H).
  apply bind_Ok in Hswap as (st1x & Hswap & Hs).
  apply bind_Ok in Hs as (_ & _ & [= ->]).
  apply bind_Ok in H as (ms & Hfind & H).
  apply bind_Ok in H as ([trace' st2] & Hres & [= _ <-]).
  destruct (exchangeGems_boardOk (setCanInput st false) gem1 gem2)
    as (st1' & E1 & Hok1 & Hrefs); [by eapply boardOk_same|done..|].
  rewrite E1 in Hswap. injection Hswap as ->.
  apply (boardOk_same st2); [done..|].
  destruct (0 <? length ms).
  - destruct (deselectGem_fields st1) as (Eg & Eh & Ew & Eht & En & _).
    eapply processMatches_boardOk; [| |done].
    + by eapply boardOk_same.
    + eapply gridMatch_same; [done|].
      apply findMatches_gridMatch; [apply Hok1|done].
  - apply bind_Ok in Hres as (st3 & Hback & [= _ <-]).
    apply bind_Ok in Hback as (st3x & Hback & Hs).
    apply bind_Ok in Hs as (_ & _ & [= ->]).
    destruct (exchangeGems_boardOk st1 gem2 gem1)
      as (st3' & E3 & Hok3 & _); [done|by apply Hrefs..|done|].
    rewrite E3 in Hback. injection Hback as ->.
    destruct (deselectGem_fields st3) as (Eg & Eh & Ew & Eht & En & _).
    by eapply boardOk_same.
Qed.

(** ** The deadlock check *)

(** C3 on the code: [wouldCreateMatch] restores [gem1] and then copies
    [gem1]'s coordinates into [gem2].  After [hasValidMoves] on
    [quietBoard] the grid array is as before, but the gem in cell (2, 2),
    like every other gem, carries the coordinates (0, 0). *)
Theorem hasValidMoves_overwrites_coordinates :
  match hasValidMoves quietBoard with
  | Ok (valid, st') =>
      valid = false ∧
      gems st' = gems quietBoard ∧
      cellAt (gems st') 2 2 = Ok (Some 8) ∧
      keyOf quietBoard 8 = (2, 2) ∧
      keyOf st' <$> seq 0 9 = replicate 9 (0, 0)
  | _ => False
  end.
Proof. vm_compute. repeat split; reflexivity. Qed.

Lemma hasValidMoves_keeps_grid st valid st' :
  hasValidMoves st = Ok (valid, st') → gems st' = gems st.
Proof.
  unfold hasValidMoves.
  set (R := λ s s' : GemGrid, gems s' = gems s).
  assert (HRtrans : ∀ s1 s2 s3, R s1 s2 → R s2 s3 → R s1 s3).
  { unfold R. congruence. }
  apply (anyM_inv _ R); [done|done|].
  intros s x b s1. apply (anyM_inv _ R); [done|done|].
  intros s2 y b2 s3 H. unfold probeCell in H.
  apply bind_Ok in H as (adj & _ & H). revert H.
  apply (anyM_inv _ R); [done|done|].
  intros s4 adjGem b4 s5 H. unfold probe in H.
  apply bind_Ok in H as (c & _ & H). unfold wouldCreateMatch in H.
  apply bind_Ok in H as (r1 & _ & H). apply bind_Ok in H as (r2 & _ & H).
  apply bind_Ok in H as (ms & _ & H). by injection H as _ <-.
Qed.

(** The deadlock check does not keep the board invariant: [quietBoard]
    satisfies it, the board [hasValidMoves] leaves does not. *)
Lemma hasValidMoves_breaks_consistent :
  boardOk quietBoard ∧
  ∃ valid st', hasValidMoves quietBoard = Ok (valid, st') ∧ ¬ consistent st'.
Proof.
  split; [apply boardOfRows_boardOk|].
  assert (F : match hasValidMoves quietBoard with
              | Ok (_, s) => cellAt (gems s) 2 2 = Ok (Some 8) ∧
                             keyOf s 8 = (0, 0)
              | _ => False
              end) by (vm_compute; done).
  destruct (hasValidMoves quietBoard) as [[valid st']| |]; [|done..].
  exists valid, st'. split; [done|]. intros Hc.
  destruct F as [Hcell Hkey]. destruct (Hc 2 2 8 Hcell) as [Hk _].
  congruence.
Qed.

(** The runs depend on the grid array and on the gems' types only, not
    on their coordinates. *)
Lemma rawMatches_coords_irrelevant st (h1 h2 : Heap) :
  (∀ r, gemType (h1 r) = gemType (h2 r)) →
  rawMatches (setHeap st h1) = rawMatches (setHeap st h2).
Proof.
  intros Ht.
  assert (Hstep : ∀ ty s xy,
            scanCell (setHeap st h1) ty s xy = scanCell (setHeap st h2) ty s xy).
  { intros ty [[ms run] cur] xy. unfold scanCell. simpl.
    destruct (cellAt (gems st) xy.1 xy.2) as [[r|]| |]; simpl; try done.
    unfold typeOf. simpl. by rewrite Ht. }
  assert (Hline : ∀ ty coords ms,
            scanLine (setHeap st h1) ty coords ms
            = scanLine (setHeap st h2) ty coords ms).
  { intros ty coords ms. unfold scanLine.
    by rewrite (forEachM_ext _ (scanCell (setHeap st h2) ty)). }
  unfold rawMatches. simpl.
  rewrite (forEachM_ext _ (λ m y, scanLine (setHeap st h2) horizontal
                                     ((λ x, (x, y)) <$> seq 0 (width st)) m))
    by done.
  destruct (forEachM _ (seq 0 (height st)) []); simpl; [|done..].
  by apply forEachM_ext.
Qed.

(** [wouldCreateMatch] leaves the grid array as it is, so what it tests
    is the board before the swap: when [hasValidMoves] answers [true],
    [findMatches] on the board it leaves is not empty. *)
Lemma hasValidMoves_true_has_match st st' ms :
  hasValidMoves st = Ok (true, st') → findMatches st' = Ok ms → ms ≠ [].
Proof.
  intros H. revert ms. revert H. unfold hasValidMoves.
  set (Q := λ s : GemGrid, ∀ ms, findMatches s = Ok ms → ms ≠ []).
  apply (anyM_true _ Q).
  intros s x s1. apply (anyM_true _ Q). intros s2 y s3 H.
  unfold probeCell in H.
  apply bind_Ok in H as (adj & _ & H). revert H. apply (anyM_true _ Q).
  intros s4 adjGem s5 H ms Hms. unfold probe in H.
  apply bind_Ok in H as (c & _ & H). unfold wouldCreateMatch in H.
  apply bind_Ok in H as (r1 & _ & H). apply bind_Ok in H as (r2 & _ & H).
  apply bind_Ok in H as (ms1 & Hfind1 & H).
  injection H as Hlen <-.
  set (h1 := swapCoords (heap s4) r1 r2) in *.
  match type of Hms with findMatches (setHeap _ ?h) = _ => set (h2 := h) in * end.
  assert (Ht : ∀ r, gemType (h1 r) = gemType (h2 r)).
  { intros r. unfold h2.
    by rewrite !setGridY_gemType, !setGridX_gemType,
               !setGridY_gemType, !setGridX_gemType. }
  pose proof (rawMatches_coords_irrelevant s4 h1 h2 Ht) as Hraw.
  unfold findMatches in Hfind1.
  destruct (rawMatches (setHeap s4 h1)) as [raw| |] eqn:Eraw; [|done..].
  assert (Hne : raw ≠ []).
  { intros ->. simpl in Hfind1. injection Hfind1 as <-. done. }
  intros ->. apply Hne.
  by apply (findMatches_empty_iff (setHeap s4 h2) raw []).
Qed.

(** ** Reshuffling *)

(** The loop of [reshuffleBoard] on a [w] x [h] board whose gems [G]
    all have type [t]. *)
Section MonochromeBoard.

Variables (w h : nat) (t : GemType) (G : nat → Prop).

Lemma setGridX_ok (hp : Heap) a v :
  (∀ r, G r → gemOk w h t (hp r)) → v < w →
  ∀ r, G r → gemOk w h t (setGridX hp a v r).
Proof.
  intros Hok Hv r Hr. unfold setGridX, upd.
  destruct (Nat.eqb_spec r a) as [->|]; [|by apply Hok].
  destruct (Hok a Hr) as (? & ? & ?). by split.
Qed.

Lemma setGridY_ok (hp : Heap) a v :
  (∀ r, G r → gemOk w h t (hp r)) → v < h →
  ∀ r, G r → gemOk w h t (setGridY hp a v r).
Proof.
  intros Hok Hv r Hr. unfold setGridY, upd.
  destruct (Nat.eqb_spec r a) as [->|]; [|by apply Hok].
  destruct (Hok a Hr) as (? & ? & ?). by split.
Qed.

Lemma swapCoords_ok (hp : Heap) a b :
  (∀ r, G r → gemOk w h t (hp r)) → G a → G b →
  ∀ r, G r → gemOk w h t (swapCoords hp a b r).
Proof.
  intros Hok Ha Hb. unfold swapCoords.
  pose proof (Hok a Ha) as (_ & Hxa & Hya).
  pose proof (Hok b Hb) as (_ & Hxb & Hyb).
  set (h1 := setGridX hp a (gridX (hp b))).
  assert (H1 : ∀ r, G r → gemOk w h t (h1 r)) by (by apply setGridX_ok).
  set (h2 := setGridY h1 a (gridY (h1 b))).
  assert (H2 : ∀ r, G r → gemOk w h t (h2 r)).
  { apply setGridY_ok; [done|]. by destruct (H1 b Hb) as (_ & _ & ?). }
  set (h3 := setGridX h2 b (gridX (hp a))).
  assert (H3 : ∀ r, G r → gemOk w h t (h3 r)) by (by apply setGridX_ok).
  by apply setGridY_ok.
Qed.

Lemma monoInv_cell st x y :
  monoInv w h t G st → x < w → y < h →
  ∃ r, cellAt (gems st) x y = Ok (Some r) ∧ G r ∧ inGrid (gems st) x y.
Proof.
  intros (_ & _ & _ & Hcells & _) Hx Hy.
  destruct (Hcells x y Hx Hy) as (r & Hr & HG).
  exists r. split; [done|]. split; [done|]. by eapply cellAt_Some_inGrid.
Qed.

Lemma monoInv_setHeap st hp :
  monoInv w h t G st → (∀ r, G r → gemOk w h t (hp r)) →
  monoInv w h t G (setHeap st hp).
Proof. intros (? & ? & ? & ? & _) Hok. unfold monoInv. by split_and!. Qed.

Lemma wouldCreateMatch_mono st r1 r2 :
  monoInv w h t G st → G r1 → G r2 →
  ∃ b st', wouldCreateMatch st (Some r1) (Some r2) = Ok (b, st') ∧
           monoInv w h t G st'.
Proof.
  intros Hinv H1 H2. unfold wouldCreateMatch. simpl.
  pose proof Hinv as (_ & _ & Hwf & _ & Hok).
  pose proof (swapCoords_ok (heap st) r1 r2 Hok H1 H2) as Hok1.
  destruct (findMatches_total (setHeap st (swapCoords (heap st) r1 r2)))
    as (raw & ms & _ & E & _); [done|].
  rewrite E. simpl. eexists _, _. split; [done|].
  apply monoInv_setHeap; [done|].
  pose proof (Hok r1 H1) as (_ & Hx1 & Hy1).
  set (h1 := swapCoords (heap st) r1 r2) in *.
  set (h2 := setGridX h1 r1 (gridX (heap st r1))).
  assert (Hok2 : ∀ r, G r → gemOk w h t (h2 r)) by (by apply setGridX_ok).
  set (h3 := setGridY h2 r1 (gridY (heap st r1))).
  assert (Hok3 : ∀ r, G r → gemOk w h t (h3 r)) by (by apply setGridY_ok).
  set (h4 := setGridX h3 r2 (gridX (h3 r1))).
  assert (Hok4 : ∀ r, G r → gemOk w h t (h4 r)).
  { apply setGridX_ok; [done|]. by destruct (Hok3 r1 H1) as (_ & ? & _). }
  apply setGridY_ok; [done|]. by destruct (Hok4 r1 H1) as (_ & _ & ?).
Qed.

Lemma getAdjacentGems_mono st x y :
  monoInv w h t G st →
  ∃ adjacent, getAdjacentGems st x y = Ok adjacent ∧
              ∀ c, c ∈ adjacent → ∃ r, c = Some r ∧ G r.
Proof.
  intros Hinv. unfold getAdjacentGems.
  apply (forEachM_total _ (λ adjacent : list (option nat),
                             ∀ c, c ∈ adjacent → ∃ r, c = Some r ∧ G r)).
  - intros adj dir _ Hadj. unfold pushNeighbour.
    destruct (isValidGridPosition st _ _) eqn:Hvalid; [|by exists adj].
    apply isValidGridPosition_spec in Hvalid as [Hx Hy].
    pose proof Hinv as (Ew & Eh & _).
    destruct (monoInv_cell st (Z.to_nat (Z.of_nat x + dir.1))
                (Z.to_nat (Z.of_nat y + dir.2)) Hinv) as (r & Hr & HG & _);
      [lia..|].
    rewrite Hr. simpl. eexists; split; [done|].
    intros c Hc. apply elem_of_app in Hc as [Hc|Hc]; [by apply Hadj|].
    apply list_elem_of_singleton in Hc as ->. by exists r.
  - intros c Hc. by apply elem_of_nil in Hc.
Qed.

Lemma hasValidMoves_mono st :
  monoInv w h t G st →
  ∃ valid st', hasValidMoves st = Ok (valid, st') ∧ monoInv w h t G st'.
Proof.
  intros Hinv. unfold hasValidMoves.
  pose proof Hinv as (Ew & _).
  apply (anyM_total _ (monoInv w h t G)); [|done].
  intros s x Hx Hs. apply elem_of_seq in Hx.
  pose proof Hs as (_ & Eh & _).
  apply (anyM_total _ (monoInv w h t G)); [|done].
  intros s1 y Hy Hs1. apply elem_of_seq in Hy. unfold probeCell.
  destruct (getAdjacentGems_mono s1 x y Hs1) as (adj & Eadj & Hadj).
  rewrite Eadj. simpl.
  apply (anyM_total _ (monoInv w h t G)); [|done].
  intros s2 adjGem Hin Hs2. unfold probe.
  destruct (monoInv_cell s2 x y Hs2) as (r1 & Hr1 & HG1 & _); [lia..|].
  rewrite Hr1. simpl.
  destruct (Hadj adjGem Hin) as (r2 & -> & HG2).
  by apply wouldCreateMatch_mono.
Qed.

Lemma placeBoth_mono st hp a b :
  monoInv w h t G st → (∀ r, G r → gemOk w h t (hp r)) → G a → G b →
  ∃ g', placeBoth hp (gems st) a b = Ok g' ∧
        (length <$> g') = (length <$> gems st) ∧
        ∀ x y, x < w → y < h → ∃ r, cellAt g' x y = Ok (Some r) ∧ G r.
Proof.
  intros Hinv Hok Ha Hb.
  pose proof Hinv as (Ew & Eh & Hwf & Hcells & _).
  pose proof (Hok a Ha) as (_ & Hxa & Hya).
  pose proof (Hok b Hb) as (_ & Hxb & Hyb).
  destruct (placeBoth_spec hp (gems st) a b) as (g' & E & Hs & Hc).
  - apply wfBoard_inGrid; [done|lia..].
  - apply wfBoard_inGrid; [done|lia..].
  - exists g'. split; [done|]. split; [done|].
    intros x y Hx Hy. rewrite Hc.
    repeat case_decide; [by exists b|by exists a|by apply Hcells].
Qed.

Lemma monoInv_allGems st c :
  monoInv w h t G st → c ∈ mjoin (gems st) → ∃ r, c = Some r ∧ G r.
Proof.
  intros Hinv Hc. apply mjoin_cell in Hc as (x & col & y & Hx & Hy).
  pose proof Hinv as (Ew & Eh & Hwf & Hcells & _).
  assert (Hs : (length <$> gems st) !! x = Some (length col))
    by (by rewrite list_lookup_fmap, Hx).
  rewrite Hwf in Hs. apply lookup_replicate in Hs as [Hlen Hxw].
  apply lookup_lt_Some in Hy as Hyh.
  destruct (Hcells x y) as (r & Hr & HG); [lia..|].
  unfold cellAt in Hr. rewrite Hx, Hy in Hr. simpl in Hr.
  injection Hr as ->. by exists r.
Qed.

Lemma shuffleGems_mono st :
  monoInv w h t G st → ∃ st', shuffleGems st = Ok st' ∧ monoInv w h t G st'.
Proof.
  intros Hinv. unfold shuffleGems.
  set (allGems := mjoin (gems st)).
  assert (Hall : ∀ i, i < length allGems →
            ∃ r, default None (allGems !! i) = Some r ∧ G r).
  { intros i Hi. destruct (lookup_lt_is_Some_2 allGems i Hi) as [c Hc].
    rewrite Hc. simpl. eapply monoInv_allGems; [done|].
    by eapply list_elem_of_lookup_2. }
  apply (forEachM_total _ (monoInv w h t G)); [|done].
  intros s i Hi Hs. apply elem_of_reverse, elem_of_seq in Hi.
  unfold shuffleStep.
  destruct (Hall i) as (gi & -> & HGi); [lia|].
  destruct (Hall (rng s (draws s) `mod` (i + 1))) as (gj & -> & HGj).
  { pose proof (Nat.mod_upper_bound (rng s (draws s)) (i + 1)). lia. }
  simpl.
  pose proof Hs as (Ew & Eh & Hwf & Hcells & Hok).
  pose proof (swapCoords_ok (heap s) gi gj Hok HGi HGj) as Hok'.
  destruct (placeBoth_mono s (swapCoords (heap s) gi gj) gi gj)
    as (g' & E & Hshape & Hc); [done..|].
  rewrite E. simpl. eexists; split; [done|].
  unfold monoInv, wfBoard. simpl. split_and!; try done.
  rewrite Hshape. apply Hwf.
Qed.

Lemma findMatches_mono st :
  monoInv w h t G st → 3 ≤ w → 1 ≤ h →
  ∃ ms, findMatches st = Ok ms ∧ (0 <? length ms) = true.
Proof.
  intros Hinv Hw Hh.
  pose proof Hinv as (Ew & Eh & Hwf & Hcells & Hok).
  destruct (findMatches_total st Hwf) as (raw & ms & Eraw & E & _ & Hne & _).
  exists ms. split; [done|].
  assert (Hraw : raw ≠ []).
  { unfold rawMatches in Eraw.
    rewrite Eh in Eraw at 1. destruct h as [|h']; [lia|].
    simpl in Eraw.
    destruct (scanLine_uniform st horizontal t
                ((λ x, (x, 0)) <$> seq 0 (width st)) [])
      as (ms1 & E1 & Hl1).
    { rewrite length_fmap, length_seq. lia. }
    { intros xy Hxy. apply list_elem_of_fmap in Hxy as (x & -> & Hx).
      apply elem_of_seq in Hx. simpl.
      destruct (Hcells x 0) as (r & Hr & HG); [lia..|].
      exists r. split; [done|]. by destruct (Hok r HG). }
    rewrite E1 in Eraw. simpl in Eraw.
    destruct (scanLine_total st horizontal
                ((λ x, (x, 0)) <$> seq 0 (width st)) []) as (ms1' & E1' & Hu1 & _);
      [done| |done|].
    { intros xy Hxy. apply list_elem_of_fmap in Hxy as (x & -> & Hx).
      apply elem_of_seq in Hx. simpl. lia. }
    assert (ms1' = ms1) as -> by congruence.
    destruct (scanRows_total st 1 (seq 1 h') ms1 Hwf) as (ms2 & E2 & H2).
    { split; [done|lia]. }
    rewrite E2 in Eraw. simpl in Eraw.
    destruct (scanColumns_total st 1 (seq 0 (width st)) ms2 Hwf)
      as (ms3 & E3 & _ & H3); [|done|].
    { intros x Hx. apply elem_of_seq in Hx. lia. }
    rewrite E3 in Eraw. injection Eraw as <-.
    intros ->. simpl in H3. lia. }
  specialize (Hne Hraw). destruct ms; [done|]. done.
Qed.

Lemma reshuffleLoop_mono :
  3 ≤ w → 1 ≤ h →
  ∀ fuel st, monoInv w h t G st → reshuffleLoop fuel st = OutOfFuel.
Proof.
  intros Hw Hh. induction fuel as [|fuel IH]; intros st Hinv; [done|].
  simpl.
  destruct (shuffleGems_mono st Hinv) as (st1 & E1 & Hinv1).
  rewrite E1. simpl.
  destruct (hasValidMoves_mono st1 Hinv1) as (valid & st2 & E2 & Hinv2).
  rewrite E2. simpl.
  destruct valid; simpl; [|by apply IH].
  destruct (findMatches_mono st2 Hinv2 Hw Hh) as (ms & E & Hlen).
  rewrite E. simpl. rewrite Hlen. by apply IH.
Qed.

End MonochromeBoard.

Lemma monochrome_monoInv st t :
  monochrome st t → monoInv (width st) (height st) t (onGrid st) st.
Proof.
  intros [Hwf Hcells]. unfold monoInv. split_and!; try done.
  - intros x y Hx Hy. destruct (Hcells x y Hx Hy) as (r & Hr & _).
    exists r. split; [done|]. by exists x, y.
  - intros r (x & y & Hx & Hy & Hr).
    destruct (Hcells x y Hx Hy) as (r' & Hr' & Hheap).
    assert (r' = r) as -> by congruence.
    rewrite Hheap. by split.
Qed.

Lemma reshuffleBoard_mono w h t G st fuel :
  3 ≤ w → 1 ≤ h → monoInv w h t G st → reshuffleBoard fuel st = OutOfFuel.
Proof.
  intros Hw Hh Hinv. unfold reshuffleBoard.
  rewrite (reshuffleLoop_mono w h t G Hw Hh); [done|].
  destruct Hinv as (? & ? & ? & ? & ?). unfold monoInv. by split_and!.
Qed.

(** C7, as the code has it: the loop of [reshuffleBoard] has no attempt
    bound and no failure exit.  On a full board whose gems all have one
    type, with at least three columns, every shuffle leaves a run of
    three, so the loop is still retrying after any number of attempts,
    whatever the random source. *)
Theorem reshuffleBoard_retries_forever st t fuel :
  monochrome st t → 3 ≤ width st → 1 ≤ height st →
  reshuffleBoard fuel st = OutOfFuel.
Proof.
  intros Hmono Hw Hh.
  eapply reshuffleBoard_mono; [exact Hw|exact Hh|].
  by apply monochrome_monoInv.
Qed.

Lemma monoBoard_monochrome rand : monochrome (monoBoard rand) RED.
Proof.
  split; [reflexivity|].
  intros x y Hx Hy. simpl in Hx, Hy.
  assert (y = 0) as -> by lia.
  destruct x as [|[|[|x]]]; [by exists 0|by exists 1|by exists 2|lia].
Qed.

Lemma reshuffleBoard_retries_forever_witness :
  monochrome (monoBoard (λ n, n)) RED ∧
  3 ≤ width (monoBoard (λ n, n)) ∧ 1 ≤ height (monoBoard (λ n, n)) ∧
  reshuffleBoard 100 (monoBoard (λ n, n)) = OutOfFuel.
Proof.
  assert (H1 : monochrome (monoBoard (λ n, n)) RED)
    by apply monoBoard_monochrome.
  assert (H2 : 3 ≤ width (monoBoard (λ n, n))) by (simpl; lia).
  assert (H3 : 1 ≤ height (monoBoard (λ n, n))) by (simpl; lia).
  repeat (split; [assumption|]).
  exact (reshuffleBoard_retries_forever (monoBoard (λ n, n)) RED 100 H1 H2 H3).
Defined.

(** C7 as stated fails: for the row of three red gems there is no number
    of attempts after which the reshuffle has returned or failed. *)
Lemma reshuffleBoard_has_no_bound :
  ¬ ∃ maxAttempts, ∀ rand,
      reshuffleBoard maxAttempts (monoBoard rand) ≠ OutOfFuel.
Proof.
  intros [n Hn]. apply (Hn (λ _, 0)).
  eapply (reshuffleBoard_mono 3 1 RED); [lia..|].
  apply (monochrome_monoInv _ _ (monoBoard_monochrome (λ _, 0))).
Qed.

(** On any board, a [true] from [hasValidMoves] means that the board as
    it stands has a match ([hasValidMoves_true_has_match]), so the exit
    test of the reshuffle loop,
    [hasValidMoves() && findMatches().length === 0], never passes: the
    loop returns on no board. *)
Lemma reshuffleLoop_never_returns fuel : ∀ st st',
  reshuffleLoop fuel st ≠ Ok st'.
Proof.
  induction fuel as [|fuel IH]; intros st st' H; [done|].
  simpl in H. apply bind_Ok in H as (st1 & _ & H).
  apply bind_Ok in H as ([valid st2] & Hvalid & H).
  destruct valid; simpl in H; [|by eapply IH].
  apply bind_Ok in H as (ms & Hms & H).
  destruct (0 <? length ms) eqn:Hlen; [by eapply IH|].
  apply length_zero_nil in Hlen as ->.
  by eapply hasValidMoves_true_has_match.
Qed.

(** ** What [findMatches] finds *)

(** The loop over the cells of a line is a fold of [scanStep] over what
    the cells hold. *)
Lemma scan_fold st ty coords cells : ∀ s,
  Forall2 (λ xy c, cellAt (gems st) xy.1 xy.2 = Ok c) coords cells →
  forEachM (scanCell st ty) coords s = Ok (foldl (scanStep st ty) s cells).
Proof.
  intros s H. revert s. induction H as [|xy c coords cells Hc _ IH]; intros s.
  { done. }
  cbn [forEachM foldl].
  assert (E : scanCell st ty s xy = Ok (scanStep st ty s c))
    by (unfold scanCell; by rewrite Hc).
  rewrite E. simpl. apply IH.
Qed.

Lemma line_cells st coords :
  wfBoard st → (∀ xy, xy ∈ coords → xy.1 < width st) →
  ∃ cells, Forall2 (λ xy c, cellAt (gems st) xy.1 xy.2 = Ok c) coords cells.
Proof.
  intros Hwf. induction coords as [|xy coords IH]; intros Hc.
  { exists []. constructor. }
  destruct IH as [cells Hcells]; [intros; apply Hc; by right|].
  destruct (cellAt_total st xy.1 xy.2 Hwf) as [c Hxy]; [apply Hc; by left|].
  exists (c :: cells). by constructor.
Qed.

Lemma hasTriple_suffix (a b : list (option GemType)) :
  hasTriple b → hasTriple (a ++ b).
Proof.
  intros (i & t & H1 & H2 & H3). exists (length a + i), t.
  rewrite !lookup_app_r by lia.
  replace (length a + i - length a) with i by lia.
  replace (length a + i + 1 - length a) with (i + 1) by lia.
  replace (length a + i + 2 - length a) with (i + 2) by lia. done.
Qed.

Lemma flushRun_short ty ms run : length run ≤ 2 → flushRun ty ms run = ms.
Proof.
  intros H. unfold flushRun. by destruct (Nat.leb_spec 3 (length run)); [lia|].
Qed.

Lemma flushRun_length ty ms run : length ms ≤ length (flushRun ty ms run).
Proof.
  unfold flushRun. destruct (3 <=? length run); [|done].
  rewrite length_app. simpl. lia.
Qed.

(** Without three equal types in a row the scan of a line pushes
    nothing. *)
Lemma fold_no_triple st ty cells : ∀ ms run cur,
  shortRun st run cur →
  ¬ hasTriple (typeOf st <$> (run ++ cells)) →
  ∃ run' cur', foldl (scanStep st ty) (ms, run, cur) cells = (ms, run', cur') ∧
               length run' ≤ 2.
Proof.
  induction cells as [|c cells IH]; intros ms run cur [Hlen Hrun] Hno.
  { by exists run, cur. }
  cbn [foldl].
  assert (Hreset : ∃ run' cur',
             foldl (scanStep st ty) (flushRun ty ms run, [c], typeOf st c) cells
             = (ms, run', cur') ∧ length run' ≤ 2).
  { rewrite flushRun_short by done. apply IH.
    - split; [simpl; lia|]. intros c' Hc'.
      by apply list_elem_of_singleton in Hc' as ->.
    - intros Ht. apply Hno. rewrite fmap_app. apply hasTriple_suffix.
      exact Ht. }
  unfold scanStep at 2. destruct c as [r|]; [|done].
  case_decide as Hcur; [|done].
  apply IH.
  - split.
    + rewrite length_app. simpl.
      destruct (decide (length run = 2)) as [H2|]; [|lia].
      exfalso. apply Hno.
      destruct run as [|a [|b [|]]]; try done.
      exists 0, (gemType (heap st r)). simpl.
      rewrite (Hrun a) by (by left).
      rewrite (Hrun b) by (right; by left). by rewrite Hcur.
    + intros c' Hc'. apply elem_of_app in Hc' as [Hc'|Hc']; [by apply Hrun|].
      by apply list_elem_of_singleton in Hc' as ->.
  - by rewrite <- app_assoc.
Qed.

(** The scan never takes a match back. *)
Lemma fold_grows st ty cells : ∀ ms run cur,
  length ms ≤ length (foldl (scanStep st ty) (ms, run, cur) cells).1.1.
Proof.
  induction cells as [|c cells IH]; intros ms run cur; [done|].
  cbn [foldl]. unfold scanStep at 2.
  pose proof (flushRun_length ty ms run).
  destruct c as [r|]; [case_decide|]; etrans; [|apply IH| |apply IH| |apply IH];
    done.
Qed.

(** A sequence of three or more is pushed, at the latest by the check
    after the loop. *)
Lemma fold_long_run st ty cells : ∀ ms run cur,
  3 ≤ length run →
  ∀ ms' run' cur',
    foldl (scanStep st ty) (ms, run, cur) cells = (ms', run', cur') →
    length ms < length (flushRun ty ms' run').
Proof.
  induction cells as [|c cells IH]; intros ms run cur Hlen ms' run' cur' H.
  { injection H as <- <- _. unfold flushRun.
    destruct (Nat.leb_spec 3 (length run)); [|lia].
    rewrite length_app. simpl. lia. }
  cbn [foldl] in H.
  assert (Hreset : ∀ c0 t0,
             foldl (scanStep st ty) (flushRun ty ms run, c0, t0) cells
             = (ms', run', cur') →
             length ms < length (flushRun ty ms' run')).
  { intros c0 t0 H0.
    pose proof (fold_grows st ty cells (flushRun ty ms run) c0 t0) as Hg.
    rewrite H0 in Hg. simpl in Hg.
    pose proof (flushRun_length ty ms' run').
    assert (length ms < length (flushRun ty ms run)); [|lia].
    unfold flushRun. destruct (Nat.leb_spec 3 (length run)); [|lia].
    rewrite length_app. simpl. lia. }
  unfold scanStep at 2 in H. destruct c as [r|]; [|by eapply Hreset].
  case_decide; [|by eapply Hreset].
  eapply IH; [|done]. rewrite length_app. simpl. lia.
Qed.

(** Three equal types in a row make the scan of the line push a
    match. *)
Lemma fold_triple st ty cells : ∀ ms run cur,
  hasTriple (typeOf st <$> cells) →
  ∀ ms' run' cur',
    foldl (scanStep st ty) (ms, run, cur) cells = (ms', run', cur') →
    length ms < length (flushRun ty ms' run').
Proof.
  induction cells as [|c cells IH]; intros ms run cur (i & t & H1 & H2 & H3).
  { done. }
  intros ms' run' cur' H.
  destruct i as [|i].
  - destruct cells as [|c2 [|c3 cells]]; try done.
    simpl in H1, H2, H3.
    destruct c as [r1|], c2 as [r2|], c3 as [r3|]; try done.
    simpl in H1, H2, H3.
    injection H1 as H1. injection H2 as H2. injection H3 as H3.
    cbn [foldl] in H.
    assert (Hstart : ∃ ms1 run1,
               scanStep st ty (ms, run, cur) (Some r1) = (ms1, run1, Some t) ∧
               length ms ≤ length ms1 ∧ 1 ≤ length run1).
    { unfold scanStep. case_decide as Hc.
      - eexists _, _. rewrite Hc, H1. split; [done|].
        rewrite length_app. simpl. lia.
      - eexists _, _. simpl. rewrite H1. split; [done|].
        split; [apply flushRun_length|simpl; lia]. }
    destruct Hstart as (ms1 & run1 & E1 & Hms1 & Hrun1).
    rewrite E1 in H.
    assert (E2 : scanStep st ty (ms1, run1, Some t) (Some r2)
                 = (ms1, run1 ++ [Some r2], Some t)).
    { unfold scanStep. by rewrite decide_True by (by rewrite H2). }
    rewrite E2 in H.
    assert (E3 : scanStep st ty (ms1, run1 ++ [Some r2], Some t) (Some r3)
                 = (ms1, (run1 ++ [Some r2]) ++ [Some r3], Some t)).
    { unfold scanStep. by rewrite decide_True by (by rewrite H3). }
    rewrite E3 in H.
    eapply Nat.le_lt_trans; [exact Hms1|].
    eapply fold_long_run; [|done]. rewrite !length_app. simpl. lia.
  - cbn [foldl] in H.
    destruct (scanStep st ty (ms, run, cur) c) as [[ms1 run1] cur1] eqn:E.
    assert (length ms ≤ length ms1).
    { pose proof (fold_grows st ty [c] ms run cur) as Hg.
      cbn [foldl] in Hg. by rewrite E in Hg. }
    eapply Nat.le_lt_trans; [done|].
    eapply IH; [|done]. by exists i, t.
Qed.

(** One line: its result depends on whether the line holds three equal
    types in a row. *)
Lemma scanLine_no_triple st ty coords cells ms :
  Forall2 (λ xy c, cellAt (gems st) xy.1 xy.2 = Ok c) coords cells →
  ¬ hasTriple (typeOf st <$> cells) →
  scanLine st ty coords ms = Ok ms.
Proof.
  intros Hcells Hno. unfold scanLine. rewrite (scan_fold _ _ _ _ _ Hcells).
  destruct (fold_no_triple st ty cells ms [] None) as (run' & cur' & E & Hl).
  { split; [simpl; lia|]. intros c Hc. by apply elem_of_nil in Hc. }
  { done. }
  rewrite E. simpl. by rewrite flushRun_short.
Qed.

Lemma scanLine_triple st ty coords cells ms ms' :
  Forall2 (λ xy c, cellAt (gems st) xy.1 xy.2 = Ok c) coords cells →
  hasTriple (typeOf st <$> cells) →
  scanLine st ty coords ms = Ok ms' → length ms < length ms'.
Proof.
  intros Hcells Htr. unfold scanLine. rewrite (scan_fold _ _ _ _ _ Hcells).
  destruct (foldl _ _ cells) as [[ms1 run1] cur1] eqn:E. simpl.
  intros [= <-]. by eapply fold_triple.
Qed.

Lemma scanLine_grows st ty coords ms ms' :
  scanLine st ty coords ms = Ok ms' → length ms ≤ length ms'.
Proof.
  unfold scanLine. intros H.
  apply bind_Ok in H as ([[ms1 run1] cur1] & Hloop & [= <-]).
  etrans; [|apply flushRun_length].
  revert Hloop.
  apply (forEachM_pres (scanCell st ty)
           (λ s : list Match * list (option nat) * option GemType,
              length ms ≤ length s.1.1)); [|done].
  intros [[m r] c] xy [[m' r'] c'] _ Hs Hstep. simpl in *.
  unfold scanCell in Hstep. apply bind_Ok in Hstep as (gem & _ & [= E]).
  change (scanStep st ty (m, r, c) gem = (m', r', c')) in E.
  pose proof (fold_grows st ty [gem] m r c) as Hg. cbn [foldl] in Hg.
  rewrite E in Hg. simpl in Hg. lia.
Qed.

Lemma line_types st coords cells :
  Forall2 (λ xy c, cellAt (gems st) xy.1 xy.2 = Ok c) coords cells →
  typeOf st <$> cells = (λ xy, typeAt st xy.1 xy.2) <$> coords.
Proof.
  induction 1 as [|xy c coords cells Hc _ IH]; [done|].
  csimpl. rewrite IH. f_equal. unfold typeAt. by rewrite Hc.
Qed.

Lemma typeAt_Some_bounds st x y t :
  wfBoard st → typeAt st x y = Some t → x < width st ∧ y < height st.
Proof.
  intros Hwf H. unfold typeAt in H.
  destruct (cellAt (gems st) x y) as [[r|]| |] eqn:E; try done.
  apply cellAt_Some_inGrid in E as (col & Hcol & Hy).
  assert (Hx : (length <$> gems st) !! x = Some (length col))
    by (by rewrite list_lookup_fmap, Hcol).
  rewrite Hwf in Hx. apply lookup_replicate in Hx as [Hh Hx]. lia.
Qed.

Lemma row_triple st y :
  hasTriple ((λ xy, typeAt st xy.1 xy.2) <$> ((λ x, (x, y)) <$> seq 0 (width st)))
  ↔ ∃ x, x + 2 < width st ∧ tripleH st x y.
Proof.
  rewrite <- list_fmap_compose. split.
  - intros (i & t & H1 & H2 & H3).
    rewrite list_lookup_fmap in H1, H2, H3.
    destruct (decide (i + 2 < width st)) as [Hi|Hi];
      [|by rewrite lookup_seq_ge in H3 by lia].
    rewrite lookup_seq_lt in H1, H2, H3 by lia. simpl in *.
    exists i. split; [done|]. exists t. by simplify_eq.
  - intros (x & Hx & t & H1 & H2 & H3). exists x, t.
    rewrite !list_lookup_fmap, !lookup_seq_lt by lia. simpl.
    by rewrite H1, H2, H3.
Qed.

Lemma column_triple st x :
  hasTriple ((λ xy, typeAt st xy.1 xy.2) <$> ((λ y, (x, y)) <$> seq 0 (height st)))
  ↔ ∃ y, y + 2 < height st ∧ tripleV st x y.
Proof.
  rewrite <- list_fmap_compose. split.
  - intros (i & t & H1 & H2 & H3).
    rewrite list_lookup_fmap in H1, H2, H3.
    destruct (decide (i + 2 < height st)) as [Hi|Hi];
      [|by rewrite lookup_seq_ge in H3 by lia].
    rewrite lookup_seq_lt in H1, H2, H3 by lia. simpl in *.
    exists i. split; [done|]. exists t. by simplify_eq.
  - intros (y & Hy & t & H1 & H2 & H3). exists y, t.
    rewrite !list_lookup_fmap, !lookup_seq_lt by lia. simpl.
    by rewrite H1, H2, H3.
Qed.

Lemma row_cells st y :
  wfBoard st →
  ∃ cells, Forall2 (λ xy c, cellAt (gems st) xy.1 xy.2 = Ok c)
                   ((λ x, (x, y)) <$> seq 0 (width st)) cells.
Proof.
  intros Hwf. apply line_cells; [done|]. intros xy Hxy.
  apply list_elem_of_fmap in Hxy as (x & -> & Hx).
  apply elem_of_seq in Hx. simpl. lia.
Qed.

Lemma column_cells st x :
  wfBoard st → x < width st →
  ∃ cells, Forall2 (λ xy c, cellAt (gems st) xy.1 xy.2 = Ok c)
                   ((λ y, (x, y)) <$> seq 0 (height st)) cells.
Proof.
  intros Hwf Hx. apply line_cells; [done|]. intros xy Hxy.
  by apply list_elem_of_fmap in Hxy as (y & -> & _).
Qed.

(** Without three gems of one type side by side or one below the other,
    the two scans find nothing. *)
Lemma rawMatches_no_triple st :
  wfBoard st → (∀ x y, ¬ tripleH st x y) → (∀ x y, ¬ tripleV st x y) →
  rawMatches st = Ok [].
Proof.
  intros Hwf HH HV. unfold rawMatches.
  rewrite forEachM_id.
  - simpl. apply forEachM_id. intros x Hx. apply elem_of_seq in Hx.
    destruct (column_cells st x Hwf) as [cells Hcells]; [lia|].
    apply (scanLine_no_triple _ _ _ cells); [done|].
    rewrite (line_types _ _ _ Hcells), column_triple.
    intros (y & _ & Ht). by apply (HV x y).
  - intros y _. destruct (row_cells st y Hwf) as [cells Hcells].
    apply (scanLine_no_triple _ _ _ cells); [done|].
    rewrite (line_types _ _ _ Hcells), row_triple.
    intros (x & _ & Ht). by apply (HH x y).
Qed.

Lemma scanRows_grow st ys ms ms' :
  forEachM (λ m y, scanLine st horizontal
                     ((λ x, (x, y)) <$> seq 0 (width st)) m) ys ms = Ok ms' →
  length ms ≤ length ms'.
Proof.
  apply (forEachM_pres _ (λ m : list Match, length ms ≤ length m)); [|done].
  intros m y m' _ Hm Hstep. apply scanLine_grows in Hstep. lia.
Qed.

Lemma scanColumns_grow st xs ms ms' :
  forEachM (λ m x, scanLine st vertical
                     ((λ y, (x, y)) <$> seq 0 (height st)) m) xs ms = Ok ms' →
  length ms ≤ length ms'.
Proof.
  apply (forEachM_pres _ (λ m : list Match, length ms ≤ length m)); [|done].
  intros m y m' _ Hm Hstep. apply scanLine_grows in Hstep. lia.
Qed.

Lemma seq_split_at n k :
  k < n → seq 0 n = seq 0 k ++ [k] ++ seq (S k) (n - S k).
Proof.
  intros H. replace n with (k + (1 + (n - S k))) at 1 by lia.
  rewrite !seq_app. simpl. by replace (k + 1) with (S k) by lia.
Qed.

Lemma forEachM_split {A S} (f : S → A → result S) l1 l2 s s' :
  forEachM f (l1 ++ l2) s = Ok s' →
  ∃ s1, forEachM f l1 s = Ok s1 ∧ forEachM f l2 s1 = Ok s'.
Proof.
  revert s. induction l1 as [|a l1 IH]; intros s H; [by exists s|].
  simpl in H. apply bind_Ok in H as (s0 & H0 & H).
  destruct (IH _ H) as (s1 & H1 & H2). exists s1. simpl. by rewrite H0.
Qed.

(** Three gems of one type side by side, or one below the other, are
    found. *)
Lemma rawMatches_triple st ms x y :
  wfBoard st → rawMatches st = Ok ms → tripleH st x y ∨ tripleV st x y →
  ms ≠ [].
Proof.
  intros Hwf H Htr. unfold rawMatches in H.
  apply bind_Ok in H as (ms1 & Hrows & Hcols).
  pose proof (scanColumns_grow _ _ _ _ Hcols) as Hg2.
  destruct Htr as [Ht|Ht].
  - assert (Hb : x + 2 < width st ∧ y < height st).
    { destruct Ht as (t & _ & _ & H3).
      by apply typeAt_Some_bounds in H3. }
    destruct Hb as [Hx Hy].
    rewrite (seq_split_at (height st) y) in Hrows by done.
    apply forEachM_split in Hrows as (m0 & _ & Hrows).
    apply forEachM_split in Hrows as (m1 & Hrow & Hrest).
    apply scanRows_grow in Hrest.
    simpl in Hrow. apply bind_Ok in Hrow as (m1' & Hrow & [= ->]).
    destruct (row_cells st y Hwf) as [cells Hcells].
    eapply scanLine_triple in Hrow; [|done|].
    + intros ->. simpl in *. lia.
    + rewrite (line_types _ _ _ Hcells), row_triple. by exists x.
  - assert (Hb : x < width st ∧ y + 2 < height st).
    { destruct Ht as (t & _ & _ & H3).
      by apply typeAt_Some_bounds in H3. }
    destruct Hb as [Hx Hy].
    rewrite (seq_split_at (width st) x) in Hcols by done.
    apply forEachM_split in Hcols as (m0 & _ & Hcols).
    apply forEachM_split in Hcols as (m1 & Hcol & Hrest).
    apply scanColumns_grow in Hrest.
    simpl in Hcol. apply bind_Ok in Hcol as (m1' & Hcol & [= ->]).
    destruct (column_cells st x Hwf Hx) as [cells Hcells].
    eapply scanLine_triple in Hcol; [|done|].
    + intros ->. simpl in *. lia.
    + rewrite (line_types _ _ _ Hcells), column_triple. by exists y.
Qed.

Lemma findMatches_empty_iff_no_triple_aux st :
  wfBoard st → (∀ x y, ¬ tripleH st x y) → (∀ x y, ¬ tripleV st x y) →
  findMatches st = Ok [].
Proof.
  intros Hwf HH HV. unfold findMatches.
  by rewrite rawMatches_no_triple.
Qed.

(** On a board of [width] columns of [height] cells, [findMatches]
    reports nothing exactly when no row holds three gems of one type side
    by side and no column three gems of one type one below the other. *)
Theorem findMatches_empty_iff_no_triple st :
  wfBoard st →
  findMatches st = Ok [] ↔ ∀ x y, ¬ tripleH st x y ∧ ¬ tripleV st x y.
Proof.
  intros Hwf. split.
  - intros H x y.
    destruct (findMatches_total st Hwf) as (raw & ms & Eraw & E & _).
    rewrite E in H. injection H as ->.
    assert (Hraw : raw = []) by (by apply (findMatches_empty_iff st raw [])).
    subst raw.
    split; intros Ht; by eapply (rawMatches_triple st [] x y); eauto.
  - intros H. apply findMatches_empty_iff_no_triple_aux; [done|..];
      intros x y; apply H.
Qed.

Lemma findMatches_empty_iff_no_triple_witness :
  wfBoard quietBoard ∧
  (findMatches quietBoard = Ok []
   ↔ ∀ x y, ¬ tripleH quietBoard x y ∧ ¬ tripleV quietBoard x y).
Proof.
  assert (H : wfBoard quietBoard) by reflexivity.
  split; [exact H|]. exact (findMatches_empty_iff_no_triple quietBoard H).
Defined.

(** ** Building the grid *)

(** A loop over [a, a + n) with an invariant indexed by the counter. *)
Lemma forEachM_seq {T} (f : T → nat → result T) (I : nat → T → Prop) n :
  ∀ a s,
    (∀ i s, a ≤ i < a + n → I i s → ∃ s', f s i = Ok s' ∧ I (S i) s') →
    I a s → ∃ s', forEachM f (seq a n) s = Ok s' ∧ I (a + n) s'.
Proof.
  induction n as [|n IH]; intros a s Hstep Hs.
  { exists s. split; [done|]. by rewrite Nat.add_0_r. }
  simpl. destruct (Hstep a s) as (s1 & E & Hs1); [lia|done|].
  rewrite E. simpl.
  destruct (IH (S a) s1) as (s' & E' & Hs'); [|done|].
  { intros i s2 Hi. apply Hstep. lia. }
  exists s'. split; [done|]. by replace (a + S n) with (S a + n) by lia.
Qed.

(** The type [createGemAt] picks for (x, y) completes no run of three
    with the two cells to its left, nor with the two cells above it. *)
Lemma getAvailableGemTypes_spec st x y :
  (2 ≤ x → ∃ a b, cellAt (gems st) (x - 1) y = Ok (Some a) ∧
                  cellAt (gems st) (x - 2) y = Ok (Some b)) →
  (2 ≤ y → ∃ a b, cellAt (gems st) x (y - 1) = Ok (Some a) ∧
                  cellAt (gems st) x (y - 2) = Ok (Some b)) →
  ∃ ts, getAvailableGemTypes st x y = Ok ts ∧
        ∀ t, t ∈ ts →
          (2 ≤ x → ¬ (typeAt st (x - 1) y = Some t ∧
                      typeAt st (x - 2) y = Some t)) ∧
          (2 ≤ y → ¬ (typeAt st x (y - 1) = Some t ∧
                      typeAt st x (y - 2) = Some t)).
Proof.
  intros Hx Hy. unfold getAvailableGemTypes, typeAt.
  destruct (Nat.ltb_spec x 2) as [Hx2|Hx2], (Nat.ltb_spec y 2) as [Hy2|Hy2],
           (Nat.leb_spec 2 x) as [Hx3|Hx3], (Nat.leb_spec 2 y) as [Hy3|Hy3];
    try lia; cbn [andb].
  { exists allTypes. split; [done|]. intros t _. split; intros; lia. }
  all: try (destruct (Hx Hx3) as (a & b & -> & ->)).
  all: try (destruct (Hy Hy3) as (c & d & -> & ->)).
  all: simpl; unfold lookBack; simpl.
  all: repeat (case_decide; simpl).
  all: eexists; (split; [reflexivity|]).
  all: intros t Ht; apply list_elem_of_filter in Ht as [Ht _].
  all: split; intros ?; try lia.
  all: intros [[= ?] [= ?]]; subst.
  all: try (apply Ht; by repeat constructor).
  all: try (match goal with H : Some _ ≠ Some _ |- _ => by apply H end).
  all: try (match goal with H : ¬ (Some _ = Some _) |- _ => apply H; congruence end).
Qed.

Lemma before_left h x y x' y' :
  y ≤ h → before h x y (x' + 2) y' →
  before h x y x' y' ∧ before h x y (x' + 1) y'.
Proof. unfold before. lia. Qed.

Lemma before_above h x y x' y' :
  before h x y x' (y' + 2) →
  before h x y x' y' ∧ before h x y x' (y' + 1).
Proof. unfold before. lia. Qed.

(** A change that leaves the cells before (x, y) and the gems allocated so
    far alone keeps what was built. *)
Lemma typeAt_frame st st' x y :
  goodCell st x y →
  cellAt (gems st') x y = cellAt (gems st) x y →
  (∀ r, r < nextRef st → heap st' r = heap st r) →
  typeAt st' x y = typeAt st x y.
Proof.
  intros (r & Hr & _ & Hlt) Hc Hh. unfold typeAt. rewrite Hc, Hr. simpl.
  by rewrite Hh.
Qed.

Lemma builtCells_frame h x y st st' :
  y ≤ h →
  (∀ x' y', before h x y x' y' →
            cellAt (gems st') x' y' = cellAt (gems st) x' y') →
  (∀ r, r < nextRef st → heap st' r = heap st r) →
  nextRef st ≤ nextRef st' →
  builtCells h x y st → builtCells h x y st'.
Proof.
  intros Hy Hc Hh Hn (Hgood & HH & HV).
  assert (Ht : ∀ x' y', before h x y x' y' →
                        typeAt st' x' y' = typeAt st x' y').
  { intros x' y' Hb. apply typeAt_frame; [by apply Hgood|by apply Hc|done]. }
  split_and!.
  - intros x' y' Hb. destruct (Hgood x' y' Hb) as (r & Hr & Hk & Hlt).
    exists r. rewrite Hc by done. unfold keyOf in *. rewrite Hh by done.
    split_and!; [done..|lia].
  - intros x' y' Hb (t & H1 & H2 & H3).
    destruct (before_left _ _ _ _ _ Hy Hb) as [Hb0 Hb1].
    apply (HH x' y' Hb). exists t.
    by rewrite <- (Ht x' y'), <- (Ht (x' + 1) y'), <- (Ht (x' + 2) y').
  - intros x' y' Hb (t & H1 & H2 & H3).
    destruct (before_above _ _ _ _ _ Hb) as [Hb0 Hb1].
    apply (HV x' y' Hb). exists t.
    by rewrite <- (Ht x' y'), <- (Ht x' (y' + 1)), <- (Ht x' (y' + 2)).
Qed.

(** One more cell. *)
Lemma builtCells_next h x y st :
  y < h → builtCells h x y st → goodCell st x y →
  (2 ≤ x → ¬ tripleH st (x - 2) y) → (2 ≤ y → ¬ tripleV st x (y - 2)) →
  builtCells h x (S y) st.
Proof.
  intros Hy (Hgood & HH & HV) Hnew HnH HnV.
  assert (Hcase : ∀ x' y', before h x (S y) x' y' →
                           before h x y x' y' ∨ (x' = x ∧ y' = y)).
  { unfold before. lia. }
  split_and!.
  - intros x' y' Hb. destruct (Hcase _ _ Hb) as [?|[-> ->]]; auto.
  - intros x' y' Hb. destruct (Hcase _ _ Hb) as [?|[Hx' ->]]; [auto|].
    replace x' with (x - 2) by lia. apply HnH. lia.
  - intros x' y' Hb. destruct (Hcase _ _ Hb) as [?|[-> Hy']]; [auto|].
    replace y' with (y - 2) by lia. apply HnV. lia.
Qed.

Lemma createCell_built w h x y st :
  y < h → columnBuilt w h x y st →
  ∃ st', createCell x st y = Ok st' ∧ columnBuilt w h x (S y) st'.
Proof.
  intros Hy (Hw & Hh & Hlen & _ & Hcols & (col & Hcol & Hcl) & Hcells).
  pose proof Hcells as (Hgood & HH & HV).
  destruct (getAvailableGemTypes_spec st x y) as (ts & Ets & Hts).
  { intros Hx.
    destruct (Hgood (x - 1) y) as (a & Ha & _); [unfold before; lia|].
    destruct (Hgood (x - 2) y) as (b & Hb & _); [unfold before; lia|].
    by exists a, b. }
  { intros Hy2.
    destruct (Hgood x (y - 1)) as (a & Ha & _); [unfold before; lia|].
    destruct (Hgood x (y - 2)) as (b & Hb & _); [unfold before; lia|].
    by exists a, b. }
  pose proof (getAvailableGemTypes_nonempty _ _ _ _ Ets) as Hn.
  destruct (lookup_lt_is_Some_2 ts (rng st (draws st) `mod` length ts))
    as [t Ht]; [apply Nat.mod_upper_bound; lia|].
  pose proof (list_elem_of_lookup_2 _ _ _ Ht) as Hin.
  destruct (Hts t Hin) as [HtH HtV].
  unfold createCell, createGemAt. rewrite Ets. simpl. rewrite Ht. simpl.
  unfold cellSet. rewrite Hcol. simpl.
  assert (Hset : arraySet col y (Some (nextRef st)) = col ++ [Some (nextRef st)]).
  { unfold arraySet. rewrite decide_False by lia.
    by replace (y - length col) with 0 by lia. }
  rewrite Hset.
  set (g' := <[x := col ++ [Some (nextRef st)]]> (gems st)).
  set (st' := setGems _ g').
  assert (Hcell : ∀ x' y', cellAt g' x' y'
                  = if decide (x' = x ∧ y' = y) then Ok (Some (nextRef st))
                    else cellAt (gems st) x' y').
  { intros x' y'. unfold cellAt, g'.
    destruct (decide (x' = x)) as [->|Hne].
    - rewrite list_lookup_insert_eq by lia. rewrite Hcol.
      case_decide as Hd.
      + destruct Hd as [_ ->]. rewrite lookup_app_r by lia.
        by replace (y - length col) with 0 by lia.
      + destruct (decide (y' < y)).
        * by rewrite lookup_app_l by lia.
        * rewrite !lookup_ge_None_2; [done|lia|].
          rewrite length_app. simpl. lia.
    - rewrite list_lookup_insert_ne by done.
      by rewrite decide_False by (intros [? _]; done). }
  assert (Hframe : builtCells h x y st').
  { apply (builtCells_frame h x y st); [lia| | |simpl; lia|done].
    - intros x' y' Hb. simpl. rewrite Hcell. rewrite decide_False; [done|].
      unfold before in Hb. lia.
    - intros r Hr. simpl. unfold upd.
      destruct (Nat.eqb_spec r (nextRef st)); [lia|done]. }
  assert (Hnew : typeAt st' x y = Some t).
  { unfold typeAt. simpl. rewrite Hcell, decide_True by done. simpl.
    unfold upd. by rewrite Nat.eqb_refl. }
  assert (Hold : ∀ x' y', before h x y x' y' →
                          typeAt st' x' y' = typeAt st x' y').
  { intros x' y' Hb. apply typeAt_frame; [by apply Hgood| |].
    - simpl. rewrite Hcell. rewrite decide_False; [done|].
      unfold before in Hb. lia.
    - intros r Hr. simpl. unfold upd.
      destruct (Nat.eqb_spec r (nextRef st)); [lia|done]. }
  exists st'. split; [done|].
  split_and!; try done.
  - simpl. unfold g'. rewrite length_insert. lia.
  - simpl. unfold g'. rewrite length_insert. lia.
  - intros x' Hx'. destruct (Hcols x' Hx') as (c & Hc & Hl).
    exists c. split; [|done]. simpl. unfold g'.
    by rewrite list_lookup_insert_ne by lia.
  - exists (col ++ [Some (nextRef st)]). split.
    + simpl. unfold g'. by rewrite list_lookup_insert_eq by lia.
    + rewrite length_app. simpl. lia.
  - apply builtCells_next; [lia|done| | |].
    + exists (nextRef st). simpl. rewrite Hcell, decide_True by done.
      split; [done|]. split; [|lia].
      unfold keyOf. simpl. unfold upd. by rewrite Nat.eqb_refl.
    + intros Hx (t' & H1 & H2 & H3).
      replace (x - 2 + 2) with x in H3 by lia.
      replace (x - 2 + 1) with (x - 1) in H2 by lia.
      rewrite Hnew in H3. injection H3 as <-.
      rewrite Hold in H1, H2 by (unfold before; lia).
      by apply (HtH Hx).
    + intros Hy2 (t' & H1 & H2 & H3).
      replace (y - 2 + 2) with y in H3 by lia.
      replace (y - 2 + 1) with (y - 1) in H2 by lia.
      rewrite Hnew in H3. injection H3 as <-.
      rewrite Hold in H1, H2 by (unfold before; lia).
      by apply (HtV Hy2).
Qed.

Lemma columnReset_lookup g x :
  x ≤ length g →
  columnReset g x !! x = Some [] ∧
  length (columnReset g x) = Nat.max (length g) (S x) ∧
  ∀ x', x' < x → columnReset g x !! x' = g !! x'.
Proof.
  intros Hx. unfold columnReset. case_decide.
  - rewrite list_lookup_insert_eq by done. rewrite length_insert.
    split; [done|]. split; [lia|].
    intros x' Hx'. by rewrite list_lookup_insert_ne by lia.
  - replace (x - length g) with 0 by lia. simpl.
    split; [|split].
    + rewrite lookup_app_r by lia. by replace (x - length g) with 0 by lia.
    + rewrite length_app. simpl. lia.
    + intros x' Hx'. by rewrite lookup_app_l by lia.
Qed.

Lemma createColumn_built w h x st :
  x < w → gridBuilt w h x st →
  ∃ st', createColumn st x = Ok st' ∧ gridBuilt w h (S x) st'.
Proof.
  intros Hx (Hw & Hh & Hlen & Hcols & Hcells).
  destruct (columnReset_lookup (gems st) x) as (Hnew & Hl & Hold); [lia|].
  unfold createColumn. rewrite Hh.
  destruct (forEachM_seq (createCell x) (columnBuilt w h x) h 0
              (setGems st (columnReset (gems st) x))) as (st' & E & Hst').
  - intros y s Hy Hs. apply createCell_built; [lia|done].
  - assert (Hc : ∀ x' y', before h x 0 x' y' →
                   cellAt (columnReset (gems st) x) x' y'
                   = cellAt (gems st) x' y').
    { intros x' y' Hb. unfold cellAt. rewrite Hold; [done|].
      unfold before in Hb. lia. }
    split_and!; try done; simpl; try lia.
    + intros x' Hx'. rewrite Hold by done. by apply Hcols.
    + by exists [].
    + apply (builtCells_frame h x 0 st); [lia|exact Hc|done|done|done].
  - exists st'. split; [done|]. simpl in Hst'.
    destruct Hst' as (Hw' & Hh' & Hlen' & _ & Hcols' & Hcol' & Hcells').
    split_and!; try done; try lia.
    + intros x' Hx'. destruct (decide (x' = x)) as [->|]; [done|].
      apply Hcols'. lia.
    + destruct Hcells' as (Hg & HH & HV).
      assert (Hb : ∀ x' y', before h (S x) 0 x' y' → before h x h x' y')
        by (unfold before; lia).
      split_and!; intros x' y' ?; [apply Hg|apply HH|apply HV]; by apply Hb.
Qed.

(** What [createGrid] leaves. *)
Lemma createGrid_built st :
  length (gems st) ≤ width st →
  ∃ st', createGrid st = Ok st' ∧
         gridBuilt (width st) (height st) (width st) st'.
Proof.
  intros Hlen. unfold createGrid.
  destruct (forEachM_seq createColumn (gridBuilt (width st) (height st))
              (width st) 0 st) as (st' & E & Hst').
  - intros x s Hx Hs. apply createColumn_built; [lia|done].
  - split_and!; try done; [lia| |].
    + intros x' Hx'. lia.
    + split_and!; intros x' y' Hb; unfold before in Hb; lia.
  - by exists st'.
Qed.

Lemma gridBuilt_board st :
  gridBuilt (width st) (height st) (width st) st →
  boardOk st ∧ fullBoard st ∧ findMatches st = Ok [].
Proof.
  intros (_ & _ & Hlen & Hcols & Hgood & HH & HV).
  assert (Hwf : wfBoard st).
  { unfold wfBoard. apply list_eq. intros x.
    rewrite list_lookup_fmap.
    destruct (decide (x < width st)) as [Hx|Hx].
    - destruct (Hcols x Hx) as (col & -> & Hl). simpl.
      by rewrite lookup_replicate_2, Hl.
    - rewrite lookup_ge_None_2 by lia. simpl. symmetry.
      apply lookup_replicate_None. lia. }
  assert (Hfull : fullBoard st).
  { intros x y Hx Hy. destruct (Hgood x y) as (r & Hr & _).
    - unfold before. lia.
    - by exists r. }
  split_and!; [split; [done|]|done|].
  - intros x y r Hr.
    pose proof (cellAt_Some_inGrid _ _ _ _ Hr) as (col & Hcol & Hy).
    assert (Hx : x < width st).
    { apply lookup_lt_Some in Hcol. lia. }
    destruct (Hcols x Hx) as (col' & Hcol' & Hl). simplify_eq.
    destruct (Hgood x y) as (r' & Hr' & Hk & Hlt); [unfold before; lia|].
    rewrite Hr in Hr'. by injection Hr' as <-.
  - apply findMatches_empty_iff_no_triple_aux; [done|..].
    + intros x y Ht. apply (HH x y); [|done].
      destruct Ht as (t & _ & _ & H3).
      apply typeAt_Some_bounds in H3; [|done]. unfold before. lia.
    + intros x y Ht. apply (HV x y); [|done].
      destruct Ht as (t & _ & _ & H3).
      apply typeAt_Some_bounds in H3; [|done]. unfold before. lia.
Qed.

(** The constructor leaves a board of [w] columns of [h] cells, every
    cell holding a gem that carries the cell's coordinates, and no three
    gems of one type in a row or column: [findMatches] reports nothing on
    the initial board, whatever the random source. *)
Theorem newGemGrid_ready w h rand :
  ∃ st, newGemGrid w h rand = Ok st ∧ width st = w ∧ height st = h ∧
        boardOk st ∧ fullBoard st ∧ findMatches st = Ok [].
Proof.
  unfold newGemGrid.
  destruct (createGrid_built (mkGrid w h [] (λ _, mkGem BLUE 0 0) 0 rand 0
                                     None true)) as (st' & E & Hb).
  { simpl. lia. }
  simpl in Hb. exists st'. split; [done|].
  pose proof Hb as (Hw & Hh & _).
  split; [done|]. split; [done|].
  apply gridBuilt_board. by rewrite Hw, Hh.
Qed.

(** [fillGrid] on a board that has at most [width] columns rebuilds it:
    it returns, and the board it leaves is full, well formed, and without
    a match. *)
Theorem fillGrid_no_initial_match st :
  length (gems st) ≤ width st →
  ∃ st', fillGrid st = Ok st' ∧
         width st' = width st ∧ height st' = height st ∧
         boardOk st' ∧ fullBoard st' ∧ findMatches st' = Ok [].
Proof.
  intros Hlen. unfold fillGrid.
  destruct (createGrid_built st Hlen) as (st' & E & Hb).
  exists st'. split; [done|].
  pose proof Hb as (Hw & Hh & _).
  split; [done|]. split; [done|].
  apply gridBuilt_board. by rewrite Hw, Hh.
Qed.

Lemma fillGrid_no_initial_match_witness :
  length (gems plusBoard) ≤ width plusBoard ∧
  ∃ st', fillGrid plusBoard = Ok st' ∧
         width st' = width plusBoard ∧ height st' = height plusBoard ∧
         boardOk st' ∧ fullBoard st' ∧ findMatches st' = Ok [].
Proof.
  assert (H : length (gems plusBoard) ≤ width plusBoard) by (vm_compute; lia).
  split; [exact H|]. exact (fillGrid_no_initial_match plusBoard H).
Defined.

(** ** The refill returns *)

(** [refillBoard] before (x, y): the cells visited so far hold gems. *)
Lemma refillCell_total h x y st :
  wfBoard st → height st = h → x < width st → y < h →
  (∀ x' y', before h x y x' y' → filled st x' y') →
  ∃ st', refillCell x st y = Ok st' ∧ wfBoard st' ∧
         width st' = width st ∧ height st' = height st ∧
         (∀ x' y', before h x (S y) x' y' → filled st' x' y').
Proof.
  intros Hwf Hh Hx Hy Hfilled.
  assert (Hcase : ∀ x' y', before h x (S y) x' y' →
                           before h x y x' y' ∨ (x' = x ∧ y' = y)).
  { unfold before. lia. }
  destruct (cellAt_total st x y Hwf Hx) as [c Hc].
  unfold refillCell. rewrite Hc. simpl. destruct c as [r|].
  { exists st. split_and!; try done.
    intros x' y' Hb. destruct (Hcase _ _ Hb) as [?|[-> ->]]; [auto|].
    by exists r. }
  destruct (getAvailableGemTypes_spec st x y) as (ts & Ets & _).
  { intros Hx2.
    destruct (Hfilled (x - 1) y) as [a Ha]; [unfold before; lia|].
    destruct (Hfilled (x - 2) y) as [b Hb]; [unfold before; lia|].
    by exists a, b. }
  { intros Hy2.
    destruct (Hfilled x (y - 1)) as [a Ha]; [unfold before; lia|].
    destruct (Hfilled x (y - 2)) as [b Hb]; [unfold before; lia|].
    by exists a, b. }
  destruct (createGemAt_defined _ _ _ _ Ets) as (gem & st1 & Ecreate).
  rewrite Ecreate. simpl.
  destruct (createGemAt_fields _ _ _ _ _ Ecreate) as (Eg & Ew & Eh).
  rewrite Eg.
  destruct (cellSet_inGrid (gems st) x y (Some gem)) as (g' & Eg' & Sg').
  { apply wfBoard_inGrid; [done..|lia]. }
  rewrite Eg'. simpl. eexists. split; [done|]. simpl.
  split_and!; try done.
  - unfold wfBoard. simpl. rewrite Sg', Ew, Eh. apply Hwf.
  - intros x' y' Hb. unfold filled. simpl.
    rewrite (cellSet_cellAt _ _ _ _ _ x' y' Eg').
    case_decide; [by exists gem|].
    destruct (Hcase _ _ Hb) as [?|?]; [by apply Hfilled|done].
Qed.

(** On a board of [width] columns of [height] cells [refillBoard]
    returns: when it reaches a cell, the two cells to its left and the
    two cells above it already hold gems, so [getAvailableGemTypes] reads
    no [gemType] of [null]. *)
Lemma refillBoard_total st :
  wfBoard st → ∃ st', refillBoard st = Ok st'.
Proof.
  intros Hwf. unfold refillBoard.
  set (w := width st). set (h := height st).
  set (I := λ x y (s : GemGrid),
         wfBoard s ∧ width s = w ∧ height s = h ∧
         ∀ x' y', before h x y x' y' → filled s x' y').
  destruct (forEachM_seq
              (λ st x, forEachM (refillCell x) (seq 0 (height st)) st)
              (λ x, I x 0) w 0 st) as (st' & E & _); [| |by exists st'].
  - intros x s Hx (Hwf' & Hw' & Hh' & Hf). rewrite Hh'.
    destruct (forEachM_seq (refillCell x) (I x) h 0 s) as (s' & E' & Hs').
    + intros y s1 Hy (Hwf1 & Hw1 & Hh1 & Hf1).
      destruct (refillCell_total h x y s1) as (s2 & E2 & ? & ? & ? & ?);
        [done|done|lia|lia|done|].
      exists s2. split; [done|]. unfold I. split_and!; [done|congruence..|done].
    + done.
    + exists s'. split; [done|].
      destruct Hs' as (? & ? & ? & Hf'). unfold I. split_and!; try done.
      intros x' y' Hb. apply Hf'. unfold before in *. lia.
  - unfold I. split_and!; try done. intros x' y' Hb. unfold before in Hb. lia.
Qed.

(** ** Where the gems fall *)

Lemma omap_length_le (l : list (option nat)) :
  length (omap (λ c : option nat, c) l) ≤ length l.
Proof. induction l as [|[r|] l IH]; csimpl; lia. Qed.

Lemma insert_replicate_end (R : list (option nat)) v k :
  <[k := v]> (replicate (S k) None ++ R) = replicate k None ++ [v] ++ R.
Proof.
  induction k as [|k IH]; [done|].
  change (replicate (S (S k)) None ++ R)
    with (@None nat :: (replicate (S k) None ++ R)).
  simpl. f_equal. apply IH.
Qed.

(** The two writes of a falling gem, on the column. *)
Lemma column_fall (A R : list (option nat)) (gem : nat) fd :
  0 < fd →
  <[length A + fd := Some gem]>
    (<[length A := None]> (A ++ [Some gem] ++ replicate fd None ++ R))
  = A ++ replicate fd None ++ [Some gem] ++ R.
Proof.
  intros Hfd.
  rewrite insert_app_r_alt by lia. rewrite Nat.sub_diag. simpl.
  rewrite insert_app_r_alt by lia.
  replace (length A + fd - length A) with fd by lia.
  f_equal. destruct fd as [|fd]; [lia|].
  cbn [insert list_insert]. simpl. f_equal.
  apply (insert_replicate_end R (Some gem) fd).
Qed.

(** The inner loop of [handleFalling] on column [x], rows [n - 1] down
    to 0, when the rows from [n] on have been settled. *)
Lemma fall_column_settle x col : ∀ n fd st,
  n ≤ length col →
  gems st !! x
  = Some (take n col ++ replicate fd None
          ++ (Some <$> omap (λ c : option nat, c) (drop n col))) →
  fd + length (omap (λ c : option nat, c) (drop n col)) = length col - n →
  ∃ fd' st', forEachM (fallStep x) (reverse (seq 0 n)) (fd, st) = Ok (fd', st') ∧
             gems st' = <[x := settle col]> (gems st) ∧
             width st' = width st ∧ height st' = height st.
Proof.
  induction n as [|n IH]; intros fd st Hn Hcol Hfd.
  { exists fd, st. split; [done|]. split; [|done].
    symmetry. apply list_insert_id. rewrite Hcol. f_equal.
    unfold settle. rewrite take_0, drop_0 in *. simpl.
    f_equal. f_equal. lia. }
  rewrite seq_S, reverse_snoc. change (0 + n) with n. cbn [forEachM].
  destruct (lookup_lt_is_Some_2 col n) as [c Hc]; [lia|].
  rewrite (take_S_r _ _ _ Hc) in Hcol.
  rewrite (drop_S _ _ _ Hc) in IH.
  set (R := Some <$> omap (λ c : option nat, c) (drop (S n) col)) in *.
  assert (Hlt : length (take n col) = n) by (rewrite length_take; lia).
  assert (Hcell : cellAt (gems st) x n = Ok c).
  { unfold cellAt. rewrite Hcol. rewrite <- app_assoc.
    rewrite lookup_app_r by lia. rewrite Hlt, Nat.sub_diag. done. }
  assert (Hx : x < length (gems st)) by (by eapply lookup_lt_Some).
  destruct c as [gem|].
  - destruct fd as [|fd].
    + assert (E : fallStep x (0, st) n = Ok (0, st)).
      { unfold fallStep. by rewrite Hcell. }
      rewrite E. simpl. apply IH; [lia| |csimpl; lia].
      rewrite Hcol. by rewrite <- app_assoc.
    + set (C := take n col ++ [Some gem] ++ replicate (S fd) None ++ R).
      assert (HC : gems st !! x = Some C).
      { rewrite Hcol. unfold C. by rewrite <- app_assoc. }
      set (C' := take n col ++ replicate (S fd) None ++ [Some gem] ++ R).
      set (h' := setGridY (heap st) gem (gridY (heap st gem) + S fd)).
      assert (E : fallStep x (S fd, st) n
                  = Ok (S fd, setGems (setHeap st h') (<[x := C']> (gems st)))).
      { unfold fallStep. rewrite Hcell. simpl.
        unfold cellSet. rewrite HC. simpl.
        rewrite list_lookup_insert_eq by done. simpl.
        rewrite list_insert_insert_eq.
        do 4 f_equal. unfold arraySet.
        assert (HlC : length C = n + 1 + S fd + length R).
        { unfold C. rewrite !length_app, Hlt, length_replicate. simpl. lia. }
        destruct (decide (n < length C)); [|lia].
        rewrite decide_True by (rewrite length_insert; lia).
        pose proof (column_fall (take n col) R gem (S fd)) as Hf.
        rewrite Hlt in Hf. apply Hf. lia. }
      rewrite E. simpl.
      destruct (IH (S fd) (setGems (setHeap st h') (<[x := C']> (gems st))))
        as (fd' & st' & E' & Hg & Hw & Hh).
      * lia.
      * simpl. rewrite list_lookup_insert_eq by done. done.
      * csimpl. csimpl in Hfd. lia.
      * exists fd', st'. split; [done|]. split; [|done].
        rewrite Hg. simpl. by rewrite list_insert_insert_eq.
  - assert (E : fallStep x (fd, st) n = Ok (S fd, st)).
    { unfold fallStep. by rewrite Hcell. }
    rewrite E. simpl. apply IH; [lia| |csimpl; csimpl in Hfd; lia].
    rewrite Hcol. rewrite <- app_assoc. by csimpl.
Qed.

Lemma fallColumn_settle st x col :
  gems st !! x = Some col → length col = height st →
  ∃ st', fallColumn st x = Ok st' ∧
         gems st' = <[x := settle col]> (gems st) ∧
         width st' = width st ∧ height st' = height st.
Proof.
  intros Hcol Hlen. unfold fallColumn.
  destruct (fall_column_settle x col (height st) 0 st)
    as (fd' & st' & E & H); [lia| |..].
  - rewrite Hcol, <- Hlen, take_ge, drop_ge by lia. simpl.
    by rewrite app_nil_r.
  - rewrite <- Hlen, drop_ge by lia. simpl. lia.
  - rewrite E. simpl. by exists st'.
Qed.

Lemma settle_prefix (g : list (list (option nat))) x col :
  g !! x = Some col →
  <[x := settle col]> ((settle <$> take x g) ++ drop x g)
  = (settle <$> take (S x) g) ++ drop (S x) g.
Proof.
  intros Hcol.
  assert (Hl : length (settle <$> take x g) = x).
  { rewrite length_fmap, length_take. apply lookup_lt_Some in Hcol. lia. }
  rewrite insert_app_r_alt by lia. rewrite Hl, Nat.sub_diag.
  rewrite (drop_S _ _ _ Hcol). simpl.
  rewrite (take_S_r _ _ _ Hcol), fmap_app. simpl.
  by rewrite <- app_assoc.
Qed.

Lemma gravityPass_settles_aux st :
  wfBoard st →
  ∃ st', gravityPass st = Ok st' ∧ gems st' = settle <$> gems st.
Proof.
  intros Hwf. unfold gravityPass.
  set (g := gems st).
  assert (Hlen : length g = width st).
  { unfold g. rewrite <- (length_fmap length), Hwf. apply length_replicate. }
  destruct (forEachM_seq fallColumn
              (λ x s, gems s = (settle <$> take x g) ++ drop x g ∧
                      width s = width st ∧ height s = height st)
              (width st) 0 st) as (st' & E & Hg & _).
  - intros x s Hx (Hs & Hw & Hh).
    destruct (lookup_lt_is_Some_2 g x) as [col Hcol]; [lia|].
    destruct (fallColumn_settle s x col) as (s' & E' & Hg' & Hw' & Hh').
    + rewrite Hs. rewrite lookup_app_r; rewrite length_fmap, length_take;
        [|lia]. replace (x - x `min` length g) with 0 by lia.
      by rewrite lookup_drop, Nat.add_0_r.
    + rewrite Hh.
      assert (Hc : (length <$> g) !! x = Some (length col))
        by (by rewrite list_lookup_fmap, Hcol).
      unfold g in Hc. rewrite Hwf in Hc.
      by apply lookup_replicate in Hc as [-> _].
    + exists s'. split; [done|]. split; [|split; congruence].
      rewrite Hg', Hs. by apply settle_prefix.
  - by rewrite take_0, drop_0.
  - exists st'. split; [done|]. rewrite Hg. simpl.
    by rewrite take_ge, drop_ge, app_nil_r by lia.
Qed.

(** The falling loops of [handleFalling] turn every column into its
    settled form: the empty cells at the top, below them the gems the
    column held, in their order. *)
Theorem gravityPass_settles st :
  wfBoard st →
  ∃ st', gravityPass st = Ok st' ∧ gems st' = settle <$> gems st.
Proof. apply gravityPass_settles_aux. Qed.

Lemma gravityPass_settles_witness :
  wfBoard plusRemoved ∧
  ∃ st', gravityPass plusRemoved = Ok st' ∧
         gems st' = settle <$> gems plusRemoved.
Proof.
  assert (H : wfBoard plusRemoved) by reflexivity.
  split; [exact H|]. exact (gravityPass_settles plusRemoved H).
Defined.

(** In a settled column no gem has an empty cell below it. *)
Lemma settle_lookup col i j r :
  settle col !! i = Some (Some r) → i ≤ j < length col →
  ∃ r', settle col !! j = Some (Some r').
Proof.
  unfold settle. intros Hi Hj.
  set (k := length col - length (omap (λ c : option nat, c) col)) in *.
  pose proof (omap_length_le col) as Hle.
  destruct (decide (i < k)) as [Hik|Hik].
  { rewrite lookup_app_l in Hi by (rewrite length_replicate; lia).
    by apply lookup_replicate in Hi as [? _]. }
  rewrite lookup_app_r by (rewrite length_replicate; lia).
  rewrite length_replicate, list_lookup_fmap.
  destruct (lookup_lt_is_Some_2 (omap (λ c : option nat, c) col) (j - k))
    as [r' Hr']; [lia|].
  exists r'. by rewrite Hr'.
Qed.

(** After the falling loops no gem is left above an empty cell. *)
Lemma gravityPass_leaves_no_gap st st' x y y' r :
  wfBoard st → gravityPass st = Ok st' →
  cellAt (gems st') x y = Ok (Some r) → y ≤ y' < height st →
  ∃ r', cellAt (gems st') x y' = Ok (Some r').
Proof.
  intros Hwf H Hr Hy.
  destruct (gravityPass_settles_aux st Hwf) as (st1 & E & Hg).
  rewrite E in H. injection H as <-.
  unfold cellAt in *. rewrite Hg in *. rewrite list_lookup_fmap in *.
  destruct (gems st !! x) as [col|] eqn:Hcol; [|done]. simpl in *.
  assert (Hlen : length col = height st).
  { assert (Hc : (length <$> gems st) !! x = Some (length col))
      by (by rewrite list_lookup_fmap, Hcol).
    rewrite Hwf in Hc. by apply lookup_replicate in Hc as [-> _]. }
  injection Hr as Hr.
  destruct (settle col !! y) as [c|] eqn:Hy0; [|done]. simpl in Hr. subst c.
  destruct (settle_lookup col y y' r Hy0) as [r' Hr']; [lia|].
  exists r'. by rewrite Hr'.
Qed.

(** A column without a gem above an empty cell is left as it is. *)
Lemma fall_column_fixed x st : ∀ n fd,
  wfBoard st → x < width st → n ≤ height st →
  (∀ y y' r, cellAt (gems st) x y = Ok (Some r) → y ≤ y' < height st →
             filled st x y') →
  (0 < fd → ∀ y, y < n → cellAt (gems st) x y = Ok None) →
  ∃ fd', forEachM (fallStep x) (reverse (seq 0 n)) (fd, st) = Ok (fd', st).
Proof.
  intros n fd Hwf Hx. revert fd.
  induction n as [|n IH]; intros fd Hn Hgap Hfd; [by exists fd|].
  rewrite seq_S, reverse_snoc. change (0 + n) with n. cbn [forEachM].
  destruct (cellAt_total st x n Hwf Hx) as [c Hc].
  destruct c as [gem|].
  - destruct fd as [|fd].
    + assert (E : fallStep x (0, st) n = Ok (0, st))
        by (unfold fallStep; by rewrite Hc).
      rewrite E. simpl. apply IH; [lia|done|lia].
    + rewrite Hfd in Hc by lia. done.
  - assert (E : fallStep x (fd, st) n = Ok (S fd, st))
      by (unfold fallStep; by rewrite Hc).
    rewrite E. simpl. apply IH; [lia|done|].
    intros _ y Hy. destruct (cellAt_total st x y Hwf Hx) as [[r|] Hr]; [|done].
    destruct (Hgap y n r Hr) as [r' Hr']; [lia|]. congruence.
Qed.

Lemma gravityPass_fixed st :
  wfBoard st →
  (∀ x y y' r, cellAt (gems st) x y = Ok (Some r) → y ≤ y' < height st →
               filled st x y') →
  gravityPass st = Ok st.
Proof.
  intros Hwf Hgap. unfold gravityPass. apply forEachM_id.
  intros x Hx. apply elem_of_seq in Hx. unfold fallColumn.
  destruct (fall_column_fixed x st (height st) 0) as [fd' E];
    [done|lia|lia|by apply Hgap|lia|].
  by rewrite E.
Qed.

(** The falling loops are idempotent: run again on the board they left,
    they move no gem and change no coordinate. *)
Theorem gravityPass_idempotent st st' :
  wfBoard st → gravityPass st = Ok st' → gravityPass st' = Ok st'.
Proof.
  intros Hwf H.
  destruct (gravity_columns st (seq 0 (width st)) st) as (st1 & E & Hs).
  { by apply sameTokens_refl. }
  { intros x Hx. apply elem_of_seq in Hx. lia. }
  unfold gravityPass in H. rewrite E in H. injection H as <-.
  destruct Hs as (Hwf' & _ & Hh & _).
  apply gravityPass_fixed; [done|].
  intros x y y' r Hr Hy. rewrite Hh in Hy.
  by eapply (gravityPass_leaves_no_gap st st1).
Qed.

Lemma gravityPass_idempotent_witness :
  wfBoard plusRemoved ∧
  gravityPass plusRemoved
  = Ok (match gravityPass plusRemoved with Ok s => s | _ => plusRemoved end) ∧
  gravityPass (match gravityPass plusRemoved with Ok s => s | _ => plusRemoved end)
  = Ok (match gravityPass plusRemoved with Ok s => s | _ => plusRemoved end).
Proof.
  assert (H : wfBoard plusRemoved) by reflexivity.
  assert (E : gravityPass plusRemoved
              = Ok (match gravityPass plusRemoved with
                    | Ok s => s | _ => plusRemoved end))
    by (vm_compute; reflexivity).
  split; [exact H|]. split; [exact E|].
  exact (gravityPass_idempotent plusRemoved _ H E).
Defined.

(** ** The deadlock check on a settled board *)

Lemma setHeap_eta st : setHeap st (heap st) = st.
Proof. by destruct st. Qed.

(** [hasValidMoves] writes nothing but coordinates: the board it leaves
    is the one it was given with another store, in which every gem has
    kept its type. *)
Lemma hasValidMoves_only_heap st valid st' :
  hasValidMoves st = Ok (valid, st') →
  st' = setHeap st (heap st') ∧ ∀ r, gemType (heap st' r) = gemType (heap st r).
Proof.
  unfold hasValidMoves.
  set (R := λ s s' : GemGrid,
         s' = setHeap s (heap s') ∧
         ∀ r, gemType (heap s' r) = gemType (heap s r)).
  assert (HRrefl : ∀ s, R s s).
  { intros s. split; [by rewrite setHeap_eta|done]. }
  assert (HRtrans : ∀ s1 s2 s3, R s1 s2 → R s2 s3 → R s1 s3).
  { intros s1 s2 s3 [E1 T1] [E2 T2]. split.
    - rewrite E2 at 1. rewrite E1 at 1. done.
    - intros r. by rewrite T2, T1. }
  apply (anyM_inv _ R); [done|done|].
  intros s x b s1. apply (anyM_inv _ R); [done|done|].
  intros s2 y b2 s3 H. unfold probeCell in H.
  apply bind_Ok in H as (adj & _ & H). revert H.
  apply (anyM_inv _ R); [done|done|].
  intros s4 adjGem b4 s5 H. unfold probe in H.
  apply bind_Ok in H as (c & _ & H). unfold wouldCreateMatch in H.
  apply bind_Ok in H as (r1 & _ & H). apply bind_Ok in H as (r2 & _ & H).
  apply bind_Ok in H as (ms & _ & H). injection H as _ <-.
  split; [done|]. intros r. simpl.
  rewrite !setGridY_gemType, !setGridX_gemType,
          !setGridY_gemType, !setGridX_gemType.
  apply swapCoords_gemType.
Qed.

(** [hasValidMoves] is blind on a settled board: the probes of
    [wouldCreateMatch] exchange coordinates only, and [findMatches] reads
    the grid array, so the answer is [true] only if the board as it stands
    already has a match.  On every board on which [findMatches] reports
    nothing the deadlock check answers [false]. *)
Theorem hasValidMoves_false_without_match st valid st' :
  findMatches st = Ok [] → hasValidMoves st = Ok (valid, st') →
  valid = false.
Proof.
  intros Hfind H. destruct valid; [exfalso|done].
  pose proof (hasValidMoves_only_heap _ _ _ H) as [Est Ht].
  unfold findMatches in Hfind.
  destruct (rawMatches st) as [raw| |] eqn:Eraw; [|done..]. simpl in Hfind.
  assert (Hraw : raw = []).
  { assert (Hf : findMatches st = Ok [])
      by (unfold findMatches; by rewrite Eraw).
    by apply (findMatches_empty_iff st raw [] Eraw Hf). }
  subst raw.
  assert (Eraw' : rawMatches st' = Ok []).
  { rewrite Est, (rawMatches_coords_irrelevant st (heap st') (heap st) Ht).
    by rewrite setHeap_eta. }
  apply (hasValidMoves_true_has_match st st' [] H); [|done].
  unfold findMatches. by rewrite Eraw'.
Qed.

Lemma hasValidMoves_false_without_match_witness :
  findMatches quietBoard = Ok [] ∧
  hasValidMoves quietBoard = Ok (false, quietProbed) ∧
  false = false.
Proof.
  assert (H1 : findMatches quietBoard = Ok []) by (vm_compute; reflexivity).
  assert (H2 : hasValidMoves quietBoard = Ok (false, quietProbed))
    by (vm_compute; reflexivity).
  split; [exact H1|]. split; [exact H2|].
  exact (hasValidMoves_false_without_match quietBoard false quietProbed H1 H2).
Defined.

(** ** What removal and refill do to the cells *)

(** [removeMatches] empties the cells of the matched gems and no other
    cell; it changes no gem object and allocates none. *)
Theorem removeMatches_clears_matched st matches :
  boardOk st → Forall (gridMatch st) matches →
  ∃ st', removeMatches st matches = Ok st' ∧
         heap st' = heap st ∧ nextRef st' = nextRef st ∧
         (∀ m r, m ∈ matches → Some r ∈ mgems m → r ∉ gridRefs st') ∧
         (∀ x y r, cellAt (gems st') x y = Ok (Some r) →
                   cellAt (gems st) x y = Ok (Some r)) ∧
         (∀ x y r, cellAt (gems st) x y = Ok (Some r) →
                   (∀ m, m ∈ matches → Some r ∉ mgems m) →
                   cellAt (gems st') x y = Ok (Some r)).
Proof.
  intros Hok Hms.
  destruct (removeMatches_boardOk st matches Hok Hms) as (st' & E & _).
  exists st'. split; [done|].
  destruct Hok as [Hwf Hc].
  set (step := λ (s : GemGrid) (gem : option nat),
         r ← deref gem;
         g ← cellSet (gems s) (gridX (heap s r)) (gridY (heap s r)) None;
         Ok (setGems s g)).
  set (R := λ s s' : GemGrid,
         heap s' = heap s ∧ nextRef s' = nextRef s ∧
         (∀ x y r, cellAt (gems s') x y = Ok (Some r) →
                   cellAt (gems s) x y = Ok (Some r)) ∧
         (∀ x y, cellAt (gems s) x y = Ok None →
                 cellAt (gems s') x y = Ok None)).
  set (P := λ (gem : option nat) (s : GemGrid),
         ∀ r, gem = Some r →
              cellAt (gems s) (gridX (heap s r)) (gridY (heap s r)) = Ok None).
  assert (HRrefl : ∀ s, R s s) by (by intros s; unfold R).
  assert (HRtrans : ∀ s1 s2 s3, R s1 s2 → R s2 s3 → R s1 s3).
  { intros s1 s2 s3 (?&?&C1&N1) (?&?&C2&N2).
    unfold R. split_and!; [congruence..| |]; auto. }
  assert (HPstable : ∀ gem s s', P gem s → R s s' → P gem s').
  { intros gem s s' HP (Hh & _ & _ & HN) r Hr. rewrite Hh. by apply HN, HP. }
  assert (Hstep : ∀ s gem s', step s gem = Ok s' → R s s' ∧ P gem s').
  { intros s gem s' H. unfold step in H.
    apply bind_Ok in H as (r & Hr & H).
    apply bind_Ok in H as (g & Hset & [= <-]).
    destruct gem as [r0|]; [|done]. injection Hr as ->.
    split.
    - unfold R. simpl. split_and!; [done..| |].
      + intros x y r' Hr'.
        rewrite (cellSet_cellAt _ _ _ _ _ x y Hset) in Hr'.
        by case_decide.
      + intros x y Hn. rewrite (cellSet_cellAt _ _ _ _ _ x y Hset).
        by case_decide.
    - intros r' [= <-]. simpl.
      rewrite (cellSet_cellAt _ _ _ _ _ _ _ Hset). by rewrite decide_True. }
  assert (Hall : R st st' ∧ ∀ m, m ∈ matches → ∀ gem, gem ∈ mgems m → P gem st').
  { unfold removeMatches in E. revert E.
    apply (forEachM_inv _ R (λ m s, ∀ gem, gem ∈ mgems m → P gem s));
      [done|done| |].
    - intros m s s' HP HR gem Hgem. by eapply HPstable; [apply HP|].
    - intros s m s'. by apply (forEachM_inv step R P). }
  destruct Hall as [(Hh & Hn & Hsub & _) Hgone].
  split; [done|]. split; [done|]. split_and!; [|done|].
  - intros m r Hm Hr Hin.
    apply gridRefs_cellAt in Hin as (x & y & Hxy).
    pose proof (Hsub _ _ _ Hxy) as Hxy0.
    destruct (Hc _ _ _ Hxy0) as [Hk _]. unfold keyOf in Hk.
    injection Hk as Hx Hy.
    pose proof (Hgone m Hm (Some r) Hr r eq_refl) as Hnone.
    rewrite Hh, Hx, Hy in Hnone. congruence.
  - intros x y r Hr Hun.
    unfold removeMatches in E. revert E.
    set (Q := λ s : GemGrid,
           heap s = heap st ∧ cellAt (gems s) x y = Ok (Some r)).
    assert (HQ : Q st) by done.
    revert HQ.
    intros HQ E.
    assert (HQ' : Q st'); [|by destruct HQ'].
    revert E. apply (forEachM_pres _ Q); [|done].
    intros s m s' Hm HQs. apply (forEachM_pres step Q); [|done].
    intros s1 gem s2 Hgem [Hh1 Hc1] H. unfold step in H.
    apply bind_Ok in H as (r0 & Hr0 & H).
    apply bind_Ok in H as (g & Hset & [= <-]).
    destruct gem as [r1|]; [|done]. injection Hr0 as ->.
    split; [done|]. simpl.
    rewrite (cellSet_cellAt _ _ _ _ _ x y Hset).
    rewrite decide_False; [done|]. intros [-> ->].
    destruct (proj1 (list.Forall_forall _ _) Hms m Hm _ Hgem)
      as (r' & [= <-] & Hin).
    apply gridRefs_cellAt in Hin as (x0 & y0 & Hxy0).
    destruct (Hc _ _ _ Hxy0) as [Hk _]. unfold keyOf in Hk.
    injection Hk as Hx0 Hy0. rewrite Hh1, Hx0, Hy0 in Hc1.
    pose proof (Hsub0 := Hc1).
    assert (Hrr : cellAt (gems st) x0 y0 = Ok (Some r)).
    { rewrite Hh1, Hx0, Hy0 in Hr. done. }
    rewrite Hxy0 in Hrr. injection Hrr as ->.
    by apply (Hun m Hm).
Qed.

Lemma removeMatches_clears_matched_witness :
  boardOk cascadeBoard ∧ Forall (gridMatch cascadeBoard) cascadeMatches ∧
  ∃ st', removeMatches cascadeBoard cascadeMatches = Ok st' ∧
         heap st' = heap cascadeBoard ∧ nextRef st' = nextRef cascadeBoard ∧
         (∀ m r, m ∈ cascadeMatches → Some r ∈ mgems m → r ∉ gridRefs st') ∧
         (∀ x y r, cellAt (gems st') x y = Ok (Some r) →
                   cellAt (gems cascadeBoard) x y = Ok (Some r)) ∧
         (∀ x y r, cellAt (gems cascadeBoard) x y = Ok (Some r) →
                   (∀ m, m ∈ cascadeMatches → Some r ∉ mgems m) →
                   cellAt (gems st') x y = Ok (Some r)).
Proof.
  assert (H1 : boardOk cascadeBoard) by apply boardOfRows_boardOk.
  assert (H2 : Forall (gridMatch cascadeBoard) cascadeMatches).
  { apply Forall_singleton. intros c Hc. exists (default 0 c).
    simpl in Hc. unfold gridRefs.
    repeat (apply elem_of_cons in Hc as [->|Hc];
            [split; [reflexivity|vm_compute; repeat constructor]|]).
    by apply elem_of_nil in Hc. }
  split; [exact H1|]. split; [exact H2|].
  exact (removeMatches_clears_matched cascadeBoard cascadeMatches H1 H2).
Defined.

(** The refill keeps every gem where it is and puts a newly allocated
    gem into every empty cell. *)
Theorem refillBoard_fills_holes st :
  wfBoard st →
  ∃ st', refillBoard st = Ok st' ∧ fullBoard st' ∧
         (∀ x y r, cellAt (gems st) x y = Ok (Some r) →
                   cellAt (gems st') x y = Ok (Some r)) ∧
         (∀ x y r, cellAt (gems st') x y = Ok (Some r) →
                   cellAt (gems st) x y = Ok (Some r) ∨ nextRef st ≤ r) ∧
         (∀ r, r < nextRef st → heap st' r = heap st r).
Proof.
  intros Hwf.
  destruct (refillBoard_total st Hwf) as (st' & E).
  exists st'. split; [done|].
  split; [by apply refillBoard_full in E as [_ ?]|].
  set (R := λ s s' : GemGrid,
         nextRef s ≤ nextRef s' ∧
         (∀ x y r, cellAt (gems s) x y = Ok (Some r) →
                   cellAt (gems s') x y = Ok (Some r)) ∧
         (∀ x y r, cellAt (gems s') x y = Ok (Some r) →
                   cellAt (gems s) x y = Ok (Some r) ∨ nextRef s ≤ r) ∧
         (∀ r, r < nextRef s → heap s' r = heap s r)).
  assert (HRrefl : ∀ s, R s s) by (intros s; unfold R; auto).
  assert (HRtrans : ∀ s1 s2 s3, R s1 s2 → R s2 s3 → R s1 s3).
  { intros s1 s2 s3 (N1 & K1 & F1 & H1) (N2 & K2 & F2 & H2).
    unfold R. split_and!.
    - lia.
    - auto.
    - intros x y r Hr. destruct (F2 _ _ _ Hr) as [Hr2|?]; [|right; lia].
      destruct (F1 _ _ _ Hr2) as [?|?]; [by left|right; lia].
    - intros r Hr. rewrite H2 by lia. by apply H1. }
  assert (HR : R st st'); [|by destruct HR as (_ & ? & ? & ?)].
  unfold refillBoard in E. revert E.
  intros E. eapply (forEachM_inv _ R (λ _ _, True)) in E;
    [by destruct E|done|done|done|].
  intros s x s' Hx. split; [|done].
  eapply (forEachM_inv _ R (λ _ _, True)) in Hx;
    [by destruct Hx|done|done|done|].
  intros s1 y s2 Hy. split; [|done]. unfold refillCell in Hy.
  apply bind_Ok in Hy as (c & Hc & Hy). destruct c as [r|].
  { injection Hy as <-. apply HRrefl. }
  apply bind_Ok in Hy as ([gem s1'] & Hcreate & Hy).
  apply bind_Ok in Hy as (g & Hset & [= <-]).
  destruct (createGemAt_spec _ _ _ _ _ Hcreate)
    as (t & -> & Eg & Eh & En & _).
  rewrite Eg in Hset. unfold R. simpl. rewrite En, Eh.
  split_and!.
  - lia.
  - intros x' y' r Hr. rewrite (cellSet_cellAt _ _ _ _ _ x' y' Hset).
    case_decide as Hd; [|done]. destruct Hd as [-> ->]. congruence.
  - intros x' y' r Hr. rewrite (cellSet_cellAt _ _ _ _ _ x' y' Hset) in Hr.
    case_decide; [|by left]. injection Hr as <-. by right.
  - intros r Hr. unfold upd.
    destruct (Nat.eqb_spec r (nextRef s1)); [lia|done].
Qed.

Lemma refillBoard_fills_holes_witness :
  wfBoard plusRemoved ∧
  ∃ st', refillBoard plusRemoved = Ok st' ∧ fullBoard st' ∧
         (∀ x y r, cellAt (gems plusRemoved) x y = Ok (Some r) →
                   cellAt (gems st') x y = Ok (Some r)) ∧
         (∀ x y r, cellAt (gems st') x y = Ok (Some r) →
                   cellAt (gems plusRemoved) x y = Ok (Some r)
                   ∨ nextRef plusRemoved ≤ r) ∧
         (∀ r, r < nextRef plusRemoved → heap st' r = heap plusRemoved r).
Proof.
  assert (H : wfBoard plusRemoved) by reflexivity.
  split; [exact H|]. exact (refillBoard_fills_holes plusRemoved H).
Defined.

(** ** Neighbours *)

Lemma absDiff_succ a : absDiff a (S a) = 1 ∧ absDiff (S a) a = 1.
Proof. unfold absDiff. lia. Qed.

(** Every gem [getAdjacentGems] returns for the cell of a gem passes
    [areGemsAdjacent] with that gem, and at most four cells are
    returned. *)
Theorem getAdjacentGems_are_adjacent st x y gem adj :
  boardOk st → cellAt (gems st) x y = Ok (Some gem) →
  getAdjacentGems st x y = Ok adj →
  length adj ≤ 4 ∧ ∀ r, Some r ∈ adj → areGemsAdjacent st gem r = true.
Proof.
  intros [Hwf Hc] Hgem H.
  destruct (Hc _ _ _ Hgem) as [Kg _]. unfold keyOf in Kg.
  injection Kg as Xg Yg.
  assert (Hstep : ∀ (adj0 adj1 : list (option nat)) dir n,
            dir ∈ directions →
            length adj0 ≤ n ∧
            (∀ r, Some r ∈ adj0 → areGemsAdjacent st gem r = true) →
            pushNeighbour st x y adj0 dir = Ok adj1 →
            length adj1 ≤ S n ∧
            (∀ r, Some r ∈ adj1 → areGemsAdjacent st gem r = true)).
  { intros adj0 adj1 dir n Hdir [Hl Hadj] Hp. unfold pushNeighbour in Hp.
    destruct (isValidGridPosition st _ _) eqn:Hv.
    2:{ injection Hp as <-. split; [lia|done]. }
    apply isValidGridPosition_spec in Hv as [Hvx Hvy].
    apply bind_Ok in Hp as (c & Hcell & [= <-]).
    split; [rewrite length_app; simpl; lia|].
    intros r Hr. apply elem_of_app in Hr as [Hr|Hr]; [by apply Hadj|].
    apply list_elem_of_singleton in Hr as <-.
    destruct (Hc _ _ _ Hcell) as [Kr _]. unfold keyOf in Kr.
    injection Kr as Xr Yr.
    unfold areGemsAdjacent. rewrite Xg, Yg, Xr, Yr.
    unfold directions in Hdir.
    repeat (apply elem_of_cons in Hdir as [->|Hdir]);
      [..|by apply elem_of_nil in Hdir]; simpl in *.
    - replace (Z.to_nat (Z.of_nat x + 0)) with x by lia.
      destruct y as [|y]; [lia|].
      replace (Z.to_nat (Z.of_nat (S y) + -1)) with y by lia.
      unfold absDiff.
      replace (x - x + (x - x)) with 0 by lia.
      by replace (S y - y + (y - S y)) with 1 by lia.
    - replace (Z.to_nat (Z.of_nat x + 1)) with (S x) by lia.
      replace (Z.to_nat (Z.of_nat y + 0)) with y by lia.
      unfold absDiff.
      replace (y - y + (y - y)) with 0 by lia.
      by replace (x - S x + (S x - x)) with 1 by lia.
    - replace (Z.to_nat (Z.of_nat x + 0)) with x by lia.
      replace (Z.to_nat (Z.of_nat y + 1)) with (S y) by lia.
      unfold absDiff.
      replace (x - x + (x - x)) with 0 by lia.
      by replace (y - S y + (S y - y)) with 1 by lia.
    - destruct x as [|x]; [lia|].
      replace (Z.to_nat (Z.of_nat (S x) + -1)) with x by lia.
      replace (Z.to_nat (Z.of_nat y + 0)) with y by lia.
      unfold absDiff.
      replace (y - y + (y - y)) with 0 by lia.
      by replace (S x - x + (x - S x)) with 1 by lia. }
  unfold getAdjacentGems, directions in H. simpl in H.
  apply bind_Ok in H as (a1 & H1 & H).
  apply bind_Ok in H as (a2 & H2 & H).
  apply bind_Ok in H as (a3 & H3 & H).
  apply bind_Ok in H as (a4 & H4 & [= <-]).
  assert (H0 : length (@nil (option nat)) ≤ 0 ∧
               ∀ r, Some r ∈ @nil (option nat) →
                    areGemsAdjacent st gem r = true).
  { split; [done|]. intros r Hr. by apply elem_of_nil in Hr. }
  eapply Hstep in H1; [|unfold directions; by repeat constructor|exact H0].
  eapply Hstep in H2; [|unfold directions; by repeat constructor|exact H1].
  eapply Hstep in H3; [|unfold directions; by repeat constructor|exact H2].
  eapply Hstep in H4; [|unfold directions; by repeat constructor|exact H3].
  done.
Qed.

Lemma getAdjacentGems_are_adjacent_witness :
  boardOk quietBoard ∧ cellAt (gems quietBoard) 0 0 = Ok (Some 0) ∧
  getAdjacentGems quietBoard 0 0 = Ok [Some 3; Some 1] ∧
  length [Some 3; Some 1] ≤ 4 ∧
  ∀ r, Some r ∈ [Some 3; Some 1] → areGemsAdjacent quietBoard 0 r = true.
Proof.
  assert (H1 : boardOk quietBoard) by apply boardOfRows_boardOk.
  assert (H2 : cellAt (gems quietBoard) 0 0 = Ok (Some 0)) by reflexivity.
  assert (H3 : getAdjacentGems quietBoard 0 0 = Ok [Some 3; Some 1])
    by reflexivity.
  split; [exact H1|]. split; [exact H2|]. split; [exact H3|].
  exact (getAdjacentGems_are_adjacent quietBoard 0 0 0 _ H1 H2 H3).
Defined.

(** ** Shuffling *)

Lemma boardOk_ext st st' :
  gems st' = gems st → (∀ r, heap st' r = heap st r) →
  width st' = width st → height st' = height st → nextRef st' = nextRef st →
  boardOk st → boardOk st'.
Proof.
  unfold boardOk, wfBoard, consistent, keyOf.
  intros -> Hh -> -> -> [Hwf Hc]. split; [done|].
  intros x y r Hr. rewrite !Hh. by apply Hc.
Qed.

Lemma swapCoords_same h a r : swapCoords h a a r = h r.
Proof.
  unfold swapCoords, setGridX, setGridY, upd.
  destruct (Nat.eqb_spec r a) as [->|Hne]; simpl; [|done].
  rewrite ?Nat.eqb_refl. simpl. by destruct (h a).
Qed.

Lemma fullBoard_cells st st' :
  width st' = width st → height st' = height st →
  (∀ x y, filled st x y → filled st' x y) →
  fullBoard st → fullBoard st'.
Proof.
  intros Hw Hh Hf Hfull x y Hx Hy. apply Hf, Hfull; congruence.
Qed.

(** The exchange made by one step of the shuffle, also when the two
    indices name the same gem. *)
Lemma placeBoth_swap st a b :
  boardOk st → a ∈ gridRefs st → b ∈ gridRefs st →
  ∃ g', placeBoth (swapCoords (heap st) a b) (gems st) a b = Ok g' ∧
        ∀ s', gems s' = g' →
              (∀ r, heap s' r = swapCoords (heap st) a b r) →
              width s' = width st → height s' = height st →
              nextRef s' = nextRef st →
              boardOk s' ∧ (∀ r, r ∈ gridRefs s' ↔ r ∈ gridRefs st) ∧
              (fullBoard st → fullBoard s').
Proof.
  intros Hok Ha Hb.
  pose proof Hok as [Hwf Hc].
  pose proof (gridRefs_cellAt _ _ Ha) as (xa & ya & Ca).
  pose proof (gridRefs_cellAt _ _ Hb) as (xb & yb & Cb).
  destruct (Hc _ _ _ Ca) as [Ka _], (Hc _ _ _ Cb) as [Kb _].
  unfold keyOf in Ka, Kb. injection Ka as Xa Ya. injection Kb as Xb Yb.
  destruct (decide (a = b)) as [->|Hne].
  - destruct (placeBoth_spec (swapCoords (heap st) b b) (gems st) b b)
      as (g' & Hp & Hs & C).
    { rewrite swapCoords_same, Xb, Yb. by eapply cellAt_Some_inGrid. }
    { rewrite swapCoords_same, Xb, Yb. by eapply cellAt_Some_inGrid. }
    rewrite swapCoords_same, Xb, Yb in C.
    assert (Hg : g' = gems st).
    { apply grid_ext; [done|]. intros x y. rewrite C.
      repeat case_decide; try done;
        repeat match goal with H : _ ∧ _ |- _ => destruct H end; by subst. }
    exists g'. split; [done|]. intros s' Eg Eh Ew Eht En. subst g'.
    assert (Hh : ∀ r, heap s' r = heap st r).
    { intros r. by rewrite Eh, swapCoords_same. }
    split; [by apply (boardOk_ext st)|]. split.
    + intros r. unfold gridRefs. by rewrite Eg.
    + apply fullBoard_cells; [done..|]. intros x y. unfold filled.
      by rewrite Eg.
  - destruct (exchangeGems_boardOk st a b Hok Ha Hb Hne) as (st1 & E & Hok1 & Hr).
    unfold exchangeGems in E. apply bind_Ok in E as (g' & Hp & [= <-]).
    exists g'. split; [done|]. intros s' Eg Eh Ew Eht En.
    split.
    { by apply (boardOk_ext
                  (setGems (setHeap st (swapCoords (heap st) a b)) g')). }
    split.
    + intros r. rewrite <- Hr. unfold gridRefs. simpl. by rewrite Eg.
    + apply fullBoard_cells; [done..|]. intros x y [r Hxy].
      unfold filled. rewrite Eg.
      unfold placeBoth in Hp. apply bind_Ok in Hp as (g1 & E1 & E2).
      rewrite (cellSet_cellAt _ _ _ _ _ x y E2).
      case_decide; [by eexists|].
      rewrite (cellSet_cellAt _ _ _ _ _ x y E1).
      case_decide; [by eexists|]. by exists r.
Qed.

Lemma fullBoard_mjoin st c :
  wfBoard st → fullBoard st → c ∈ mjoin (gems st) →
  ∃ r, c = Some r ∧ r ∈ gridRefs st.
Proof.
  intros Hwf Hfull Hc.
  pose proof (mjoin_cell _ _ Hc) as (x & col & y & Hx & Hy).
  assert (Hl : (length <$> gems st) !! x = Some (length col))
    by (by rewrite list_lookup_fmap, Hx).
  rewrite Hwf in Hl. apply lookup_replicate in Hl as [Hl Hxw].
  apply lookup_lt_Some in Hy as Hyl.
  destruct (Hfull x y) as [r Hr]; [lia..|].
  unfold cellAt in Hr. rewrite Hx, Hy in Hr. simpl in Hr.
  injection Hr as ->. exists r. split; [done|].
  apply list_elem_of_omap. by exists (Some r).
Qed.

(** On a full board that satisfies the invariant [shuffleGems] returns
    and leaves a permutation of the board: again full and consistent, with
    the same gems, each of the type it had. *)
Theorem shuffleGems_permutes st :
  boardOk st → fullBoard st →
  ∃ st', shuffleGems st = Ok st' ∧ boardOk st' ∧ fullBoard st' ∧
         (∀ r, r ∈ gridRefs st' ↔ r ∈ gridRefs st) ∧
         (∀ r, gemType (heap st' r) = gemType (heap st r)).
Proof.
  intros Hok Hfull. unfold shuffleGems.
  set (allGems := mjoin (gems st)).
  set (I := λ s : GemGrid,
         boardOk s ∧ fullBoard s ∧
         (∀ r, r ∈ gridRefs s ↔ r ∈ gridRefs st) ∧
         (∀ r, gemType (heap s r) = gemType (heap st r))).
  destruct (forEachM_total (shuffleStep allGems) I
              (reverse (seq 1 (length allGems - 1))) ) with (s := st)
    as (st' & E & HI); [| |by exists st'].
  2:{ unfold I. by split_and!. }
  intros s i Hi (Hoks & Hfulls & Hrefs & Htypes).
  apply elem_of_reverse, elem_of_seq in Hi.
  assert (Hget : ∀ k, k < length allGems →
            ∃ r, default None (allGems !! k) = Some r ∧ r ∈ gridRefs s).
  { intros k Hk. destruct (lookup_lt_is_Some_2 allGems k Hk) as [c Hc].
    rewrite Hc. simpl.
    destruct (fullBoard_mjoin st c) as (r & -> & Hr);
      [apply Hok|done|by eapply list_elem_of_lookup_2|].
    exists r. split; [done|]. by apply Hrefs. }
  destruct (Hget i) as (gi & Egi & Hgi); [lia|].
  destruct (Hget (rng s (draws s) `mod` (i + 1))) as (gj & Egj & Hgj).
  { pose proof (Nat.mod_upper_bound (rng s (draws s)) (i + 1)). lia. }
  unfold shuffleStep. rewrite Egi, Egj. simpl.
  destruct (placeBoth_swap s gi gj Hoks Hgi Hgj) as (g' & Hp & Hs').
  rewrite Hp. simpl. eexists. split; [done|].
  match goal with |- I ?s' =>
    destruct (Hs' s') as (Hok' & Hrefs' & Hfull'); try done
  end.
  unfold I. split_and!; [done|by apply Hfull'| |].
  - intros r. by rewrite Hrefs'.
  - intros r. simpl. by rewrite swapCoords_gemType.
Qed.

Lemma shuffleGems_permutes_witness :
  boardOk quietBoard ∧ fullBoard quietBoard ∧
  ∃ st', shuffleGems quietBoard = Ok st' ∧ boardOk st' ∧ fullBoard st' ∧
         (∀ r, r ∈ gridRefs st' ↔ r ∈ gridRefs quietBoard) ∧
         (∀ r, gemType (heap st' r) = gemType (heap quietBoard r)).
Proof.
  assert (H1 : boardOk quietBoard) by apply boardOfRows_boardOk.
  assert (H2 : fullBoard quietBoard).
  { intros x y Hx Hy. simpl in Hx, Hy.
    destruct x as [|[|[|x]]]; [..|lia];
      (destruct y as [|[|[|y]]]; [..|lia]); by eexists. }
  split; [exact H1|]. split; [exact H2|].
  exact (shuffleGems_permutes quietBoard H1 H2).
Defined.

(** ** Clicks *)

Lemma forEachM_rel {A T} (f : T → A → result T) (R : T → T → Prop) :
  (∀ s, R s s) → (∀ s1 s2 s3, R s1 s2 → R s2 s3 → R s1 s3) →
  (∀ s a s', f s a = Ok s' → R s s') →
  ∀ l s s', forEachM f l s = Ok s' → R s s'.
Proof.
  intros Hrefl Htrans Hstep l s s' H.
  apply (forEachM_inv f R (λ _ _, True)) in H; [by destruct H|done..|].
  intros s0 a s1 H0. split; [by eapply Hstep|done].
Qed.

(** [trySwapGems] as a caller that awaits it sees it is the part that
    runs at once, the exchange, followed by what is left of it. *)
Lemma trySwapGems_resume scene fuel st gem1 gem2 :
  trySwapGems scene fuel st gem1 gem2
  = (st1 ← exchangeGems (setCanInput st false) gem1 gem2;
     resumeSwap scene fuel gem1 gem2 st1).
Proof.
  unfold trySwapGems, resumeSwap.
  change (swapGems scene (setCanInput st false) gem1 gem2)
    with (st1 ← exchangeGems (setCanInput st false) gem1 gem2;
          _ ← playSwapSound scene; Ok st1).
  destruct (exchangeGems (setCanInput st false) gem1 gem2); simpl; [|done..].
  destruct (playSwapSound scene) as [[]| |]; simpl; reflexivity.
Qed.

(** When no write raises, [startSwap] ends on the board of the
    exchange. *)
Lemma startSwap_exchange st gem1 gem2 st1 :
  exchangeGems (setCanInput st false) gem1 gem2 = Ok st1 →
  startSwap st gem1 gem2 = st1.
Proof.
  unfold exchangeGems, placeBoth, startSwap. simpl. intros H.
  apply bind_Ok in H as (g & Hg & [= <-]).
  apply bind_Ok in Hg as (g1 & E1 & E2). by rewrite E1, E2.
Qed.

Lemma startSwap_fields st gem1 gem2 :
  canInput (startSwap st gem1 gem2) = false ∧
  selectedGem (startSwap st gem1 gem2) = selectedGem st.
Proof.
  unfold startSwap. simpl.
  destruct (cellSet _ _ _ _) as [g1| |]; [|done..].
  by destruct (cellSet g1 _ _ _).
Qed.

(** A click on a gem next to the selected one starts a swap and returns
    when the swap first suspends: input is disabled, the selection is as
    it was, and the two gems are exchanged.  With the scene of the
    repository what is left of the swap raises at the swap sound, so
    input is never enabled again: every later click returns without any
    effect. *)
Theorem handleGemClick_swap_disables_input st selected gem :
  canInput st = true → selectedGem st = Some selected → selected ≠ gem →
  areGemsAdjacent st selected gem = true →
  canInput (handleGemClick st gem) = false ∧
  selectedGem (handleGemClick st gem) = Some selected ∧
  (∀ st1, exchangeGems (setCanInput st false) selected gem = Ok st1 →
          handleGemClick st gem = st1 ∧
          ∀ combo score fuel,
            resumeSwap (gameScene combo score) fuel selected gem st1
            = TypeError) ∧
  (∀ gem', handleGemClick (handleGemClick st gem) gem'
           = handleGemClick st gem).
Proof.
  intros Hin Hsel Hne Hadj.
  assert (E : handleGemClick st gem = startSwap st selected gem).
  { unfold handleGemClick. rewrite Hin, Hsel, Hadj. simpl.
    by destruct (Nat.eqb_spec selected gem). }
  rewrite E. destruct (startSwap_fields st selected gem) as [Hc Hs].
  split; [done|]. split; [congruence|]. split.
  - intros st1 H1. split; [by apply startSwap_exchange|done].
  - intros gem'. unfold handleGemClick at 1. by rewrite Hc.
Qed.

Lemma handleGemClick_swap_disables_input_witness :
  canInput quietSelected = true ∧ selectedGem quietSelected = Some 0 ∧
  0 ≠ 1 ∧ areGemsAdjacent quietSelected 0 1 = true ∧
  cellAt (gems quietSelected) 0 0 = Ok (Some 0) ∧
  cellAt (gems (handleGemClick quietSelected 1)) 0 0 = Ok (Some 1) ∧
  canInput (handleGemClick quietSelected 1) = false ∧
  selectedGem (handleGemClick quietSelected 1) = Some 0 ∧
  (∀ st1, exchangeGems (setCanInput quietSelected false) 0 1 = Ok st1 →
          handleGemClick quietSelected 1 = st1 ∧
          ∀ combo score fuel,
            resumeSwap (gameScene combo score) fuel 0 1 st1 = TypeError) ∧
  (∀ gem', handleGemClick (handleGemClick quietSelected 1) gem'
           = handleGemClick quietSelected 1).
Proof.
  assert (H1 : canInput quietSelected = true) by reflexivity.
  assert (H2 : selectedGem quietSelected = Some 0) by reflexivity.
  assert (H3 : 0 ≠ 1) by lia.
  assert (H4 : areGemsAdjacent quietSelected 0 1 = true)
    by (vm_compute; reflexivity).
  repeat (split; [assumption|]).
  split; [vm_compute; reflexivity|]. split; [vm_compute; reflexivity|].
  exact (handleGemClick_swap_disables_input quietSelected 0 1 H1 H2 H3 H4).
Defined.

(** A click on a gem of the grid, with the selected gem (if any) on the
    grid too, leaves a board that satisfies the invariant and holds the
    same gems: also when it starts a swap and returns with two gems
    exchanged. *)
Theorem handleGemClick_boardOk st gem :
  boardOk st → gem ∈ gridRefs st →
  (∀ selected, selectedGem st = Some selected → selected ∈ gridRefs st) →
  boardOk (handleGemClick st gem) ∧
  (∀ r, r ∈ gridRefs (handleGemClick st gem) ↔ r ∈ gridRefs st).
Proof.
  intros Hok Hgem Hsel. unfold handleGemClick.
  destruct (canInput st); simpl; [|done].
  destruct (selectedGem st) as [selected|] eqn:Es.
  2:{ split; [by eapply boardOk_same|done]. }
  destruct (Nat.eqb_spec selected gem) as [->|Hne].
  { destruct (deselectGem_fields st) as (Eg & Eh & Ew & Eht & En & _).
    split; [by eapply boardOk_same|]. unfold gridRefs. by rewrite Eg. }
  destruct (areGemsAdjacent st selected gem).
  2:{ split; [by eapply boardOk_same|done]. }
  destruct (exchangeGems_boardOk (setCanInput st false) selected gem)
    as (st1 & E & Hok1 & Hrefs);
    [by eapply boardOk_same|by apply Hsel|done|done|].
  rewrite (startSwap_exchange _ _ _ _ E). by split.
Qed.

Lemma handleGemClick_boardOk_witness :
  boardOk quietSelected ∧ 1 ∈ gridRefs quietSelected ∧
  (∀ selected, selectedGem quietSelected = Some selected →
               selected ∈ gridRefs quietSelected) ∧
  cellAt (gems quietSelected) 0 0 = Ok (Some 0) ∧
  cellAt (gems (handleGemClick quietSelected 1)) 0 0 = Ok (Some 1) ∧
  boardOk (handleGemClick quietSelected 1) ∧
  (∀ r, r ∈ gridRefs (handleGemClick quietSelected 1)
        ↔ r ∈ gridRefs quietSelected).
Proof.
  assert (H1 : boardOk quietSelected).
  { apply (boardOk_same quietBoard); [done..|apply boardOfRows_boardOk]. }
  assert (H2 : 1 ∈ gridRefs quietSelected)
    by (apply (cellAt_gridRefs _ 0 1); reflexivity).
  assert (H3 : ∀ selected, selectedGem quietSelected = Some selected →
                           selected ∈ gridRefs quietSelected).
  { intros selected [= <-]. apply (cellAt_gridRefs _ 0 0). reflexivity. }
  split; [exact H1|]. split; [exact H2|]. split; [exact H3|].
  split; [vm_compute; reflexivity|]. split; [vm_compute; reflexivity|].
  exact (handleGemClick_boardOk quietSelected 1 H1 H2 H3).
Defined.

(** ** Scores *)

Lemma log2_increasing (x y : R) :
  (0 < x)%R → (x <= y)%R → (Game.log2 x <= Game.log2 y)%R.
Proof.
  intros Hx Hxy. unfold Game.log2.
  assert (H2 : (0 < ln 2)%R) by (rewrite <- ln_1; apply ln_increasing; lra).
  assert (Hln : (ln x <= ln y)%R).
  { destruct (Req_dec x y) as [->|Hne]; [lra|].
    left. apply ln_increasing; lra. }
  apply Rmult_le_compat_r; [|done].
  left. by apply Rinv_0_lt_compat.
Qed.

(** The combo multiplier of [Game.calculateComboMultiplier] is at least 1
    and never decreases when the combo count grows. *)
Theorem calculateComboMultiplier_monotone (c c' : nat) :
  c ≤ c' →
  (1 <= Game.calculateComboMultiplier c <= Game.calculateComboMultiplier c')%R.
Proof.
  intros Hc.
  assert (Hge : ∀ d, (1 <= Game.calculateComboMultiplier d)%R).
  { intros d. unfold Game.calculateComboMultiplier.
    destruct d as [|d]; simpl Nat.eqb; cbv iota; [lra|].
    assert (0 <= Game.log2 (INR (S d) + 1))%R; [|lra].
    replace 0%R with (Game.log2 1) by (unfold Game.log2; rewrite ln_1; lra).
    apply log2_increasing; [lra|]. pose proof (pos_INR (S d)). lra. }
  split; [apply Hge|].
  destruct c as [|c].
  { simpl. apply Hge. }
  destruct c' as [|c']; [lia|].
  unfold Game.calculateComboMultiplier. simpl Nat.eqb. cbv iota.
  assert (Game.log2 (INR (S c) + 1) <= Game.log2 (INR (S c') + 1))%R; [|lra].
  apply log2_increasing.
  - pose proof (pos_INR (S c)). lra.
  - apply le_INR in Hc. lra.
Qed.

Lemma calculateComboMultiplier_monotone_witness :
  1 ≤ 3 ∧
  (1 <= Game.calculateComboMultiplier 1 <= Game.calculateComboMultiplier 3)%R.
Proof.
  assert (H : 1 ≤ 3) by lia.
  split; [exact H|]. exact (calculateComboMultiplier_monotone 1 3 H).
Defined.

(** ** The reshuffle *)

(** [reshuffleBoard] returns on no board: the exit test of its loop
    asks [hasValidMoves] for [true] and [findMatches] for an empty result
    on the same board, and the first excludes the second. *)
Theorem reshuffleBoard_never_returns fuel st st' :
  reshuffleBoard fuel st ≠ Ok st'.
Proof.
  unfold reshuffleBoard. intros H.
  apply bind_Ok in H as (st1 & H & _).
  by eapply reshuffleLoop_never_returns.
Qed.

(** ** The matches [findMatches] reports *)

(** *** Runs are segments of a row or column *)

Lemma fold_segments st ty cells : ∀ done ms run cur ms' run' cur',
  (∃ a, run = drop a done) →
  foldl (scanStep st ty) (ms, run, cur) cells = (ms', run', cur') →
  (∃ a, run' = drop a (done ++ cells)) ∧
  ∀ m, m ∈ ms' → m ∈ ms ∨ ∃ a k, mgems m = take k (drop a (done ++ cells)).
Proof.
  induction cells as [|c cells IH]; intros dn ms run cur ms' run' cur' Hrun H.
  { injection H as <- <- _. rewrite app_nil_r. split; [done|]. by left. }
  cbn [foldl] in H.
  replace (dn ++ c :: cells) with ((dn ++ [c]) ++ cells)
    by (by rewrite <- app_assoc).
  destruct Hrun as [a Ha].
  assert (Hflush : ∀ m, m ∈ flushRun ty ms run →
            m ∈ ms ∨ ∃ a k, mgems m = take k (drop a ((dn ++ [c]) ++ cells))).
  { intros m Hm. unfold flushRun in Hm. destruct (3 <=? length run); [|by left].
    apply elem_of_app in Hm as [Hm|Hm]; [by left|]. right.
    apply list_elem_of_singleton in Hm as ->. simpl.
    destruct (decide (a ≤ length dn)) as [Hle|Hgt].
    - exists a, (length dn - a). rewrite <- app_assoc.
      rewrite drop_app_le by lia. rewrite take_app_length'; [done|].
      rewrite length_drop. lia.
    - exists 0, 0. rewrite Ha, drop_ge by lia. done. }
  assert (Hreset : ∀ t,
            foldl (scanStep st ty) (flushRun ty ms run, [c], t) cells
            = (ms', run', cur') →
            (∃ a, run' = drop a ((dn ++ [c]) ++ cells)) ∧
            ∀ m, m ∈ ms' →
                 m ∈ ms ∨ ∃ a k, mgems m = take k (drop a ((dn ++ [c]) ++ cells))).
  { intros t Ht.
    destruct (IH (dn ++ [c]) _ _ _ _ _ _ (ex_intro _ (length dn)
                (eq_sym (drop_app_length dn [c]))) Ht) as [Hr Hm].
    split; [done|]. intros m Hin.
    destruct (Hm m Hin) as [Hin'|?]; [by apply Hflush|by right]. }
  unfold scanStep at 2 in H. destruct c as [r|]; [|by eapply Hreset].
  case_decide; [|by eapply Hreset].
  eapply (IH (dn ++ [Some r])); [|done].
  destruct (decide (a ≤ length dn)) as [Hle|Hgt].
  - exists a. by rewrite Ha, drop_app_le by lia.
  - exists (length dn). rewrite Ha, drop_ge by lia.
    by rewrite drop_app_length.
Qed.

Lemma scanLine_segments st ty (f : nat → nat * nat) n cells ms ms' :
  Forall2 (λ xy c, cellAt (gems st) xy.1 xy.2 = Ok c) (f <$> seq 0 n) cells →
  scanLine st ty (f <$> seq 0 n) ms = Ok ms' →
  ∀ m, m ∈ ms' →
       m ∈ ms ∨
       ∃ a, Forall2 (λ xy c, cellAt (gems st) xy.1 xy.2 = Ok c)
                    (f <$> seq a (length (mgems m))) (mgems m).
Proof.
  intros Hcells H m Hm. unfold scanLine in H.
  rewrite (scan_fold _ _ _ _ _ Hcells) in H.
  destruct (foldl _ _ cells) as [[ms1 run1] cur1] eqn:E. simpl in H.
  injection H as <-.
  destruct (fold_segments st ty cells [] ms [] None ms1 run1 cur1)
    as [[a Ha] Hms1]; [by exists 0|done|].
  simpl in Ha, Hms1.
  assert (Hseg : m ∈ ms ∨ ∃ a k, mgems m = take k (drop a cells)).
  { unfold flushRun in Hm. destruct (3 <=? length run1); [|by apply Hms1].
    apply elem_of_app in Hm as [Hm|Hm]; [by apply Hms1|]. right.
    apply list_elem_of_singleton in Hm as ->. simpl.
    exists a, (length run1). by rewrite Ha, take_ge by lia. }
  destruct Hseg as [?|(a' & k & Hk)]; [by left|]. right.
  exists a'. rewrite Hk.
  pose proof (Forall2_take _ _ _ k (Forall2_drop _ _ _ a' Hcells)) as HF.
  rewrite <- fmap_drop, <- fmap_take, drop_seq, take_seq in HF.
  apply Forall2_length in HF as Hl.
  rewrite length_fmap, length_seq in Hl. by rewrite <- Hl.
Qed.

(** Every run the two scans collect is a segment of a row or of a
    column. *)
Lemma rawMatches_segments st raw :
  wfBoard st → rawMatches st = Ok raw → Forall (segment st) raw.
Proof.
  intros Hwf H. unfold rawMatches in H.
  apply bind_Ok in H as (ms1 & Hrows & Hcols).
  assert (H1 : Forall (segment st) ms1).
  { revert Hrows. apply (forEachM_pres _ (Forall (segment st))); [|done].
    intros ms y ms' _ Hms Hline.
    destruct (row_cells st y Hwf) as [cells Hcells].
    apply list.Forall_forall. intros m Hm.
    destruct (scanLine_segments _ _ _ _ _ _ _ Hcells Hline m Hm)
      as [Hold|[a Ha]].
    - by apply (proj1 (list.Forall_forall _ _) Hms).
    - exists a, y. by left. }
  revert Hcols. apply (forEachM_pres _ (Forall (segment st))); [|done].
  intros ms x ms' Hx Hms Hline. apply elem_of_seq in Hx.
  destruct (column_cells st x Hwf) as [cells Hcells]; [lia|].
  apply list.Forall_forall. intros m Hm.
  destruct (scanLine_segments _ _ _ _ _ _ _ Hcells Hline m Hm)
    as [Hold|[a Ha]].
  - by apply (proj1 (list.Forall_forall _ _) Hms).
  - exists x, a. by right.
Qed.

(** *** The search is closed under registered neighbours *)

Lemma closedFrom_trans st mm (C1 C2 C3 : list nat) :
  (∀ r, r ∈ C2 → r ∈ C3) →
  closedFrom st mm C1 C2 → closedFrom st mm C2 C3 → closedFrom st mm C1 C3.
Proof.
  intros H23 H12 H' r Hr Hn adj a Hadj Ha Hk.
  destruct (decide (r ∈ C2)) as [Hin|Hout].
  - apply H23. by eapply H12.
  - by eapply H'.
Qed.

Lemma findConnectedGems_closed st mm fuel : ∀ gem C R,
  findConnectedGems fuel st gem mm C = Ok R →
  (∀ r, r ∈ C → r ∈ R) ∧ gem ∈ R ∧ closedFrom st mm C R.
Proof.
  induction fuel as [|fuel IH]; intros gem C R H; [done|].
  simpl in H. case_decide as Hin.
  { injection H as <-. split; [done|]. split; [done|].
    intros r Hr Hn. done. }
  apply bind_Ok in H as (adj & Hadj & Hloop).
  set (Rel := λ c c' : list nat,
         (∀ r, r ∈ c → r ∈ c') ∧ closedFrom st mm c c').
  set (P := λ (a : option nat) (c : list nat),
         ∀ r, a = Some r → is_Some (mm !! keyOf st r) → r ∈ c).
  eapply (forEachM_inv _ Rel P) in Hloop as [[Hsub Hcl] HP].
  - split; [intros r Hr; apply Hsub, elem_of_app; by left|].
    split; [apply Hsub, elem_of_app; right; by apply list_elem_of_singleton|].
    intros r Hr Hn adj' a Hadj' Ha Hk.
    destruct (decide (r = gem)) as [->|Hne].
    + rewrite Hadj in Hadj'. injection Hadj' as <-. by apply (HP (Some a)).
    + eapply Hcl; [done| |done..].
      intros Hin'. apply elem_of_app in Hin' as [?|Hs]; [done|].
      by apply list_elem_of_singleton in Hs.
  - intros c. split; [done|]. by intros r Hr Hn.
  - intros c1 c2 c3 [S1 K1] [S2 K2]. split; [auto|].
    by apply (closedFrom_trans st mm c1 c2 c3).
  - intros a c c' HPa [Hs _] r Hr Hk. by apply Hs, HPa.
  - intros c a c' Hstep. unfold followNeighbour in Hstep.
    destruct a as [a|].
    2:{ injection Hstep as <-. split; [|done].
        split; [done|]. by intros r Hr Hn. }
    case_decide as Hk.
    + apply IH in Hstep as (Hs & Ha & Hc).
      split; [by split|]. by intros r [= <-] _.
    + injection Hstep as <-. split.
      * split; [done|]. by intros r Hr Hn.
      * by intros r [= <-] ?.
Qed.

(** [getAdjacentGems] returns what the cell to the right and the cell
    below hold, and likewise what the cells to the left and above hold. *)
Lemma getAdjacentGems_contains st x y x' y' adj c :
  getAdjacentGems st x y = Ok adj →
  x' < width st → y' < height st →
  (x' = S x ∧ y' = y) ∨ (x' = x ∧ y' = S y) ∨
  (S x' = x ∧ y' = y) ∨ (x' = x ∧ S y' = y) →
  cellAt (gems st) x' y' = Ok c → c ∈ adj.
Proof.
  intros H Hx Hy Hn Hc.
  unfold getAdjacentGems, directions in H. simpl in H.
  apply bind_Ok in H as (a1 & H1 & H).
  apply bind_Ok in H as (a2 & H2 & H).
  apply bind_Ok in H as (a3 & H3 & H).
  apply bind_Ok in H as (a4 & H4 & [= <-]).
  assert (Hkeep : ∀ a a' d, pushNeighbour st x y a d = Ok a' → c ∈ a → c ∈ a').
  { intros a a' d Hp Hin. unfold pushNeighbour in Hp.
    destruct (isValidGridPosition st _ _); [|by injection Hp as <-].
    apply bind_Ok in Hp as (c' & _ & [= <-]). apply elem_of_app. by left. }
  assert (Hpush : ∀ a a' (d : Z * Z),
            pushNeighbour st x y a d = Ok a' →
            (Z.of_nat x + d.1 = Z.of_nat x')%Z →
            (Z.of_nat y + d.2 = Z.of_nat y')%Z → c ∈ a').
  { intros a a' d Hp Hdx Hdy. unfold pushNeighbour in Hp.
    rewrite Hdx, Hdy in Hp.
    rewrite (proj2 (isValidGridPosition_spec st _ _)) in Hp by lia.
    rewrite !Nat2Z.id, Hc in Hp. simpl in Hp. injection Hp as <-.
    apply elem_of_app. right. by apply list_elem_of_singleton. }
  destruct Hn as [[-> ->]|[[-> ->]|[[<- ->]|[-> <-]]]].
  - eapply Hkeep; [done|]. eapply Hkeep; [done|].
    eapply (Hpush _ _ (1, 0)%Z); [done|simpl; lia..].
  - eapply Hkeep; [done|].
    eapply (Hpush _ _ (0, 1)%Z); [done|simpl; lia..].
  - eapply (Hpush _ _ (-1, 0)%Z); [done|simpl; lia..].
  - eapply Hkeep; [done|]. eapply Hkeep; [done|]. eapply Hkeep; [done|].
    eapply (Hpush _ _ (0, -1)%Z); [done|simpl; lia..].
Qed.

Lemma findConnectedGems_NoDup st mm fuel : ∀ gem C R,
  findConnectedGems fuel st gem mm C = Ok R → NoDup C → NoDup R.
Proof.
  induction fuel as [|fuel IH]; intros gem C R H Hnd; [done|].
  simpl in H. case_decide as Hin; [by injection H as <-|].
  apply bind_Ok in H as (adj & _ & Hloop). revert Hloop.
  apply (forEachM_pres _ (λ c : list nat, NoDup c)).
  - intros c a c' _ Hc Hstep. unfold followNeighbour in Hstep.
    destruct a as [a|]; [|by injection Hstep as <-].
    case_decide; [by eapply IH|by injection Hstep as <-].
  - apply list.NoDup_app. split; [done|]. split; [|apply NoDup_singleton].
    intros r Hr Hr'. by apply list_elem_of_singleton in Hr' as ->.
Qed.

(** What the search for one match collects. *)
Lemma collectIntersecting_closed st mm gs R :
  forEachM (collectIntersecting st mm) gs [] = Ok R →
  NoDup R ∧ closedFrom st mm [] R ∧
  (R = [] ∨ ∃ g, Some g ∈ gs ∧ g ∈ R).
Proof.
  intros H. split_and!.
  - revert H. apply (forEachM_pres _ (λ c : list nat, NoDup c));
      [|apply NoDup_nil_2].
    intros c gem c' _ Hc Hstep. unfold collectIntersecting in Hstep.
    apply bind_Ok in Hstep as (r & _ & Hstep).
    destruct (mm !! keyOf st r); [|done].
    destruct (1 <? _); [by eapply findConnectedGems_NoDup|].
    by injection Hstep as <-.
  - set (Rel := λ c c' : list nat,
           (∀ r, r ∈ c → r ∈ c') ∧ closedFrom st mm c c').
    assert (HR : Rel [] R); [|by destruct HR].
    revert H. apply forEachM_rel.
    + intros c. split; [done|]. by intros r Hr Hn.
    + intros c1 c2 c3 [S1 K1] [S2 K2]. split; [auto|].
      by apply (closedFrom_trans st mm c1 c2 c3).
    + intros c gem c' Hstep. unfold collectIntersecting in Hstep.
      apply bind_Ok in Hstep as (r & _ & Hstep).
      destruct (mm !! keyOf st r); [|done].
      destruct (1 <? _).
      * apply findConnectedGems_closed in Hstep as (? & _ & ?). by split.
      * injection Hstep as <-. split; [done|]. by intros r' Hr Hn.
  - revert H.
    apply (forEachM_pres _ (λ c : list nat,
             c = [] ∨ ∃ g, Some g ∈ gs ∧ g ∈ c)); [|by left].
    intros c gem c' Hgem Hc Hstep. unfold collectIntersecting in Hstep.
    apply bind_Ok in Hstep as (r & Hr & Hstep).
    destruct gem as [r0|]; [|done]. injection Hr as ->.
    destruct (mm !! keyOf st r); [|done].
    destruct (1 <? _).
    + apply findConnectedGems_closed in Hstep as (_ & Hin & _).
      right. by exists r.
    + by injection Hstep as <-.
Qed.

Lemma cell_bounds st x y r :
  wfBoard st → cellAt (gems st) x y = Ok (Some r) →
  x < width st ∧ y < height st.
Proof.
  intros Hwf H. apply (typeAt_Some_bounds st x y (gemType (heap st r)) Hwf).
  unfold typeAt. by rewrite H.
Qed.

(** A chain of registered gems, each the right or lower neighbour of the
    one before: the search has all of them or none. *)
Lemma chain_connected st mm (pos : nat → nat * nat) gs R :
  boardOk st →
  (∀ i, pos (S i) = (S (pos i).1, (pos i).2) ∨
        pos (S i) = ((pos i).1, S (pos i).2)) →
  (∀ i c, gs !! i = Some c →
          ∃ r, c = Some r ∧ cellAt (gems st) (pos i).1 (pos i).2 = Ok (Some r)) →
  registered st mm gs → closedFrom st mm [] R →
  ∀ j g, gs !! j = Some (Some g) → g ∈ R →
  ∀ i r, gs !! i = Some (Some r) → r ∈ R.
Proof.
  intros [Hwf Hc] Hpos Hcells Hreg Hcl.
  assert (Hstep : ∀ i a b, gs !! i = Some (Some a) → gs !! S i = Some (Some b) →
                           (a ∈ R → b ∈ R) ∧ (b ∈ R → a ∈ R)).
  { intros i a b Ha Hb.
    destruct (Hcells _ _ Ha) as (a' & [= <-] & Ca).
    destruct (Hcells _ _ Hb) as (b' & [= <-] & Cb).
    destruct (Hc _ _ _ Ca) as [Ka _], (Hc _ _ _ Cb) as [Kb _].
    unfold keyOf in Ka, Kb. injection Ka as Xa Ya. injection Kb as Xb Yb.
    destruct (cell_bounds _ _ _ _ Hwf Ca) as [Bxa Bya].
    destruct (cell_bounds _ _ _ _ Hwf Cb) as [Bxb Byb].
    destruct (getAdjacentGems_total st (pos i).1 (pos i).2 Hwf)
      as (adja & Ea & _).
    destruct (getAdjacentGems_total st (pos (S i)).1 (pos (S i)).2 Hwf)
      as (adjb & Eb & _).
    assert (Hra : is_Some (mm !! keyOf st a))
      by (apply Hreg; by eapply list_elem_of_lookup_2).
    assert (Hrb : is_Some (mm !! keyOf st b))
      by (apply Hreg; by eapply list_elem_of_lookup_2).
    split; intros Hin.
    - apply (Hcl a Hin (not_elem_of_nil _) adja b); [by rewrite Xa, Ya| |done].
      eapply getAdjacentGems_contains; [done|exact Bxb|exact Byb| |done].
      destruct (Hpos i) as [E|E]; rewrite E; simpl; auto.
    - apply (Hcl b Hin (not_elem_of_nil _) adjb a); [by rewrite Xb, Yb| |done].
      eapply getAdjacentGems_contains; [done|exact Bxa|exact Bya| |done].
      destruct (Hpos i) as [E|E]; rewrite E; simpl; auto. }
  assert (Hall : ∀ i r, gs !! i = Some (Some r) →
                 ∀ g0, gs !! 0 = Some (Some g0) → (r ∈ R ↔ g0 ∈ R)).
  { induction i as [|i IH]; intros r Hr g0 H0.
    { rewrite H0 in Hr. by injection Hr as ->. }
    destruct (lookup_lt_is_Some_2 gs i) as [c Hci].
    { apply lookup_lt_Some in Hr. lia. }
    destruct (Hcells _ _ Hci) as (a & -> & _).
    destruct (Hstep i a r Hci Hr) as [H1 H2].
    rewrite <- (IH a Hci g0 H0). split; auto. }
  intros j g Hj Hg i r Hi.
  destruct (lookup_lt_is_Some_2 gs 0) as [c0 H0].
  { apply lookup_lt_Some in Hj. lia. }
  destruct (Hcells _ _ H0) as (g0 & -> & _).
  apply (Hall i r Hi g0 H0). by apply (Hall j g Hj g0 H0).
Qed.

Lemma chain_distinct st (pos : nat → nat * nat) (gs : list (option nat))
    (a b c : nat) :
  consistent st →
  (∀ i, pos (S i) = (S (pos i).1, (pos i).2) ∨
        pos (S i) = ((pos i).1, S (pos i).2)) →
  (∀ i c, gs !! i = Some c →
          ∃ r, c = Some r ∧ cellAt (gems st) (pos i).1 (pos i).2 = Ok (Some r)) →
  gs !! 0 = Some (Some a) → gs !! 1 = Some (Some b) → gs !! 2 = Some (Some c) →
  NoDup [a; b; c].
Proof.
  intros Hc Hpos Hcells H0 H1 H2.
  destruct (Hcells _ _ H0) as (a' & [= <-] & Ca).
  destruct (Hcells _ _ H1) as (b' & [= <-] & Cb).
  destruct (Hcells _ _ H2) as (c' & [= <-] & Cc).
  destruct (Hc _ _ _ Ca) as [Ka _], (Hc _ _ _ Cb) as [Kb _],
           (Hc _ _ _ Cc) as [Kc _].
  assert (Hsum : ∀ i, (pos (S i)).1 + (pos (S i)).2 = S ((pos i).1 + (pos i).2)).
  { intros i. destruct (Hpos i) as [E|E]; rewrite E; simpl; lia. }
  pose proof (Hsum 0). pose proof (Hsum 1).
  assert (a ≠ b).
  { intros ->. rewrite Ka in Kb. injection Kb as E1 E2. lia. }
  assert (b ≠ c).
  { intros ->. rewrite Kb in Kc. injection Kc as E1 E2. lia. }
  assert (a ≠ c).
  { intros ->. rewrite Ka in Kc. injection Kc as E1 E2. lia. }
  apply NoDup_cons_2.
  { intros Hin. apply elem_of_cons in Hin as [?|Hin]; [done|].
    by apply list_elem_of_singleton in Hin. }
  apply NoDup_cons_2; [|apply NoDup_singleton].
  intros Hin. by apply list_elem_of_singleton in Hin.
Qed.

Lemma segment_chain st m :
  segment st m → (∀ c, c ∈ mgems m → ∃ r : nat, c = Some r) →
  ∃ pos : nat → nat * nat,
    (∀ i, pos (S i) = (S (pos i).1, (pos i).2) ∨
          pos (S i) = ((pos i).1, S (pos i).2)) ∧
    (∀ i c, mgems m !! i = Some c →
            ∃ r, c = Some r ∧ cellAt (gems st) (pos i).1 (pos i).2 = Ok (Some r)).
Proof.
  intros (x & y & Hseg) Hsome.
  destruct Hseg as [Hseg|Hseg].
  - exists (λ i, (x + i, y)). split.
    { intros i. left. simpl. f_equal. lia. }
    intros i c Hi.
    destruct (Hsome c) as [r ->]; [by eapply list_elem_of_lookup_2|].
    exists r. split; [done|]. simpl.
    unfold rowSegment in Hseg.
    eapply (Forall2_lookup_lr _ _ _ i (x + i, y) (Some r)) in Hseg; [done| |done].
    rewrite list_lookup_fmap, lookup_seq_lt; [done|].
    by eapply lookup_lt_Some.
  - exists (λ i, (x, y + i)). split.
    { intros i. right. simpl. f_equal. lia. }
    intros i c Hi.
    destruct (Hsome c) as [r ->]; [by eapply list_elem_of_lookup_2|].
    exists r. split; [done|]. simpl.
    unfold columnSegment in Hseg.
    eapply (Forall2_lookup_lr _ _ _ i (x, y + i) (Some r)) in Hseg; [done| |done].
    rewrite list_lookup_fmap, lookup_seq_lt; [done|].
    by eapply lookup_lt_Some.
Qed.

(** A pattern built around a crossing holds at least the whole run it
    was started from. *)
Lemma consolidateStep_three st mm cs p m cs' p' :
  boardOk st → segment st m → uniformMatch st m →
  registered st mm (mgems m) →
  consolidateStep st mm (cs, p) m = Ok (cs', p') →
  Forall (λ m', 3 ≤ length (mgems m')) cs →
  Forall (λ m', 3 ≤ length (mgems m')) cs'.
Proof.
  intros Hok Hseg Hu Hreg H Hcs. unfold consolidateStep in H.
  apply bind_Ok in H as (skip & _ & H). destruct skip.
  { by injection H as <- _. }
  apply bind_Ok in H as (inter & Hinter & H).
  destruct (0 <? length inter) eqn:Hlen.
  2:{ apply bind_Ok in H as (rs & _ & [= <- _]).
      apply Forall_app. split; [done|]. apply Forall_singleton. apply Hu. }
  injection H as <- _.
  apply Forall_app. split; [done|]. apply Forall_singleton. simpl.
  rewrite length_fmap.
  destruct (collectIntersecting_closed _ _ _ _ Hinter) as (Hnd & Hcl & Hne).
  destruct Hne as [->|(g & Hg & Hin)]; [done|].
  destruct Hu as (Hl & t & Ht).
  assert (Hsome : ∀ c, c ∈ mgems m → ∃ r : nat, c = Some r).
  { intros c Hc. destruct (Ht c Hc) as (r & -> & _). by exists r. }
  destruct (segment_chain st m Hseg Hsome) as (pos & Hpos & Hcells).
  apply list_elem_of_lookup_1 in Hg as [j Hj].
  pose proof (chain_connected st mm pos (mgems m) inter Hok Hpos Hcells
                Hreg Hcl j g Hj Hin) as Hall.
  destruct (mgems m) as [|c0 [|c1 [|c2 gs]]] eqn:Egs; simpl in Hl; try lia.
  destruct (Hsome c0) as [a ->]; [by left|].
  destruct (Hsome c1) as [b ->]; [right; by left|].
  destruct (Hsome c2) as [c ->]; [right; right; by left|].
  assert (Hd : NoDup [a; b; c]).
  { eapply (chain_distinct st pos); [apply Hok|done|done|done..]. }
  assert (Hsub : [a; b; c] ⊆+ inter).
  { apply NoDup_submseteq; [done|]. intros r Hr.
    apply elem_of_cons in Hr as [->|Hr]; [by apply (Hall 0)|].
    apply elem_of_cons in Hr as [->|Hr]; [by apply (Hall 1)|].
    apply list_elem_of_singleton in Hr as ->. by apply (Hall 2). }
  by apply submseteq_length in Hsub.
Qed.

(** Every match [findMatches] reports on a board that satisfies the
    invariant has at least three gems, and every one of them is a gem of
    the grid (none is [null]). *)
Theorem findMatches_reports_three_gems st matches :
  boardOk st → findMatches st = Ok matches →
  Forall (λ m, 3 ≤ length (mgems m) ∧ gridMatch st m) matches.
Proof.
  intros Hok H.
  pose proof (findMatches_gridMatch st matches (proj1 Hok) H) as Hgrid.
  unfold findMatches in H. apply bind_Ok in H as (raw & Hraw & H).
  pose proof (rawMatches_segments st raw (proj1 Hok) Hraw) as Hseg.
  destruct (rawMatches_total st (proj1 Hok)) as (raw' & Eraw & Hu).
  rewrite Hraw in Eraw. injection Eraw as <-.
  unfold consolidateMatches in H.
  apply bind_Ok in H as (mm & Hmm & H).
  destruct (buildMatchMap_total st raw Hu) as (mm' & Emm & Hreg).
  rewrite Hmm in Emm. injection Emm as <-.
  apply bind_Ok in H as ([cs p] & Hloop & [= <-]).
  assert (Hthree : Forall (λ m', 3 ≤ length (mgems m')) cs).
  { change cs with (cs, p).1. revert Hloop.
    apply (forEachM_pres _
             (λ acc : list Match * gset (nat * nat),
                Forall (λ m', 3 ≤ length (mgems m')) acc.1)); [|done].
    intros [cs0 p0] m [cs1 p1] Hm Hacc Hstep. simpl in *.
    eapply (consolidateStep_three st mm cs0 p0 m); [done| | | |done|done].
    - by apply (proj1 (list.Forall_forall _ _) Hseg).
    - by apply (proj1 (list.Forall_forall _ _) Hu).
    - by apply Hreg. }
  apply list.Forall_forall. intros m Hm. split.
  - by apply (proj1 (list.Forall_forall _ _) Hthree).
  - by apply (proj1 (list.Forall_forall _ _) Hgrid).
Qed.

Lemma findMatches_reports_three_gems_witness :
  boardOk plusBoard ∧
  findMatches plusBoard
  = Ok [mkMatch [Some 4; Some 3; Some 7; Some 5; Some 1] L_shape] ∧
  Forall (λ m, 3 ≤ length (mgems m) ∧ gridMatch plusBoard m)
         [mkMatch [Some 4; Some 3; Some 7; Some 5; Some 1] L_shape].
Proof.
  assert (H1 : boardOk plusBoard) by apply boardOfRows_boardOk.
  assert (H2 : findMatches plusBoard
               = Ok [mkMatch [Some 4; Some 3; Some 7; Some 5; Some 1] L_shape])
    by (vm_compute; reflexivity).
  split; [exact H1|]. split; [exact H2|].
  exact (findMatches_reports_three_gems plusBoard _ H1 H2).
Defined.

(** ** The state machine *)

Section GameStateMachine.

Variables (Scene Matches Num : Type).
Variable add : Num → Num → Num.
Variable zero : Num.
Variable setInputEnabled : bool → Scene → Scene.
Variable startMatchAnimations : Matches → Scene → Scene.
Variable startRefill : Scene → Scene.
Variable hasAutomaticMatches : Scene → bool.
Variable findMatches : Scene → Matches.
Variable areMoveAnimationsComplete : Scene → bool.
Variable areMatchAnimationsComplete : Scene → bool.
Variable isRefillComplete : Scene → bool.
Variable nonEmpty : Matches → bool.
Variable emitStateChanged :
  GameState.State → GameState.State → option Matches → Scene → Scene.

Abbreviation changeState :=
  (GameState.changeState Scene Matches Num zero setInputEnabled
     startMatchAnimations startRefill emitStateChanged).
Abbreviation update :=
  (GameState.update Scene Matches Num add zero setInputEnabled
     startMatchAnimations startRefill hasAutomaticMatches findMatches
     areMoveAnimationsComplete areMatchAnimationsComplete isRefillComplete
     nonEmpty emitStateChanged).

Abbreviation currentState := (GameState.currentState Scene Matches Num).
Abbreviation stateTime := (GameState.stateTime Scene Matches Num).
Abbreviation transitionData := (GameState.transitionData Scene Matches Num).

(** [changeState]: asking for the current state changes nothing, not even
    the timer or the transition data; entering [MATCHING] from another
    state without data raises a [TypeError]; every other change returns
    in the new state, with the timer at zero and the data given. *)
Theorem changeState_outcome newState data gs :
  (newState = currentState gs → changeState newState data gs = Ok gs) ∧
  (newState ≠ currentState gs → newState = GameState.MATCHING → data = None →
   changeState newState data gs = TypeError) ∧
  (newState ≠ currentState gs →
   (newState = GameState.MATCHING → data ≠ None) →
   ∃ gs', changeState newState data gs = Ok gs' ∧
          currentState gs' = newState ∧ stateTime gs' = zero ∧
          transitionData gs' = data).
Proof.
  unfold GameState.changeState. split_and!.
  - intros ->. by rewrite decide_True.
  - intros Hne -> ->. by rewrite decide_False.
  - intros Hne Hdata. rewrite decide_False by done.
    destruct newState; simpl; try by eexists.
    destruct data as [m|]; [by eexists|]. by destruct Hdata.
Qed.

(** [update] never raises: whenever it enters [MATCHING] it passes the
    matches.  It either stays in the state it was in, with [delta] added
    to the timer, or makes one of the transitions IDLE to MATCHING, MOVING
    to MATCHING, MATCHING to REFILLING, REFILLING to MATCHING or IDLE, with
    the timer back at zero; it never enters [MOVING]. *)
Theorem update_transitions delta gs :
  ∃ gs', update delta gs = Ok gs' ∧
         ((currentState gs' = currentState gs ∧
           stateTime gs' = add (stateTime gs) delta)
          ∨ (GameState.step (currentState gs) (currentState gs') ∧
             stateTime gs' = zero)).
Proof.
  unfold GameState.update, GameState.updateIdle,
    GameState.updateMoving, GameState.updateMatching,
    GameState.updateRefilling, GameState.changeState, GameState.step.
  destruct gs as [s t d sc]. simpl.
  destruct s; simpl;
    repeat match goal with
           | |- context [if ?b then _ else _] => destruct b; simpl
           end;
    eexists; (split; [reflexivity|]); simpl; try (left; done);
    right; split; try done; auto 10.
Qed.

End GameStateMachine.

(** ** Patterns around a crossing *)

(** *** The scans push no cell twice *)

Lemma rawCells_app a b : rawCells (a ++ b) = rawCells a ++ rawCells b.
Proof. unfold rawCells. by rewrite fmap_app, join_app. Qed.

Lemma cellRefs_app a b : cellRefs (a ++ b) = cellRefs a ++ cellRefs b.
Proof. apply omap_app. Qed.

Lemma fold_pushed st ty cells : ∀ ms run cur ms' run' cur',
  foldl (scanStep st ty) (ms, run, cur) cells = (ms', run', cur') →
  ∃ new, ms' = ms ++ new ∧ Forall (λ m, mtype m = ty) new ∧
         cellRefs (rawCells new ++ run') `sublist_of` cellRefs (run ++ cells).
Proof.
  induction cells as [|c cells IH]; intros ms run cur ms' run' cur' H.
  { injection H as <- <- _. exists []. split; [by rewrite app_nil_r|].
    split; [constructor|]. simpl. by rewrite app_nil_r. }
  cbn [foldl] in H.
  assert (Hreset : ∀ t,
            foldl (scanStep st ty) (flushRun ty ms run, [c], t) cells
            = (ms', run', cur') →
            ∃ new, ms' = ms ++ new ∧ Forall (λ m, mtype m = ty) new ∧
                   cellRefs (rawCells new ++ run')
                   `sublist_of` cellRefs (run ++ c :: cells)).
  { intros t Ht. destruct (IH _ _ _ _ _ _ Ht) as (new1 & E & Hty & Hsub).
    unfold flushRun in E. destruct (3 <=? length run).
    - exists (mkMatch run ty :: new1).
      split; [by rewrite E, <- app_assoc|]. split; [by constructor|].
      change (rawCells (mkMatch run ty :: new1)) with (run ++ rawCells new1).
      rewrite <- app_assoc, (cellRefs_app run), (cellRefs_app run).
      by apply sublist_app.
    - exists new1. split; [done|]. split; [done|].
      rewrite (cellRefs_app run). by apply sublist_inserts_l. }
  unfold scanStep at 2 in H. destruct c as [r|]; [|by eapply Hreset].
  case_decide; [|by eapply Hreset].
  destruct (IH _ _ _ _ _ _ H) as (new & E & Hty & Hsub).
  exists new. split; [done|]. split; [done|]. by rewrite <- app_assoc in Hsub.
Qed.

Lemma scanLine_pushed st ty coords cells ms ms' :
  Forall2 (λ xy c, cellAt (gems st) xy.1 xy.2 = Ok c) coords cells →
  scanLine st ty coords ms = Ok ms' →
  ∃ new, ms' = ms ++ new ∧ Forall (λ m, mtype m = ty) new ∧
         cellRefs (rawCells new) `sublist_of` cellRefs cells.
Proof.
  intros Hcells H. unfold scanLine in H.
  rewrite (scan_fold _ _ _ _ _ Hcells) in H.
  destruct (foldl _ _ cells) as [[ms1 run1] cur1] eqn:E. simpl in H.
  injection H as <-.
  destruct (fold_pushed _ _ _ _ _ _ _ _ _ E) as (new & -> & Hty & Hsub).
  simpl in Hsub. unfold flushRun. destruct (3 <=? length run1).
  - exists (new ++ [mkMatch run1 ty]). split; [by rewrite app_assoc|].
    split; [apply Forall_app; split; [done|by constructor]|].
    rewrite rawCells_app.
    change (rawCells [mkMatch run1 ty]) with (run1 ++ []).
    by rewrite app_nil_r.
  - exists new. split; [done|]. split; [done|].
    rewrite cellRefs_app in Hsub. etrans; [|exact Hsub].
    by apply sublist_inserts_r.
Qed.

(** One of the two double loops, over the lines [line i]. *)
Lemma scanPass_pushed st ty (line : nat → list (nat * nat)) idxs :
  wfBoard st →
  ∀ ms ms',
  (∀ i xy, i ∈ idxs → xy ∈ line i → xy.1 < width st) →
  forEachM (λ m i, scanLine st ty (line i) m) idxs ms = Ok ms' →
  ∃ new cells,
    ms' = ms ++ new ∧ Forall (λ m, mtype m = ty) new ∧
    Forall2 (λ xy c, cellAt (gems st) xy.1 xy.2 = Ok c)
            (mjoin (line <$> idxs)) cells ∧
    cellRefs (rawCells new) `sublist_of` cellRefs cells.
Proof.
  intros Hwf. induction idxs as [|i idxs IH]; intros ms ms' Hx H; simpl in H.
  { injection H as <-. exists [], []. rewrite app_nil_r.
    split; [done|]. split; [constructor|]. split; [constructor|done]. }
  apply bind_Ok in H as (ms1 & H1 & H2).
  destruct (line_cells st (line i) Hwf) as [cs Hcs].
  { intros xy Hxy. apply (Hx i); [by left|done]. }
  destruct (scanLine_pushed _ _ _ _ _ _ Hcs H1) as (n1 & -> & T1 & S1).
  destruct (IH _ _ (λ j xy Hj, Hx j xy (list_elem_of_further _ _ _ Hj)) H2)
    as (n2 & cs2 & -> & T2 & F2 & S2).
  exists (n1 ++ n2), (cs ++ cs2). split; [by rewrite app_assoc|].
  split; [apply Forall_app; by split|]. split.
  - simpl. by apply Forall2_app.
  - rewrite rawCells_app, !cellRefs_app. by apply sublist_app.
Qed.

(** On a consistent board, cells at different positions hold different
    gems. *)
Lemma cellRefs_NoDup st coords cells :
  consistent st → NoDup coords →
  Forall2 (λ xy c, cellAt (gems st) xy.1 xy.2 = Ok c) coords cells →
  NoDup (cellRefs cells).
Proof.
  intros Hc Hnd HF.
  induction HF as [|xy c coords cells Hxy HF IH]; [apply NoDup_nil_2|].
  pose proof (NoDup_cons_1_1 _ _ Hnd) as Hnot.
  pose proof (NoDup_cons_1_2 _ _ Hnd) as Hnd'.
  destruct c as [r|]; [|by apply IH].
  change (cellRefs (Some r :: cells)) with (r :: cellRefs cells).
  apply NoDup_cons_2; [|by apply IH].
  intros Hin. apply list_elem_of_omap in Hin as (c' & Hc' & Hr).
  simpl in Hr. subst c'.
  apply list_elem_of_lookup_1 in Hc' as [j Hj].
  destruct (Forall2_lookup_r _ _ _ j _ HF Hj) as (xy' & Hxy' & Hcell).
  destruct (Hc _ _ _ Hxy) as [K1 _], (Hc _ _ _ Hcell) as [K2 _].
  rewrite K1 in K2. apply Hnot.
  replace xy with xy' by (destruct xy, xy'; simpl in *; congruence).
  by eapply list_elem_of_lookup_2.
Qed.

Lemma NoDup_lines {A} (tag : A → nat) (line : nat → list A) idxs :
  NoDup idxs → (∀ i, NoDup (line i)) → (∀ i a, a ∈ line i → tag a = i) →
  NoDup (mjoin (line <$> idxs)).
Proof.
  intros Hnd Hl Ht. induction idxs as [|i idxs IH]; [apply NoDup_nil_2|].
  simpl. apply list.NoDup_app. split; [done|].
  split; [|apply IH; by eapply NoDup_cons_1_2].
  intros a Ha Hin. apply list_elem_of_join in Hin as (l & Hal & Hl').
  apply list_elem_of_fmap in Hl' as (j & -> & Hj).
  pose proof (Ht i a Ha) as E1. pose proof (Ht j a Hal) as E2.
  assert (i = j) as -> by congruence.
  by apply (NoDup_cons_1_1 _ _ Hnd).
Qed.

(** The raw matches are the runs of the rows followed by the runs of the
    columns, and neither scan has pushed a gem twice. *)
Lemma rawMatches_oriented st raw :
  boardOk st → rawMatches st = Ok raw →
  ∃ H V, raw = H ++ V ∧
         Forall (rowRun st) H ∧ Forall (columnRun st) V ∧
         NoDup (cellRefs (rawCells H)) ∧ NoDup (cellRefs (rawCells V)).
Proof.
  intros [Hwf Hc] Hraw. unfold rawMatches in Hraw.
  apply bind_Ok in Hraw as (H & Hrows & Hcols).
  destruct (scanPass_pushed st horizontal
              (λ y, (λ x, (x, y)) <$> seq 0 (width st)) (seq 0 (height st))
              Hwf [] H) as (new1 & cs1 & E1 & T1 & F1 & S1); [|exact Hrows|].
  { intros y xy _ Hxy. apply list_elem_of_fmap in Hxy as (x & -> & Hx).
    apply elem_of_seq in Hx. simpl. lia. }
  simpl in E1. subst new1.
  destruct (scanPass_pushed st vertical
              (λ x, (λ y, (x, y)) <$> seq 0 (height st)) (seq 0 (width st))
              Hwf H raw) as (V & cs2 & E2 & T2 & F2 & S2); [|exact Hcols|].
  { intros x xy Hx Hxy. apply list_elem_of_fmap in Hxy as (y & -> & _).
    apply elem_of_seq in Hx. simpl. lia. }
  exists H, V. split; [done|].
  assert (Hseg1 : Forall (λ m, ∃ x y, rowSegment st x y (mgems m)) H).
  { revert Hrows.
    apply (forEachM_pres _ (Forall (λ m, ∃ x y, rowSegment st x y (mgems m))));
      [|done].
    intros ms y ms' _ Hms Hline.
    destruct (row_cells st y Hwf) as [cells Hcells].
    apply list.Forall_forall. intros m Hm.
    destruct (scanLine_segments _ _ _ _ _ _ _ Hcells Hline m Hm)
      as [Hold|[a Ha]].
    - by apply (proj1 (list.Forall_forall _ _) Hms).
    - by exists a, y. }
  assert (Hseg2 : Forall (λ m, m ∈ H ∨ ∃ x y, columnSegment st x y (mgems m))
                         raw).
  { revert Hcols.
    apply (forEachM_pres _
             (Forall (λ m, m ∈ H ∨ ∃ x y, columnSegment st x y (mgems m)))).
    - intros ms x ms' Hx Hms Hline. apply elem_of_seq in Hx.
      destruct (column_cells st x Hwf) as [cells Hcells]; [lia|].
      apply list.Forall_forall. intros m Hm.
      destruct (scanLine_segments _ _ _ _ _ _ _ Hcells Hline m Hm)
        as [Hold|[a Ha]].
      + by apply (proj1 (list.Forall_forall _ _) Hms).
      + right. by exists x, a.
    - apply list.Forall_forall. intros m Hm. by left. }
  split.
  { apply list.Forall_forall. intros m Hm. split.
    - by apply (proj1 (list.Forall_forall _ _) T1).
    - by apply (proj1 (list.Forall_forall _ _) Hseg1). }
  split.
  { apply list.Forall_forall. intros m Hm.
    pose proof (proj1 (list.Forall_forall _ _) T2 m Hm) as Hty.
    split; [done|].
    destruct (proj1 (list.Forall_forall _ _) Hseg2 m) as [HinH|Hcol];
      [rewrite E2; apply elem_of_app; by right| |done].
    pose proof (proj1 (list.Forall_forall _ _) T1 m HinH) as Hty'.
    congruence. }
  split.
  - eapply sublist_NoDup; [|exact S1].
    eapply (cellRefs_NoDup st); [done| |exact F1].
    apply (NoDup_lines snd); [apply NoDup_seq| |].
    + intros y. apply NoDup_fmap_2; [by intros a b [= ->]|apply NoDup_seq].
    + intros y a Ha. by apply list_elem_of_fmap in Ha as (x & -> & _).
  - eapply sublist_NoDup; [|exact S2].
    eapply (cellRefs_NoDup st); [done| |exact F2].
    apply (NoDup_lines fst); [apply NoDup_seq| |].
    + intros x. apply NoDup_fmap_2; [by intros a b [= ->]|apply NoDup_seq].
    + intros x a Ha. by apply list_elem_of_fmap in Ha as (y & -> & _).
Qed.

(** *** What the first pass counts *)

Lemma occ_app st k a b : occ st k (a ++ b) = occ st k a + occ st k b.
Proof. unfold occ. by rewrite cellRefs_app, list.filter_app, length_app. Qed.

Lemma registerGem_count (st : GemGrid) (ty : MatchType) (mm : gmap (nat * nat) MatchInfo)
    (gem : option nat) (mm' : gmap (nat * nat) MatchInfo) (k : nat * nat) :
  registerGem st ty mm gem = Ok mm' →
  typeCount mm' k = typeCount mm k + occ st k [gem].
Proof.
  unfold registerGem. destruct gem as [r|]; [|done]. simpl.
  unfold occ. change (cellRefs [Some r]) with [r]. unfold typeCount.
  destruct (mm !! keyOf st r) as [info|] eqn:E.
  - rewrite E. intros [= <-].
    destruct (decide (keyOf st r = k)) as [<-|Hne].
    + rewrite lookup_insert_eq, E, filter_cons_True by done. simpl.
      rewrite length_app. simpl. lia.
    + rewrite lookup_insert_ne, filter_cons_False by done. simpl. lia.
  - rewrite lookup_insert_eq. intros [= <-].
    destruct (decide (keyOf st r = k)) as [<-|Hne].
    + rewrite lookup_insert_eq, E, filter_cons_True by done. simpl. lia.
    + rewrite !lookup_insert_ne, filter_cons_False by done. simpl. lia.
Qed.

Lemma registerGems_count (st : GemGrid) (ty : MatchType) (k : nat * nat)
    (gs : list (option nat)) :
  ∀ (mm mm' : gmap (nat * nat) MatchInfo),
  forEachM (registerGem st ty) gs mm = Ok mm' →
  typeCount mm' k = typeCount mm k + occ st k gs.
Proof.
  induction gs as [|g gs IH]; intros mm mm' H; simpl in H.
  { injection H as <-. unfold occ. simpl. lia. }
  apply bind_Ok in H as (mm1 & H1 & H2).
  rewrite (IH _ _ H2), (registerGem_count _ _ _ _ _ k H1).
  change (g :: gs) with ([g] ++ gs). rewrite occ_app. lia.
Qed.

(** Under each key the first pass has pushed one type for every cell of
    the raw matches that holds a gem with that key. *)
Lemma buildMatchMap_count (st : GemGrid) (k : nat * nat) (ms : list Match) :
  ∀ (mm mm' : gmap (nat * nat) MatchInfo),
  forEachM (λ matchMap m,
              forEachM (registerGem st (mtype m)) (mgems m) matchMap) ms mm
  = Ok mm' →
  typeCount mm' k = typeCount mm k + occ st k (rawCells ms).
Proof.
  induction ms as [|m ms IH]; intros mm mm' H; simpl in H.
  { injection H as <-. unfold occ. simpl. lia. }
  apply bind_Ok in H as (mm1 & H1 & H2).
  rewrite (IH _ _ H2), (registerGems_count _ _ k _ _ _ H1).
  change (rawCells (m :: ms)) with (mgems m ++ rawCells ms).
  rewrite occ_app. lia.
Qed.

Lemma same_cell st r g :
  consistent st → r ∈ gridRefs st → g ∈ gridRefs st →
  keyOf st r = keyOf st g → r = g.
Proof.
  intros Hc Hr Hg Hk.
  apply gridRefs_cellAt in Hr as (x & y & Hr).
  apply gridRefs_cellAt in Hg as (x' & y' & Hg).
  destruct (Hc _ _ _ Hr) as [K1 _], (Hc _ _ _ Hg) as [K2 _].
  rewrite K1, K2 in Hk. injection Hk as -> ->.
  rewrite Hr in Hg. by injection Hg.
Qed.

Lemma occ_le_1 st k cells :
  consistent st → NoDup (cellRefs cells) →
  (∀ r, r ∈ cellRefs cells → r ∈ gridRefs st) → occ st k cells ≤ 1.
Proof.
  intros Hc Hnd Hgrid. unfold occ.
  pose proof (sublist_NoDup _ _ Hnd
                (sublist_filter (λ r, keyOf st r = k) _)) as Hnd'.
  assert (Hall : ∀ a b,
            a ∈ filter (λ r, keyOf st r = k) (cellRefs cells) →
            b ∈ filter (λ r, keyOf st r = k) (cellRefs cells) → a = b).
  { intros a b Ha Hb.
    apply list_elem_of_filter in Ha as [Ka Ha].
    apply list_elem_of_filter in Hb as [Kb Hb].
    apply (same_cell st); auto. congruence. }
  destruct (filter _ _) as [|a [|b l]]; simpl; [lia..|].
  exfalso. assert (a = b) as -> by (apply Hall; [by left|right; by left]).
  apply NoDup_cons_1_1 in Hnd'. apply Hnd'. by left.
Qed.

Lemma occ_pos st k ms :
  0 < occ st k (rawCells ms) →
  ∃ m r, m ∈ ms ∧ Some r ∈ mgems m ∧ keyOf st r = k.
Proof.
  unfold occ. intros H.
  destruct (filter _ _) as [|r l] eqn:E; [simpl in H; lia|].
  assert (Hr : r ∈ filter (λ r, keyOf st r = k) (cellRefs (rawCells ms)))
    by (rewrite E; by left).
  apply list_elem_of_filter in Hr as [Hk Hr].
  apply list_elem_of_omap in Hr as (c & Hc & Hcr). simpl in Hcr. subst c.
  apply list_elem_of_join in Hc as (l' & Hin & Hl').
  apply list_elem_of_fmap in Hl' as (m & -> & Hm). by exists m, r.
Qed.

Lemma rawCells_grid st ms :
  Forall (uniformMatch st) ms →
  ∀ r, r ∈ cellRefs (rawCells ms) → r ∈ gridRefs st.
Proof.
  intros Hu r Hr.
  apply list_elem_of_omap in Hr as (c & Hc & Hcr). simpl in Hcr. subst c.
  apply list_elem_of_join in Hc as (l' & Hin & Hl').
  apply list_elem_of_fmap in Hl' as (m & -> & Hm).
  destruct (proj1 (list.Forall_forall _ _) Hu m Hm) as (_ & t & Ht).
  destruct (Ht _ Hin) as (r' & [= <-] & _ & Hg). done.
Qed.

(** The search starts only at a gem with more than one match type. *)
Lemma collectIntersecting_crossing st mm gs R :
  forEachM (collectIntersecting st mm) gs [] = Ok R →
  R = [] ∨ ∃ g, Some g ∈ gs ∧ g ∈ R ∧ 1 < typeCount mm (keyOf st g).
Proof.
  apply (forEachM_pres _ (λ c : list nat,
           c = [] ∨ ∃ g, Some g ∈ gs ∧ g ∈ c ∧ 1 < typeCount mm (keyOf st g)));
    [|by left].
  intros c gem c' Hgem Hc Hstep. unfold collectIntersecting in Hstep.
  apply bind_Ok in Hstep as (r & Hr & Hstep).
  destruct gem as [r0|]; [|done]. injection Hr as ->. revert Hstep.
  destruct (mm !! keyOf st r) as [info|] eqn:E; [|done].
  destruct (1 <? length (matchTypes info)) eqn:Hlt; intros Hstep.
  - apply findConnectedGems_closed in Hstep as (_ & Hin & _).
    right. exists r. split; [done|]. split; [done|].
    unfold typeCount. rewrite E. by apply Nat.ltb_lt.
  - by injection Hstep as <-.
Qed.

(** *** The bounding box of a pattern *)

Lemma minList_le l a : a ∈ l → minList l ≤ a.
Proof.
  unfold minList. generalize (hd 0 l). intros d.
  induction l as [|b l IH]; intros Ha; [by apply elem_of_nil in Ha|].
  apply elem_of_cons in Ha as [->|Ha]; simpl; [lia|].
  specialize (IH Ha). lia.
Qed.

Lemma maxList_ge l a : a ∈ l → a ≤ maxList l.
Proof.
  unfold maxList.
  induction l as [|b l IH]; intros Ha; [by apply elem_of_nil in Ha|].
  apply elem_of_cons in Ha as [->|Ha]; simpl; [lia|].
  specialize (IH Ha). lia.
Qed.

(** A set of gems that spans three columns and three rows is an
    ['L_shape'] or ['special']. *)
Lemma identifyPattern_crossing st gs a b c d :
  a ∈ gs → b ∈ gs → c ∈ gs → d ∈ gs →
  gridX (heap st a) + 2 ≤ gridX (heap st b) →
  gridY (heap st c) + 2 ≤ gridY (heap st d) →
  identifyPattern st gs = L_shape ∨ identifyPattern st gs = special.
Proof.
  intros Ha Hb Hc Hd Hx Hy.
  pose proof (minList_le _ _ (list_elem_of_fmap_2 (λ g, gridX (heap st g)) _ _ Ha)).
  pose proof (maxList_ge _ _ (list_elem_of_fmap_2 (λ g, gridX (heap st g)) _ _ Hb)).
  pose proof (minList_le _ _ (list_elem_of_fmap_2 (λ g, gridY (heap st g)) _ _ Hc)).
  pose proof (maxList_ge _ _ (list_elem_of_fmap_2 (λ g, gridY (heap st g)) _ _ Hd)).
  unfold identifyPattern. destruct gs as [|g0 gs0] eqn:Egs.
  { by apply elem_of_nil in Ha. }
  rewrite <- Egs in *. cbv zeta.
  set (w := maxList ((λ g, gridX (heap st g)) <$> gs)
            - minList ((λ g, gridX (heap st g)) <$> gs) + 1) in *.
  set (h := maxList ((λ g, gridY (heap st g)) <$> gs)
            - minList ((λ g, gridY (heap st g)) <$> gs) + 1) in *.
  assert (3 ≤ w) by (unfold w; lia). assert (3 ≤ h) by (unfold h; lia).
  destruct (Nat.eqb_spec w 3), (Nat.eqb_spec h 3), (Nat.eqb_spec h 2),
    (Nat.eqb_spec w 2); simpl; auto; lia.
Qed.

(** *** Both runs through a crossing are in the pattern *)

Lemma run_inside st mm m R g :
  boardOk st → segment st m → uniformMatch st m →
  registered st mm (mgems m) → closedFrom st mm [] R →
  Some g ∈ mgems m → g ∈ R → ∀ r, Some r ∈ mgems m → r ∈ R.
Proof.
  intros Hok Hseg Hu Hreg Hcl Hg Hin r Hr.
  destruct Hu as (Hl & t & Ht).
  assert (Hsome : ∀ c, c ∈ mgems m → ∃ r : nat, c = Some r).
  { intros c Hc. destruct (Ht c Hc) as (r' & -> & _). by exists r'. }
  destruct (segment_chain st m Hseg Hsome) as (pos & Hpos & Hcells).
  apply list_elem_of_lookup_1 in Hg as [j Hj].
  apply list_elem_of_lookup_1 in Hr as [i Hi].
  exact (chain_connected st mm pos (mgems m) R Hok Hpos Hcells Hreg Hcl
           j g Hj Hin i r Hi).
Qed.

Lemma rowRun_span st m :
  consistent st → uniformMatch st m → rowRun st m →
  ∃ a b, Some a ∈ mgems m ∧ Some b ∈ mgems m ∧
         gridX (heap st a) + 2 ≤ gridX (heap st b).
Proof.
  intros Hc (Hl & t & Ht) (_ & x & y & Hseg). unfold rowSegment in Hseg.
  revert Hl Ht Hseg.
  destruct (mgems m) as [|c0 [|c1 [|c2 gs]]]; intros Hl Ht Hseg;
    simpl in Hl; try lia.
  destruct (Ht c0) as (a & -> & _); [by left|].
  destruct (Ht c2) as (b & -> & _); [right; right; by left|].
  exists a, b. split; [by left|]. split; [right; right; by left|].
  pose proof (Forall2_lookup_lr _ _ _ 0 (x, y) (Some a) Hseg eq_refl eq_refl)
    as H0.
  pose proof (Forall2_lookup_lr _ _ _ 2 (S (S x), y) (Some b) Hseg
                eq_refl eq_refl) as H2.
  simpl in H0, H2.
  destruct (Hc _ _ _ H0) as [K0 _], (Hc _ _ _ H2) as [K2 _].
  unfold keyOf in K0, K2. injection K0 as -> _. injection K2 as -> _. lia.
Qed.

Lemma columnRun_span st m :
  consistent st → uniformMatch st m → columnRun st m →
  ∃ a b, Some a ∈ mgems m ∧ Some b ∈ mgems m ∧
         gridY (heap st a) + 2 ≤ gridY (heap st b).
Proof.
  intros Hc (Hl & t & Ht) (_ & x & y & Hseg). unfold columnSegment in Hseg.
  revert Hl Ht Hseg.
  destruct (mgems m) as [|c0 [|c1 [|c2 gs]]]; intros Hl Ht Hseg;
    simpl in Hl; try lia.
  destruct (Ht c0) as (a & -> & _); [by left|].
  destruct (Ht c2) as (b & -> & _); [right; right; by left|].
  exists a, b. split; [by left|]. split; [right; right; by left|].
  pose proof (Forall2_lookup_lr _ _ _ 0 (x, y) (Some a) Hseg eq_refl eq_refl)
    as H0.
  pose proof (Forall2_lookup_lr _ _ _ 2 (x, S (S y)) (Some b) Hseg
                eq_refl eq_refl) as H2.
  simpl in H0, H2.
  destruct (Hc _ _ _ H0) as [K0 _], (Hc _ _ _ H2) as [K2 _].
  unfold keyOf in K0, K2. injection K0 as _ ->. injection K2 as _ ->. lia.
Qed.

(** A gem with more than one match type lies on a run of a row and on a
    run of a column; the pattern has both, so it spans three columns and
    three rows. *)
Lemma consolidateStep_types st mm H V cs p m cs' p' :
  boardOk st →
  Forall (rowRun st) H → Forall (columnRun st) V →
  NoDup (cellRefs (rawCells H)) → NoDup (cellRefs (rawCells V)) →
  Forall (uniformMatch st) (H ++ V) →
  (∀ k, typeCount mm k = occ st k (rawCells (H ++ V))) →
  (∀ m, m ∈ H ++ V → registered st mm (mgems m)) →
  m ∈ H ++ V →
  consolidateStep st mm (cs, p) m = Ok (cs', p') →
  Forall reportedType cs → Forall reportedType cs'.
Proof.
  intros Hok HH HV NH NV Hu Hcount Hreg Hm Hstep Hcs.
  unfold consolidateStep in Hstep.
  apply bind_Ok in Hstep as (skip & _ & Hstep). destruct skip.
  { by injection Hstep as <- _. }
  apply bind_Ok in Hstep as (inter & Hinter & Hstep).
  destruct (0 <? length inter) eqn:Hlen.
  2:{ apply bind_Ok in Hstep as (rs & _ & [= <- _]).
      apply Forall_app. split; [done|]. apply Forall_singleton.
      apply elem_of_app in Hm as [Hm|Hm].
      - left. apply (proj1 (list.Forall_forall _ _) HH m Hm).
      - right; left. apply (proj1 (list.Forall_forall _ _) HV m Hm). }
  injection Hstep as <- _.
  apply Forall_app. split; [done|]. apply Forall_singleton.
  unfold reportedType. simpl.
  destruct (collectIntersecting_closed _ _ _ _ Hinter) as (_ & Hcl & _).
  destruct (collectIntersecting_crossing _ _ _ _ Hinter)
    as [->|(g & Hg & Hin & Hcnt)]; [done|].
  pose proof (proj1 (Forall_app _ _ _) Hu) as [HuH HuV].
  assert (Hgem : ∀ m' r, m' ∈ H ++ V → Some r ∈ mgems m' → r ∈ gridRefs st).
  { intros m' r Hm' Hr.
    destruct (proj1 (list.Forall_forall _ _) Hu m' Hm') as (_ & t & Ht).
    by destruct (Ht _ Hr) as (r' & [= <-] & _ & ?). }
  rewrite Hcount, rawCells_app, occ_app in Hcnt.
  pose proof (occ_le_1 st (keyOf st g) (rawCells H) (proj2 Hok) NH
                (rawCells_grid st H HuH)).
  pose proof (occ_le_1 st (keyOf st g) (rawCells V) (proj2 Hok) NV
                (rawCells_grid st V HuV)).
  destruct (occ_pos st (keyOf st g) H) as (mh & rh & Hmh & Hrh & Kh); [lia|].
  destruct (occ_pos st (keyOf st g) V) as (mv & rv & Hmv & Hrv & Kv); [lia|].
  assert (HmhU : mh ∈ H ++ V) by (apply elem_of_app; by left).
  assert (HmvU : mv ∈ H ++ V) by (apply elem_of_app; by right).
  assert (rh = g) as ->.
  { apply (same_cell st);
      [apply Hok|by apply (Hgem mh)|by apply (Hgem m)|done]. }
  assert (rv = g) as ->.
  { apply (same_cell st);
      [apply Hok|by apply (Hgem mv)|by apply (Hgem m)|done]. }
  pose proof (proj1 (list.Forall_forall _ _) HH mh Hmh) as Rh.
  pose proof (proj1 (list.Forall_forall _ _) HV mv Hmv) as Rv.
  pose proof (proj1 (list.Forall_forall _ _) Hu mh HmhU) as Uh.
  pose proof (proj1 (list.Forall_forall _ _) Hu mv HmvU) as Uv.
  assert (Hinh : ∀ r, Some r ∈ mgems mh → r ∈ inter).
  { apply (run_inside st mm mh inter g); try done; [|by apply Hreg].
    destruct Rh as (_ & x & y & Hs). exists x, y. by left. }
  assert (Hinv : ∀ r, Some r ∈ mgems mv → r ∈ inter).
  { apply (run_inside st mm mv inter g); try done; [|by apply Hreg].
    destruct Rv as (_ & x & y & Hs). exists x, y. by right. }
  destruct (rowRun_span st mh (proj2 Hok) Uh Rh) as (a & b & Ha & Hb & Hx).
  destruct (columnRun_span st mv (proj2 Hok) Uv Rv) as (c & d & Hc & Hd & Hy).
  destruct (identifyPattern_crossing st inter a b c d) as [E|E];
    auto; rewrite E; auto.
Qed.

(** On a board that satisfies the invariant, [findMatches] gives every
    match one of the types ['horizontal'], ['vertical'], ['L_shape'] and
    ['special'].  A pattern is built only around a gem that lies on a run
    of a row and on a run of a column, and it contains both runs: it
    spans at least three columns and three rows, so ['T_shape'] is never
    reported, and ['cross'] is not either. *)
Theorem findMatches_never_reports_T_shape st matches :
  boardOk st → findMatches st = Ok matches → Forall reportedType matches.
Proof.
  intros Hok H.
  unfold findMatches in H. apply bind_Ok in H as (raw & Hraw & H).
  destruct (rawMatches_oriented st raw Hok Hraw)
    as (Hs & Vs & -> & HH & HV & NH & NV).
  destruct (rawMatches_total st (proj1 Hok)) as (raw' & Eraw & Hu).
  rewrite Hraw in Eraw. injection Eraw as <-.
  unfold consolidateMatches in H.
  apply bind_Ok in H as (mm & Hmm & H).
  destruct (buildMatchMap_total st (Hs ++ Vs) Hu) as (mm' & Emm & Hreg).
  rewrite Hmm in Emm. injection Emm as <-.
  assert (Hcount : ∀ k, typeCount mm k = occ st k (rawCells (Hs ++ Vs))).
  { intros k. unfold buildMatchMap in Hmm.
    by rewrite (buildMatchMap_count st k _ _ _ Hmm). }
  apply bind_Ok in H as ([cs p] & Hloop & [= <-]).
  change cs with (cs, p).1. revert Hloop.
  apply (forEachM_pres _
           (λ acc : list Match * gset (nat * nat), Forall reportedType acc.1));
    [|done].
  intros [cs0 p0] m [cs1 p1] Hm Hacc Hstep. simpl in *.
  by eapply (consolidateStep_types st mm Hs Vs cs0 p0 m).
Qed.

Lemma findMatches_never_reports_T_shape_witness :
  boardOk plusBoard ∧
  findMatches plusBoard
  = Ok [mkMatch [Some 4; Some 3; Some 7; Some 5; Some 1] L_shape] ∧
  Forall reportedType
         [mkMatch [Some 4; Some 3; Some 7; Some 5; Some 1] L_shape].
Proof.
  assert (H1 : boardOk plusBoard) by apply boardOfRows_boardOk.
  assert (H2 : findMatches plusBoard
               = Ok [mkMatch [Some 4; Some 3; Some 7; Some 5; Some 1] L_shape])
    by (vm_compute; reflexivity).
  split; [exact H1|]. split; [exact H2|].
  exact (findMatches_never_reports_T_shape plusBoard _ H1 H2).
Defined.

(** ** The move of a drag, and the falling data *)

(** The only drag [isValidMove] accepts that [createMoveAction] turns
    into a move by zero cells is a drag of exactly half a cell in the
    negative direction: [Math.round] rounds -0.5 up. *)
Theorem createMoveAction_zero_cells config dir start (d : R) :
  (0 < GameScene.gridCellSize config)%R →
  GameScene.isValidMove config d = true ∧
  GameScene.moveAmount (GameScene.createMoveAction config dir start d) = 0%Z
  ↔ d = (- (GameScene.gridCellSize config / 2))%R.
Proof.
  intros Hc. unfold GameScene.isValidMove, GameScene.createMoveAction,
    GameScene.round. simpl.
  set (c := GameScene.gridCellSize config) in *.
  set (q := (d / c)%R).
  assert (Hq : d = (q * c)%R) by (unfold q; field; lra).
  split.
  - intros [Hv Hz].
    destruct (Rle_dec (c / 2) (Rabs d)) as [Habs|]; [|done].
    pose proof (Zfloor_bound (q + 1 / 2)) as [Hlo Hhi].
    rewrite Hz in Hlo, Hhi. simpl in Hlo, Hhi.
    unfold Rabs in Habs. destruct (Rcase_abs d); nra.
  - intros Hd.
    assert (Hq' : q = (- (1 / 2))%R) by (unfold q; rewrite Hd; field; lra).
    split.
    + destruct (Rle_dec (c / 2) (Rabs d)) as [|Hn]; [done|].
      exfalso. apply Hn. rewrite Hd, Rabs_Ropp, Rabs_pos_eq; lra.
    + apply Zfloor_eq. rewrite Hq'. simpl. lra.
Qed.

Lemma createMoveAction_zero_cells_witness :
  (0 < GameScene.gridCellSize (GameScene.mkGridConfig 7 8 64))%R ∧
  (GameScene.isValidMove (GameScene.mkGridConfig 7 8 64) (-32) = true ∧
   GameScene.moveAmount
     (GameScene.createMoveAction (GameScene.mkGridConfig 7 8 64)
        GameScene.row (3, 2)%Z (-32)) = 0%Z).
Proof.
  assert (H : (0 < GameScene.gridCellSize (GameScene.mkGridConfig 7 8 64))%R)
    by (simpl; lra).
  split; [exact H|].
  apply (proj2 (createMoveAction_zero_cells (GameScene.mkGridConfig 7 8 64)
                  GameScene.row (3, 2)%Z (-32) H)).
  simpl. lra.
Defined.

(** *** The falling data *)

Lemma getGemAt_total st x y : wfBoard st → ∃ c, getGemAt st x y = Ok c.
Proof.
  intros Hwf. unfold getGemAt.
  destruct (isValidGridPosition st x y) eqn:E; [|by eexists].
  apply cellAt_total; [done|]. apply isValidGridPosition_spec in E. lia.
Qed.

Lemma emptyBelow_S st x y :
  emptyBelow st x (S y)
  = emptyBelow st x y
    + (if decide (getGemAt st (Z.of_nat x) (Z.of_nat y) = Ok None)
       then 1 else 0).
Proof.
  unfold emptyBelow. rewrite seq_S, list.filter_app, length_app. simpl.
  f_equal. rewrite filter_cons. by destruct (decide _).
Qed.

Lemma emptyBelow_le st x y : emptyBelow st x y ≤ y.
Proof.
  unfold emptyBelow.
  etrans; [apply length_filter|]. by rewrite length_seq.
Qed.

(** One column: the counter holds the number of empty cells met so far,
    and an entry is pushed for exactly the gems that have one before
    them. *)
Lemma fallingColumn_spec st x h (data0 : list GameScene.FallingEntry) :
  wfBoard st →
  ∃ e data,
    forEachM (GameScene.fallingCell st x) (seq 0 h) (0, data0)
    = Ok (e, data) ∧
    ∀ en, en ∈ data ↔
          en ∈ data0 ∨
          ∃ y gem, y < h ∧ falls st x y gem ∧ en = entryOf st x y gem.
Proof.
  intros Hwf.
  destruct (forEachM_seq (GameScene.fallingCell st x)
              (λ y (s : nat * list GameScene.FallingEntry),
                 s.1 = emptyBelow st x y ∧
                 ∀ en, en ∈ s.2 ↔
                       en ∈ data0 ∨
                       ∃ y' gem, y' < y ∧ falls st x y' gem ∧
                                 en = entryOf st x y' gem)
              h 0 (0, data0)) as ([e data] & E & He & Hdata).
  - intros y [e data] Hy [He Hdata]. simpl in He, Hdata. subst e.
    destruct (getGemAt_total st (Z.of_nat x) (Z.of_nat y) Hwf) as [c Hc].
    unfold GameScene.fallingCell. rewrite Hc. simpl.
    pose proof (emptyBelow_S st x y) as HS. rewrite Hc in HS.
    destruct c as [gem|].
    + rewrite decide_False in HS by done.
      destruct (0 <? emptyBelow st x y) eqn:Hpos.
      * apply Nat.ltb_lt in Hpos. eexists. split; [done|]. simpl.
        split; [lia|]. intros en. rewrite elem_of_app, Hdata.
        rewrite list_elem_of_singleton. split.
        -- intros [[?|(y' & g & ? & ? & ?)]| ->]; [by left| |].
           ++ right. exists y', g. split; [lia|done].
           ++ right. exists y, gem. split; [lia|]. by split.
        -- intros [?|(y' & g & Hy' & Hf & ->)]; [left; by left|].
           destruct (decide (y' = y)) as [->|Hne].
           ++ right. destruct Hf as [Hg _]. rewrite Hc in Hg.
              by injection Hg as ->.
           ++ left. right. exists y', g. split; [lia|done].
      * apply Nat.ltb_ge in Hpos. eexists. split; [done|]. simpl.
        split; [lia|]. intros en. rewrite Hdata. split.
        -- intros [?|(y' & g & ? & ? & ?)]; [by left|].
           right. exists y', g. split; [lia|done].
        -- intros [?|(y' & g & Hy' & Hf & ->)]; [by left|].
           destruct (decide (y' = y)) as [->|Hne].
           ++ destruct Hf as [_ Hf]. lia.
           ++ right. exists y', g. split; [lia|done].
    + rewrite decide_True in HS by done.
      eexists. split; [done|]. simpl. split; [lia|].
      intros en. rewrite Hdata. split.
      * intros [?|(y' & g & ? & ? & ?)]; [by left|].
        right. exists y', g. split; [lia|done].
      * intros [?|(y' & g & Hy' & Hf & ->)]; [by left|].
        destruct (decide (y' = y)) as [->|Hne].
        -- destruct Hf as [Hg _]. by rewrite Hc in Hg.
        -- right. exists y', g. split; [lia|done].
  - simpl. split; [done|]. intros en. split; [by left|].
    intros [?|(y' & g & ? & _)]; [done|lia].
  - exists e, data. split; [done|]. simpl in Hdata. exact Hdata.
Qed.

(** On a board of [width st] columns of [height st] cells,
    [Game.calculateFallingDistances] returns, with one entry for exactly
    the gems that have an empty cell at a smaller row index in their
    column; the target row is the gem's row minus the number of those
    empty cells, so every gem is sent towards row 0. *)
Theorem calculateFallingDistances_entries w h st :
  wfBoard st →
  ∃ fallingData,
    GameScene.calculateFallingDistances w h st = Ok fallingData ∧
    (∀ en, en ∈ fallingData ↔
           ∃ x y gem, x < w ∧ y < h ∧ falls st x y gem ∧
                      en = entryOf st x y gem) ∧
    (∀ en, en ∈ fallingData →
           (0 ≤ GameScene.toY en < Z.of_nat (GameScene.fromY en))%Z).
Proof.
  intros Hwf. unfold GameScene.calculateFallingDistances.
  destruct (forEachM_seq
              (λ fallingData x,
                 '(_, fallingData) ←
                   forEachM (GameScene.fallingCell st x) (seq 0 h)
                            (0, fallingData);
                 Ok fallingData)
              (λ x (data : list GameScene.FallingEntry),
                 ∀ en, en ∈ data ↔
                       ∃ x' y gem, x' < x ∧ y < h ∧ falls st x' y gem ∧
                                   en = entryOf st x' y gem)
              w 0 []) as (data & E & Hdata).
  - intros x data0 Hx H0.
    destruct (fallingColumn_spec st x h data0 Hwf) as (e & data & E & Hd).
    exists data. rewrite E. split; [done|].
    intros en. rewrite Hd, H0. split.
    + intros [(x' & y & g & ? & ? & ? & ?)|(y & g & ? & ? & ?)].
      * exists x', y, g. split; [lia|done].
      * exists x, y, g. split; [lia|done].
    + intros (x' & y & g & Hx' & Hy & Hf & ->).
      destruct (decide (x' = x)) as [->|Hne].
      * right. by exists y, g.
      * left. exists x', y, g. split; [lia|done].
  - intros en. split; [intros Hen; by apply elem_of_nil in Hen|].
    intros (x' & _ & _ & ? & _). lia.
  - exists data. split; [done|]. split; [exact Hdata|].
    intros en Hen. apply Hdata in Hen as (x & y & g & _ & _ & [_ Hpos] & ->).
    simpl. pose proof (emptyBelow_le st x y). lia.
Qed.

Lemma calculateFallingDistances_entries_witness :
  wfBoard plusRemoved ∧
  ∃ fallingData,
    GameScene.calculateFallingDistances 3 3 plusRemoved = Ok fallingData ∧
    (∀ en, en ∈ fallingData ↔
           ∃ x y gem, x < 3 ∧ y < 3 ∧ falls plusRemoved x y gem ∧
                      en = entryOf plusRemoved x y gem) ∧
    (∀ en, en ∈ fallingData →
           (0 ≤ GameScene.toY en < Z.of_nat (GameScene.fromY en))%Z).
Proof.
  assert (H : wfBoard plusRemoved) by reflexivity.
  split; [exact H|].
  exact (calculateFallingDistances_entries 3 3 plusRemoved H).
Defined.
